(** * Pod network annotation codec and node address reconciler

    A shallow embedding of go-controller/pkg/util/pod_annotation.go
    (MarshalPodAnnotation, UnmarshalPodAnnotation, GetAllPodIPs) together
    with the parts of Go's [net], [k8s.io/utils/net] and [encoding/json]
    packages these functions call, and the properties of the annotation
    protocol proved over it. *)

From Stdlib Require Import NArith ZArith Ascii Lia.
From Stdlib.Strings Require Import Byte.
From stdpp Require Import base option list strings gmap.

Local Open Scope N_scope.

(** ** Go strings and bytes

    A Go [string] is a sequence of bytes: [string] over [ascii].  A Go
    [byte] is [Byte.byte]; integers are [N] with conversions written out. *)

Abbreviation byte := Byte.byte.

#[global] Instance byte_eq_dec : EqDecision byte := Byte.byte_eq_dec.

(** [byte(n)]: conversion of an integer to uint8. *)
Definition byte_of_N (n : N) : byte :=
  default Byte.x00 (Byte.of_N (n mod 256)).

Definition ord (c : ascii) : N := N_of_ascii c.
Definition chr (n : N) : ascii := ascii_of_N n.

(** [const hexDigit = "0123456789abcdef"] *)
Definition hexDigit (n : N) : ascii :=
  if n <? 10 then chr (48 + n) else chr (87 + n).

(** Value of a decimal digit, as in ['0' <= c && c <= '9']. *)
Definition decval (c : ascii) : option N :=
  let n := ord c in
  if (48 <=? n) && (n <=? 57) then Some (n - 48) else None.

(** Value of a hexadecimal digit of either case. *)
Definition hexval (c : ascii) : option N :=
  let n := ord c in
  if (48 <=? n) && (n <=? 57) then Some (n - 48)
  else if (97 <=? n) && (n <=? 102) then Some (n - 87)
  else if (65 <=? n) && (n <=? 70) then Some (n - 55)
  else None.

(** [s[n:]] and [s[:n]] *)
Fixpoint sdrop (n : nat) (s : string) : string :=
  match n, s with
  | S n', String _ r => sdrop n' r
  | _, _ => s
  end.

Fixpoint stake (n : nat) (s : string) : string :=
  match n, s with
  | S n', String c r => String c (stake n' r)
  | _, _ => ""
  end.

(** [s[i]], the zero byte when out of range. *)
Definition sget (i : nat) (s : string) : ascii :=
  default Ascii.zero (String.get i s).

Fixpoint join (sep : string) (l : list string) : string :=
  match l with
  | [] => ""
  | [x] => x
  | x :: l' => x +:+ sep +:+ join sep l'
  end.

(** [s[:i]] and [s[i+1:]] for the first index [i] holding [c]
    ([bytealg.IndexByteString]). *)
Fixpoint cut (c : ascii) (s : string) : option (string * string) :=
  match s with
  | EmptyString => None
  | String a r =>
      if decide (a = c) then Some ("", r)
      else '(l, r') ← cut c r; Some (String a l, r')
  end.

(** ** Package net *)
Module net.

Definition IPv4len : nat := 4.
Definition IPv6len : nat := 16.
Definition big : N := 16777215.

(** [type IP []byte]; the nil slice is the empty list. *)
Definition IP := list byte.
Definition IPMask := list byte.
Definition HardwareAddr := list byte.

Record IPNet := { IP_ : IP; Mask_ : IPMask }.

Definition v4InV6Prefix : list byte :=
  replicate 10 Byte.x00 ++ [Byte.xff; Byte.xff].

Definition IPv4 (a b c d : byte) : IP := v4InV6Prefix ++ [a; b; c; d].

Definition IPv4zero : IP := IPv4 Byte.x00 Byte.x00 Byte.x00 Byte.x00.
Definition IPv6unspecified : IP := replicate 16 Byte.x00.

(** [ip.To4()]: the 4-byte form, or nil when [ip] is not an IPv4 address. *)
Definition To4 (ip : IP) : IP :=
  if decide (length ip = IPv4len) then ip
  else if decide (length ip = IPv6len ∧ take 12 ip = v4InV6Prefix)
       then drop 12 ip
       else [].

(** [ip.Equal(x)]: equal, also across the 4-byte and 16-byte forms. *)
Definition Equal (ip x : IP) : bool :=
  if decide (length ip = length x) then bool_decide (ip = x)
  else if decide (length ip = IPv4len ∧ length x = IPv6len)
       then bool_decide (take 12 x = v4InV6Prefix ∧ ip = drop 12 x)
  else if decide (length ip = IPv6len ∧ length x = IPv4len)
       then bool_decide (take 12 ip = v4InV6Prefix ∧ drop 12 ip = x)
  else false.

Definition IsUnspecified (ip : IP) : bool :=
  Equal ip IPv4zero || Equal ip IPv6unspecified.

(** [CIDRMask(ones, bits)] *)
Fixpoint CIDRMask_go (l : nat) (n : N) : IPMask :=
  match l with
  | O => []
  | S l' =>
      if 8 <=? n then Byte.xff :: CIDRMask_go l' (n - 8)
      else byte_of_N (255 - N.shiftr 255 n) :: CIDRMask_go l' 0
  end.

Definition CIDRMask (ones bits : N) : IPMask :=
  if negb ((bits =? 32) || (bits =? 128)) then []
  else if bits <? ones then []
  else CIDRMask_go (N.to_nat (bits / 8)) ones.

Definition allFF (b : list byte) : bool :=
  forallb (λ c, bool_decide (c = Byte.xff)) b.

Definition and_byte (a b : byte) : byte :=
  byte_of_N (N.land (Byte.to_N a) (Byte.to_N b)).

(** [ip.Mask(mask)] *)
Definition Mask (ip : IP) (mask : IPMask) : IP :=
  let mask :=
    if decide (length mask = IPv6len ∧ length ip = IPv4len)
    then (if allFF (take 12 mask) then drop 12 mask else mask)
    else mask in
  let ip :=
    if decide (length mask = IPv4len ∧ length ip = IPv6len)
    then (if decide (take 12 ip = v4InV6Prefix) then drop 12 ip else ip)
    else ip in
  if decide (length ip = length mask) then zip_with and_byte ip mask
  else [].

(** Number of leading one bits of [v] and whether the rest of [v] is zero:
    the two inner loops of [simpleMaskLength]. *)
Fixpoint ones_go (fuel : nat) (v : N) : N * N :=
  match fuel with
  | O => (0, v)
  | S f =>
      if N.testbit v 7
      then let '(k, r) := ones_go f ((2 * v) mod 256) in (k + 1, r)
      else (0, v)
  end.

Fixpoint simpleMaskLength (mask : IPMask) : option N :=
  match mask with
  | [] => Some 0
  | v :: rest =>
      if decide (v = Byte.xff) then n ← simpleMaskLength rest; Some (n + 8)
      else
        let '(k, r) := ones_go 8 (Byte.to_N v) in
        if negb (r =? 0) then None
        else if forallb (λ b, bool_decide (b = Byte.x00)) rest then Some k
        else None
  end.

(** *** Printing *)

Definition hexString (b : list byte) : string :=
  foldr (λ c s, String (hexDigit (Byte.to_N c / 16))
                  (String (hexDigit (Byte.to_N c mod 16)) s)) "" b.

(** [appendDecimal]: a uint8 in decimal. *)
Definition appendDecimal (x : N) : string :=
  (if 100 <=? x then String (hexDigit (x / 100)) "" else "")
  +:+ (if 10 <=? x then String (hexDigit (x / 10 mod 10)) "" else "")
  +:+ String (hexDigit (x mod 10)) "".

(** [appendHex]: a uint16 in hexadecimal, without leading zeros. *)
Definition appendHex (x : N) : string :=
  (if 4096 <=? x then String (hexDigit (x / 4096)) "" else "")
  +:+ (if 256 <=? x then String (hexDigit (x / 256 mod 16)) "" else "")
  +:+ (if 16 <=? x then String (hexDigit (x / 16 mod 16)) "" else "")
  +:+ String (hexDigit (x mod 16)) "".

(** [uitoa]: an unsigned integer in decimal. *)
Fixpoint uitoa_go (fuel : nat) (n : N) (acc : string) : string :=
  match fuel with
  | O => acc
  | S f =>
      let acc := String (hexDigit (n mod 10)) acc in
      if n <? 10 then acc else uitoa_go f (n / 10) acc
  end.

Definition uitoa (n : N) : string := uitoa_go (S (N.to_nat (N.log2 n))) n "".

(** The eight 16-bit groups of a 16-byte address ([ip.v6u16(i)]). *)
Fixpoint groups (ip : list byte) : list N :=
  match ip with
  | hi :: lo :: rest => (Byte.to_N hi * 256 + Byte.to_N lo) :: groups rest
  | _ => []
  end.

Definition ungroups (gs : list N) : list byte :=
  flat_map (λ g, [byte_of_N (g / 256); byte_of_N g]) gs.

(** Length of the run of zero groups at the head of [gs]. *)
Fixpoint zero_run (gs : list N) : nat :=
  match gs with
  | 0 :: r => S (zero_run r)
  | _ => O
  end.

(** The outer loop of [appendTo6] that looks for the longest run of zero
    groups: [best] is [(zeroStart, zeroEnd)], [i] the current index.  Only a
    run of at least two groups that is strictly longer replaces [best]. *)
Fixpoint longest_zero_run (i : nat) (gs : list N)
    (best : option (nat * nat)) : option (nat * nat) :=
  match gs with
  | [] => best
  | _ :: r =>
      let l := zero_run gs in
      let best' :=
        if bool_decide (2 ≤ l)%nat
           && match best with
              | None => true
              | Some (s, e) => bool_decide (e - s < l)%nat
              end
        then Some (i, (i + l)%nat) else best in
      longest_zero_run (S i) r best'
  end.

Definition hexGroups (gs : list N) : string := join ":" (appendHex <$> gs).

(** [Addr.string6] for an address without a zone. *)
Definition string6 (ip : list byte) : string :=
  let gs := groups ip in
  match longest_zero_run 0 gs None with
  | None => hexGroups gs
  | Some (s, e) => hexGroups (take s gs) +:+ "::" +:+ hexGroups (drop e gs)
  end.

Definition string4 (p : list byte) : string :=
  join "." ((λ b, appendDecimal (Byte.to_N b)) <$> p).

(** [ip.String()] *)
Definition IP_String (ip : IP) : string :=
  if decide (length ip = 0%nat) then "<nil>"
  else if decide (length ip ≠ IPv4len ∧ length ip ≠ IPv6len)
       then "?" +:+ hexString ip
  else if decide (length (To4 ip) = IPv4len) then string4 (To4 ip)
  else string6 ip.

(** [m.String()] of an IPMask. *)
Definition IPMask_String (m : IPMask) : string :=
  if decide (length m = 0%nat) then "<nil>" else hexString m.

Definition networkNumberAndMask (n : IPNet) : option (IP * IPMask) :=
  let ip4 := To4 (IP_ n) in
  ip ← (if decide (ip4 = []) then
          (if decide (length (IP_ n) = IPv6len) then Some (IP_ n) else None)
        else Some ip4);
  let m := Mask_ n in
  if decide (length m = IPv4len) then
    (if decide (length ip = IPv4len) then Some (ip, m) else None)
  else if decide (length m = IPv6len) then
    (if decide (length ip = IPv4len) then Some (ip, drop 12 m)
     else Some (ip, m))
  else None.

(** [n.String()] of a non-nil [*IPNet]. *)
Definition IPNet_String (n : IPNet) : string :=
  match networkNumberAndMask n with
  | None => "<nil>"
  | Some (nn, m) =>
      match simpleMaskLength m with
      | None => IP_String nn +:+ "/" +:+ IPMask_String m
      | Some l => IP_String nn +:+ "/" +:+ uitoa l
      end
  end.

(** [a.String()] of a HardwareAddr. *)
Definition HardwareAddr_String (a : HardwareAddr) : string :=
  join ":" ((λ b, hexString [b]) <$> a).

(** *** Parsing *)

(** [dtoi]: decimal to integer; the value and the rest of the string. *)
Fixpoint dtoi_go (s : string) (i : nat) (n : N) : option (N * nat * string) :=
  match s with
  | String c r =>
      match decval c with
      | Some d =>
          let n := n * 10 + d in
          if big <=? n then None else dtoi_go r (S i) n
      | None => if decide (i = O) then None else Some (n, i, s)
      end
  | EmptyString => if decide (i = O) then None else Some (n, i, s)
  end.

Definition dtoi (s : string) : option (N * nat * string) := dtoi_go s O 0.

(** [xtoi]: hexadecimal to integer. *)
Fixpoint xtoi_go (s : string) (i : nat) (n : N) : option (N * nat * string) :=
  match s with
  | String c r =>
      match hexval c with
      | Some d =>
          let n := n * 16 + d in
          if big <=? n then None else xtoi_go r (S i) n
      | None => if decide (i = O) then None else Some (n, i, s)
      end
  | EmptyString => if decide (i = O) then None else Some (n, i, s)
  end.

Definition xtoi (s : string) : option (N * nat * string) := xtoi_go s O 0.

(** [xtoi2]: two hexadecimal digits, followed by [e] when anything follows
    ([len(s) > 2 && s[2] != e] fails). *)
Definition xtoi2 (s : string) (e : ascii) : option byte :=
  let two :=
    '(n, i, _) ← xtoi (stake 2 s);
    if decide (i = 2%nat) then Some (byte_of_N n) else None in
  match sdrop 2 s with
  | String c _ => if decide (c = e) then two else None
  | EmptyString => two
  end.

Fixpoint mac3 (n : nat) (s : string) (sep : ascii) : option (list byte) :=
  match n with
  | O => Some []
  | S n' =>
      b ← xtoi2 s sep;
      hw ← mac3 n' (sdrop 3 s) sep;
      Some (b :: hw)
  end.

Fixpoint mac5 (n : nat) (s : string) (sep : ascii) : option (list byte) :=
  match n with
  | O => Some []
  | S n' =>
      b1 ← xtoi2 (stake 2 s) Ascii.zero;
      b2 ← xtoi2 (sdrop 2 s) sep;
      hw ← mac5 n' (sdrop 5 s) sep;
      Some (b1 :: b2 :: hw)
  end.

(** [ParseMAC]: the colon or hyphen separated form of 6, 8 or 20 octets, or
    the dotted form of as many. *)
Definition ParseMAC (s : string) : option HardwareAddr :=
  let len := String.length s in
  if bool_decide (len < 14)%nat then None
  else if bool_decide (sget 2 s = ":"%char) || bool_decide (sget 2 s = "-"%char)
  then
    if negb (bool_decide ((len + 1) `mod` 3 = 0)%nat) then None
    else
      let n := ((len + 1) `div` 3)%nat in
      if negb (bool_decide (n = 6 ∨ n = 8 ∨ n = 20)%nat) then None
      else mac3 n s (sget 2 s)
  else if bool_decide (sget 4 s = "."%char)
  then
    if negb (bool_decide ((len + 1) `mod` 5 = 0)%nat) then None
    else
      let n := (2 * (len + 1) `div` 5)%nat in
      if negb (bool_decide (n = 6 ∨ n = 8 ∨ n = 20)%nat) then None
      else mac5 (n `div` 2)%nat s (sget 4 s)
  else None.

(** [netip.parseIPv4Fields]: four decimal octets without leading zeros. *)
Fixpoint parseIPv4Fields (s : string) (val : N) (digLen : nat)
    (fields : list byte) : option (list byte) :=
  match s with
  | EmptyString =>
      if bool_decide (length fields < 3)%nat then None
      else Some (fields ++ [byte_of_N val])
  | String c r =>
      match decval c with
      | Some d =>
          if bool_decide (digLen = 1%nat) && (val =? 0) then None
          else
            let val := val * 10 + d in
            if 255 <? val then None
            else parseIPv4Fields r val (S digLen) fields
      | None =>
          if decide (c = "."%char) then
            if bool_decide (digLen = O) || bool_decide (r = "") then None
            else if bool_decide (length fields = 3%nat) then None
            else parseIPv4Fields r 0 O (fields ++ [byte_of_N val])
          else None
      end
  end.

Definition parseIPv4 (s : string) : option (list byte) :=
  parseIPv4Fields s 0 O [].

(** One hexadecimal group of [netip.parseIPv6]: at most four digits. *)
Fixpoint hexGroup_go (s : string) (off : nat) (acc : N) : option (N * string) :=
  match s with
  | String c r =>
      match hexval c with
      | Some d =>
          if bool_decide (3 < off)%nat then None
          else
            let acc := acc * 16 + d in
            if 65535 <? acc then None else hexGroup_go r (S off) acc
      | None => if decide (off = O) then None else Some (acc, s)
      end
  | EmptyString => if decide (off = O) then None else Some (acc, s)
  end.

Definition hexGroup (s : string) : option (N * string) := hexGroup_go s O 0.

(** The loop and the ellipsis expansion of [parseIPv6], shared by the netip
    parser and by the older parser that [ParseIPSloppy] keeps: [scan] reads
    one hexadecimal group, [parse4] a trailing dotted quad. *)
Section parseIPv6.
Variable scan : string → option (N * string).
Variable parse4 : string → option (list byte).

Fixpoint parseIPv6_loop (fuel : nat) (ip : list byte)
    (ellipsis : option nat) (s : string) : option (list byte * option nat) :=
  match fuel with
  | O => if decide (s = "") then Some (ip, ellipsis) else None
  | S fuel =>
      '(v, rest) ← scan s;
      if bool_decide (stake 1 rest = ".") then
        if bool_decide (ellipsis = None) && negb (bool_decide (length ip = 12%nat))
        then None
        else if bool_decide (16 < length ip + 4)%nat then None
        else p ← parse4 s; Some (ip ++ p, ellipsis)
      else
        let ip := ip ++ [byte_of_N (v / 256); byte_of_N v] in
        match rest with
        | EmptyString => Some (ip, ellipsis)
        | String c r =>
            if negb (bool_decide (c = ":"%char)) || bool_decide (r = "")
            then None
            else if bool_decide (stake 1 r = ":") then
              if bool_decide (ellipsis ≠ None) then None
              else if decide (sdrop 1 r = "") then Some (ip, Some (length ip))
              else parseIPv6_loop fuel ip (Some (length ip)) (sdrop 1 r)
            else parseIPv6_loop fuel ip ellipsis r
        end
  end.

Definition expand (r : list byte * option nat) : option (list byte) :=
  let '(ip, ellipsis) := r in
  if bool_decide (length ip < 16)%nat then
    e ← ellipsis;
    Some (take e ip ++ replicate (16 - length ip) Byte.x00 ++ drop e ip)
  else if bool_decide (ellipsis ≠ None) then None
  else Some ip.

Definition parseIPv6_with (s : string) : option (list byte) :=
  if bool_decide (stake 2 s = "::") then
    let s := sdrop 2 s in
    if decide (s = "") then Some (replicate 16 Byte.x00)
    else parseIPv6_loop 8 [] (Some O) s ≫= expand
  else parseIPv6_loop 8 [] None s ≫= expand.
End parseIPv6.

Definition parseIPv6 : string → option (list byte) :=
  parseIPv6_with hexGroup parseIPv4.

(** A [netip.Addr] without zone: [ParseIP] and [ParseCIDR] reject zones, and
    no address text with a ['%'] parses here. *)
Inductive Addr := Addr4 (b : list byte) | Addr6 (b : list byte).

Definition As16 (a : Addr) : IP :=
  match a with
  | Addr4 b => v4InV6Prefix ++ b
  | Addr6 b => b
  end.

Definition BitLen (a : Addr) : N :=
  match a with Addr4 _ => 32 | Addr6 _ => 128 end.

(** The dispatch of [netip.ParseAddr] on the first of ['.'], [':'], ['%']. *)
Fixpoint ParseAddr_go (s whole : string) : option Addr :=
  match s with
  | EmptyString => None
  | String c r =>
      if decide (c = "."%char) then Addr4 <$> parseIPv4 whole
      else if decide (c = ":"%char) then Addr6 <$> parseIPv6 whole
      else if decide (c = "%"%char) then None
      else ParseAddr_go r whole
  end.

Definition ParseAddr (s : string) : option Addr := ParseAddr_go s s.

(** [ParseIP]: the 16-byte form of the address, or nil ([None]). *)
Definition ParseIP (s : string) : option IP := As16 <$> ParseAddr s.

(** [ParseCIDR]: the address, and the network it is in. *)
Definition ParseCIDR (s : string) : option (IP * IPNet) :=
  '(addr, mask) ← cut "/" s;
  ipAddr ← ParseAddr addr;
  '(n, _, rest) ← dtoi mask;
  if negb (bool_decide (rest = "")) then None
  else if BitLen ipAddr <? n then None
  else
    let m := CIDRMask n (BitLen ipAddr) in
    let addr16 := As16 ipAddr in
    Some (addr16, {| IP_ := Mask addr16 m; Mask_ := m |}).

End net.

(** ** Package k8s.io/utils/net *)
Module utilnet.

(** The parser of Go 1.16 that [ParseIPSloppy] keeps: leading zeros in a
    decimal octet and hexadecimal groups of any number of digits pass. *)
Fixpoint parseIPv4_go (i : nat) (s : string) (p : list byte) : option (list byte) :=
  match i with
  | O => if decide (s = "") then Some p else None
  | S i' =>
      if decide (s = "") then None
      else
        s ← (if decide (p = []) then Some s
             else if decide (stake 1 s = ".") then Some (sdrop 1 s) else None);
        '(n, _, rest) ← net.dtoi s;
        if 255 <? n then None
        else parseIPv4_go i' rest (p ++ [byte_of_N n])
  end.

Definition parseIPv4 (s : string) : option (list byte) :=
  parseIPv4_go 4 s [].

Definition hexGroup (s : string) : option (N * string) :=
  '(n, _, rest) ← net.xtoi s;
  if 65535 <? n then None else Some (n, rest).

Definition parseIPv6 : string → option (list byte) :=
  net.parseIPv6_with hexGroup parseIPv4.

Fixpoint ParseIP_go (s whole : string) : option net.IP :=
  match s with
  | EmptyString => None
  | String c r =>
      if decide (c = "."%char) then (net.v4InV6Prefix ++.) <$> parseIPv4 whole
      else if decide (c = ":"%char) then parseIPv6 whole
      else ParseIP_go r whole
  end.

Definition ParseIPSloppy (s : string) : option net.IP := ParseIP_go s s.

(** [IsIPv6]: not nil and not an IPv4 address. *)
Definition IsIPv6 (ip : net.IP) : bool :=
  negb (bool_decide (ip = [])) && bool_decide (net.To4 ip = []).

Definition IsIPv6CIDR (cidr : net.IPNet) : bool := IsIPv6 (net.IP_ cidr).

End utilnet.

(** ** Results and errors *)

Inductive result (E A : Type) : Type :=
  | Ok (a : A)
  | Err (e : E).
Arguments Ok {E A} a.
Arguments Err {E A} e.

Definition result_bind {E A B} (f : A → result E B) (r : result E A) : result E B :=
  match r with
  | Ok a => f a
  | Err e => Err e
  end.

#[global] Instance result_mbind {E} : MBind (result E) := @result_bind E.
#[global] Instance result_mret {E} : MRet (result E) := @Ok E.

(** A [for ... range] loop that appends one element per iteration and
    returns at the first error. *)
Fixpoint forM {E A B} (f : A → result E B) (l : list A) : result E (list B) :=
  match l with
  | [] => Ok []
  | x :: l' => y ← f x; ys ← forM f l'; Ok (y :: ys)
  end.

Definition is_Ok {E A} (r : result E A) : Prop := ∃ a, r = Ok a.
Definition is_Err {E A} (r : result E A) : Prop := ∃ e, r = Err e.

(** ** The wire record *)

(** [type podRoute struct] with its JSON names. *)
Record podRoute := {
  dest : string;     (* Dest    `json:"dest"` *)
  nextHop : string;  (* NextHop `json:"nextHop"` *)
}.

(** [type podAnnotation struct]; the fields carry their JSON names. *)
Record podAnnotation := {
  ip_addresses : list string;  (* IPs      `json:"ip_addresses"` *)
  mac_address : string;        (* MAC      `json:"mac_address"` *)
  gateway_ips : list string;   (* Gateways `json:"gateway_ips,omitempty"` *)
  routes : list podRoute;      (* Routes   `json:"routes,omitempty"` *)
  ip_address : string;         (* IP       `json:"ip_address,omitempty"` *)
  gateway_ip : string;         (* Gateway  `json:"gateway_ip,omitempty"` *)
}.

(** The zero value of the struct. *)
Definition podAnnotation_zero : podAnnotation :=
  {| ip_addresses := []; mac_address := ""; gateway_ips := []; routes := [];
     ip_address := ""; gateway_ip := "" |}.

(** ** Package encoding/json

    A string handed to or produced by encoding/json is represented by what
    the package's scanner makes of it: the JSON value it denotes, or
    [Invalid] when it is not JSON.  [Marshal] and [Unmarshal] are the
    encoder and the decoder for [map[string]podAnnotation], with the rules
    of the package for struct tags, [omitempty], [null], unknown keys, keys
    that differ in case and values of the wrong type. *)
Module json.

#[local] Unset Elimination Schemes.
Inductive value :=
  | Null
  | Bool (b : bool)
  | Number (lit : string)
  | Str (s : string)
  | Array (l : list value)
  | Object (members : list (string * value)).
#[local] Set Elimination Schemes.

Inductive text :=
  | Valid (v : value)
  | Invalid.

(** *** Encoder *)

Definition strings (l : list string) : value := Array (Str <$> l).

Definition marshal_podRoute (r : podRoute) : value :=
  Object [("dest", Str (dest r)); ("nextHop", Str (nextHop r))].

(** A member with [omitempty] is left out when [empty]. *)
Definition omitempty (empty : bool) (m : string * value) : list (string * value) :=
  if empty then [] else [m].

Definition marshal_podAnnotation (a : podAnnotation) : value :=
  Object (
    [("ip_addresses",
      if bool_decide (ip_addresses a = []) then Null else strings (ip_addresses a));
     ("mac_address", Str (mac_address a))]
    ++ omitempty (bool_decide (gateway_ips a = []))
         ("gateway_ips", strings (gateway_ips a))
    ++ omitempty (bool_decide (routes a = []))
         ("routes", Array (marshal_podRoute <$> routes a))
    ++ omitempty (bool_decide (ip_address a = ""))
         ("ip_address", Str (ip_address a))
    ++ omitempty (bool_decide (gateway_ip a = ""))
         ("gateway_ip", Str (gateway_ip a))).

(** [json.Marshal] of a [map[string]podAnnotation].  The package writes the
    keys in sorted order; the one map marshalled here has a single key.  No
    value of this type makes the encoder fail. *)
Definition Marshal (m : gmap string podAnnotation) : text :=
  Valid (Object (prod_map id marshal_podAnnotation <$> map_to_list m)).

(** Whether the object [v] has a member named [key]. *)
Definition has_member (key : string) (v : value) : bool :=
  match v with
  | Object members => existsb (λ m, bool_decide (m.1 = key)) members
  | _ => false
  end.

(** *** Decoder *)

(** Key folding: a key names a field when both are equal up to case.  Besides
    the ASCII letters, the Kelvin sign (E2 84 AA) folds to K and the long s
    (C5 BF) to S. *)
Fixpoint fold_name (s : string) : string :=
  match s with
  | EmptyString => ""
  | String c r =>
      let n := ord c in
      if (97 <=? n) && (n <=? 122) then String (chr (n - 32)) (fold_name r)
      else
        match n, r with
        | 197, String d r' =>
            if ord d =? 191 then String "S" (fold_name r')
            else String c (fold_name r)
        | 226, String d (String e r') =>
            if (ord d =? 132) && (ord e =? 170) then String "K" (fold_name r')
            else String c (fold_name r)
        | _, _ => String c (fold_name r)
        end
  end.

Definition names (field key : string) : bool :=
  bool_decide (fold_name key = fold_name field).

(** A JSON value into a Go [string]: [null] leaves the field as it is. *)
Definition unmarshal_string (cur : string) (v : value) : option string :=
  match v with
  | Null => Some cur
  | Str s => Some s
  | _ => None
  end.

(** A JSON value into a [[]string].  The elements are decoded into fresh
    strings.  For an object that repeats the member the package decodes
    into the elements of the list that it read before; the two differ only
    where the later array holds [null], and likewise for the routes. *)
Definition unmarshal_strings (v : value) : option (list string) :=
  match v with
  | Null => Some []
  | Array l => mapM (unmarshal_string "") l
  | _ => None
  end.

Definition unmarshal_member {A} (fields : A → string → value → option A)
    (acc : option A) (m : string * value) : option A :=
  a ← acc; fields a m.1 m.2.

Definition podRoute_field (r : podRoute) (key : string) (v : value) : option podRoute :=
  if names "dest" key then
    s ← unmarshal_string (dest r) v; Some {| dest := s; nextHop := nextHop r |}
  else if names "nextHop" key then
    s ← unmarshal_string (nextHop r) v; Some {| dest := dest r; nextHop := s |}
  else Some r.

Definition unmarshal_podRoute (v : value) : option podRoute :=
  let zero := {| dest := ""; nextHop := "" |} in
  match v with
  | Null => Some zero
  | Object members => foldl (unmarshal_member podRoute_field) (Some zero) members
  | _ => None
  end.

Definition unmarshal_podRoutes (v : value) : option (list podRoute) :=
  match v with
  | Null => Some []
  | Array l => mapM unmarshal_podRoute l
  | _ => None
  end.

Definition podAnnotation_field (a : podAnnotation) (key : string) (v : value)
    : option podAnnotation :=
  if names "ip_addresses" key then
    x ← unmarshal_strings v;
    Some {| ip_addresses := x; mac_address := mac_address a;
            gateway_ips := gateway_ips a; routes := routes a;
            ip_address := ip_address a; gateway_ip := gateway_ip a |}
  else if names "mac_address" key then
    x ← unmarshal_string (mac_address a) v;
    Some {| ip_addresses := ip_addresses a; mac_address := x;
            gateway_ips := gateway_ips a; routes := routes a;
            ip_address := ip_address a; gateway_ip := gateway_ip a |}
  else if names "gateway_ips" key then
    x ← unmarshal_strings v;
    Some {| ip_addresses := ip_addresses a; mac_address := mac_address a;
            gateway_ips := x; routes := routes a;
            ip_address := ip_address a; gateway_ip := gateway_ip a |}
  else if names "routes" key then
    x ← unmarshal_podRoutes v;
    Some {| ip_addresses := ip_addresses a; mac_address := mac_address a;
            gateway_ips := gateway_ips a; routes := x;
            ip_address := ip_address a; gateway_ip := gateway_ip a |}
  else if names "ip_address" key then
    x ← unmarshal_string (ip_address a) v;
    Some {| ip_addresses := ip_addresses a; mac_address := mac_address a;
            gateway_ips := gateway_ips a; routes := routes a;
            ip_address := x; gateway_ip := gateway_ip a |}
  else if names "gateway_ip" key then
    x ← unmarshal_string (gateway_ip a) v;
    Some {| ip_addresses := ip_addresses a; mac_address := mac_address a;
            gateway_ips := gateway_ips a; routes := routes a;
            ip_address := ip_address a; gateway_ip := x |}
  else Some a.

Definition unmarshal_podAnnotation (v : value) : option podAnnotation :=
  match v with
  | Null => Some podAnnotation_zero
  | Object members =>
      foldl (unmarshal_member podAnnotation_field) (Some podAnnotation_zero) members
  | _ => None
  end.

(** [json.Unmarshal] into a new [map[string]podAnnotation]: every member of
    the object is decoded into a zero struct and stored under its key, so a
    repeated key keeps the last one.  [None] is any error of the package. *)
Definition Unmarshal (t : text) : option (gmap string podAnnotation) :=
  match t with
  | Invalid => None
  | Valid Null => Some ∅
  | Valid (Object members) =>
      foldl (λ acc m, podNetworks ← acc;
                      a ← unmarshal_podAnnotation m.2;
                      Some (<[m.1 := a]> podNetworks))
            (Some ∅) members
  | Valid _ => None
  end.

End json.

(** ** pod_annotation.go *)

Definition OvnPodAnnotationName : string := "k8s.ovn.org/pod-networks".
Definition OvnPodDefaultNetwork : string := "default".

(** [type PodRoute struct].  [Dest] is a non-nil [*net.IPNet]; a nil
    [NextHop] is [None]. *)
Record PodRoute := {
  Dest : net.IPNet;
  NextHop : option net.IP;
}.

(** [type PodAnnotation struct].  The entries of [IPs] are non-nil. *)
Record PodAnnotation := {
  IPs : list net.IPNet;
  MAC : net.HardwareAddr;
  Gateways : list net.IP;
  Routes : list PodRoute;
}.

(** One constructor for each place that makes an error. *)
Inductive error :=
  | ErrSingleGateway
  | ErrDefaultRoute (r : PodRoute)
  | ErrAnnotationNotSet
  | ErrUnmarshal
  | ErrParseMAC (mac : string)
  | ErrNoIPs
  | ErrIPConflict
  | ErrParseIP (ipstr : string)
  | ErrGatewayConflict
  | ErrParseGateway (gwstr : string)
  | ErrParseRouteDest (dest : string)
  | ErrParseNextHop (nh : string)
  | ErrNextHopFamily (dest nh : string)
  | ErrNoPodIPFound (namespace name : string).

(** The format string of the error. *)
Definition format (e : error) : string :=
  match e with
  | ErrSingleGateway =>
      "bad podNetwork data: single-stack network can only have a single gateway"
  | ErrDefaultRoute _ =>
      "bad podNetwork data: default route %v should be specified as gateway"
  | ErrAnnotationNotSet => "could not find OVN pod annotation in %v"
  | ErrUnmarshal => "failed to unmarshal ovn pod annotation %q: %v"
  | ErrParseMAC _ => "failed to parse pod MAC %q: %v"
  | ErrNoIPs => "bad annotation data (neither ip_address nor ip_addresses is set)"
  | ErrIPConflict => "bad annotation data (ip_address and ip_addresses conflict)"
  | ErrParseIP _ => "failed to parse pod IP %q: %v"
  | ErrGatewayConflict => "bad annotation data (gateway_ip and gateway_ips conflict)"
  | ErrParseGateway _ => "failed to parse pod gateway %q"
  | ErrParseRouteDest _ => "failed to parse pod route dest %q: %v"
  | ErrParseNextHop _ => "failed to parse pod route next hop %q"
  | ErrNextHopFamily _ _ => "pod route %s has next hop %s of different family"
  | ErrNoPodIPFound _ _ => "pod %s/%s: %w "
  end.

(** The classes of errors: the annotation is not there, its value is not
    the wire format, its content is malformed or contradicts itself, and
    [ErrNoPodIPFound]. *)
Inductive kind := NotPresent | MalformedWireFormat | InvalidConfig | NoPodIPFound.

Definition kind_of (e : error) : kind :=
  match e with
  | ErrAnnotationNotSet => NotPresent
  | ErrUnmarshal => MalformedWireFormat
  | ErrNoPodIPFound _ _ => NoPodIPFound
  | _ => InvalidConfig
  end.

Abbreviation res := (result error).

(** The body of the loop over [podInfo.Routes]. *)
Definition marshalRoute (r : PodRoute) : res podRoute :=
  if net.IsUnspecified (net.IP_ (Dest r)) then Err (ErrDefaultRoute r)
  else
    let nh := match NextHop r with
              | Some ip => net.IP_String ip
              | None => ""
              end in
    Ok {| dest := net.IPNet_String (Dest r); nextHop := nh |}.

(** The wire record that [MarshalPodAnnotation] builds in [pa]. *)
Definition marshalWire (podInfo : PodAnnotation) : res podAnnotation :=
  let mac := net.HardwareAddr_String (MAC podInfo) in
  '(ip, gateway) ←
    match IPs podInfo with
    | [ip0] =>
        match Gateways podInfo with
        | [gw0] => Ok (net.IPNet_String ip0, net.IP_String gw0)
        | _ :: _ :: _ => Err ErrSingleGateway
        | [] => Ok (net.IPNet_String ip0, "")
        end
    | _ => Ok ("", "")
    end;
  let ips := net.IPNet_String <$> IPs podInfo in
  let gateways := net.IP_String <$> Gateways podInfo in
  rs ← forM marshalRoute (Routes podInfo);
  Ok {| ip_addresses := ips; mac_address := mac; gateway_ips := gateways;
        routes := rs; ip_address := ip; gateway_ip := gateway |}.

(** [MarshalPodAnnotation]: the annotation describing the pod's network
    details, a map with the one key [OvnPodAnnotationName]. *)
Definition MarshalPodAnnotation (podInfo : PodAnnotation)
    : res (gmap string json.text) :=
  pa ← marshalWire podInfo;
  let podNetworks : gmap string podAnnotation := {[ OvnPodDefaultNetwork := pa ]} in
  Ok {[ OvnPodAnnotationName := json.Marshal podNetworks ]}.

(** The body of the loop over [a.Routes]. *)
Definition unmarshalRoute (r : podRoute) : res PodRoute :=
  match net.ParseCIDR (dest r) with
  | None => Err (ErrParseRouteDest (dest r))
  | Some (_, routeDest) =>
      if net.IsUnspecified (net.IP_ routeDest)
      then Err (ErrDefaultRoute {| Dest := routeDest; NextHop := None |})
      else if decide (nextHop r ≠ "") then
        match net.ParseIP (nextHop r) with
        | None => Err (ErrParseNextHop (nextHop r))
        | Some nh =>
            if negb (bool_decide (utilnet.IsIPv6 nh = utilnet.IsIPv6CIDR routeDest))
            then Err (ErrNextHopFamily (dest r) (nextHop r))
            else Ok {| Dest := routeDest; NextHop := Some nh |}
        end
      else Ok {| Dest := routeDest; NextHop := None |}
  end.

(** [a.IPs] after the fallback to [a.IP] and the check against it. *)
Definition wireIPs (a : podAnnotation) : res (list string) :=
  match ip_addresses a with
  | [] => if decide (ip_address a = "") then Err ErrNoIPs
          else Ok [ip_address a]
  | ip0 :: _ =>
      if decide (ip_address a ≠ "" ∧ ip_address a ≠ ip0) then Err ErrIPConflict
      else Ok (ip_addresses a)
  end.

(** The body of the loop over [a.IPs]: the address of [ParseCIDR] with the
    mask of its network. *)
Definition unmarshalIP (ipstr : string) : res net.IPNet :=
  match net.ParseCIDR ipstr with
  | None => Err (ErrParseIP ipstr)
  | Some (ip, ipnet) => Ok {| net.IP_ := ip; net.Mask_ := net.Mask_ ipnet |}
  end.

(** [a.Gateways] after the fallback to [a.Gateway] and the check against
    it. *)
Definition wireGateways (a : podAnnotation) : res (list string) :=
  match gateway_ips a with
  | [] => if decide (gateway_ip a ≠ "") then Ok [gateway_ip a] else Ok []
  | gw0 :: _ =>
      if decide (gateway_ip a ≠ "" ∧ gateway_ip a ≠ gw0) then Err ErrGatewayConflict
      else Ok (gateway_ips a)
  end.

(** The body of the loop over [a.Gateways]. *)
Definition unmarshalGateway (gwstr : string) : res net.IP :=
  match net.ParseIP gwstr with
  | None => Err (ErrParseGateway gwstr)
  | Some gw => Ok gw
  end.

(** The part of [UnmarshalPodAnnotation] that follows the lookup of the
    default network: from the wire record [a] to the PodAnnotation. *)
Definition unmarshalWire (a : podAnnotation) : res PodAnnotation :=
  mac ← match net.ParseMAC (mac_address a) with
        | Some mac => Ok mac
        | None => Err (ErrParseMAC (mac_address a))
        end;
  aIPs ← wireIPs a;
  ips ← forM unmarshalIP aIPs;
  aGateways ← wireGateways a;
  gateways ← forM unmarshalGateway aGateways;
  rs ← forM unmarshalRoute (routes a);
  Ok {| IPs := ips; MAC := mac; Gateways := gateways; Routes := rs |}.

(** [UnmarshalPodAnnotation]: the default network info from
    [pod.Annotations]. *)
Definition UnmarshalPodAnnotation (annotations : gmap string json.text)
    : res PodAnnotation :=
  match annotations !! OvnPodAnnotationName with
  | None => Err ErrAnnotationNotSet
  | Some ovnAnnotation =>
      match json.Unmarshal ovnAnnotation with
      | None => Err ErrUnmarshal
      | Some podNetworks =>
          let tempA := default podAnnotation_zero (podNetworks !! OvnPodDefaultNetwork) in
          unmarshalWire tempA
      end
  end.

(** The fields of [v1.Pod] that [GetAllPodIPs] reads. *)
Record PodStatus := {
  PodIPs : list string;  (* Status.PodIPs[i].IP *)
  PodIP : string;
}.

Record Pod := {
  Namespace : string;
  Name : string;
  Annotations : gmap string json.text;
  Status : PodStatus;
}.

(** [GetAllPodIPs] *)
Definition GetAllPodIPs (pod : Pod) : res (list net.IP) :=
  let ips := omap utilnet.ParseIPSloppy (PodIPs (Status pod)) in
  if bool_decide (0 < length ips)%nat then Ok ips
  else
    let fallback :=
      match utilnet.ParseIPSloppy (PodIP (Status pod)) with
      | None => Err (ErrNoPodIPFound (Namespace pod) (Name pod))
      | Some ip => Ok [ip]
      end in
    match UnmarshalPodAnnotation (Annotations pod) with
    | Ok annotation =>
        let ips := net.IP_ <$> IPs annotation in
        if bool_decide (0 < length ips)%nat then Ok ips else fallback
    | Err _ => fallback
    end.

(** [GetPodCIDRsWithFullMask]: the pod's IP addresses, each in a CIDR with
    the full mask.  [GetIPFullMask] belongs to another file of the package,
    which is not among the sources at hand: it is a parameter.  An address
    whose text with the mask does not parse is skipped. *)
Definition GetPodCIDRsWithFullMask (GetIPFullMask : string → string) (pod : Pod)
    : res (list net.IPNet) :=
  match GetAllPodIPs pod with
  | Err err => Err err
  | Ok podIPs =>
      Ok (omap (λ podIP,
            let podIPStr := net.IP_String podIP in
            let mask := GetIPFullMask podIPStr in
            snd <$> net.ParseCIDR (podIPStr +:+ mask)) podIPs)
  end.

(** ** The node address reconciler *)
Module reconciler.

(** Modelled from the spec: the ExcludedAddressSet, the management-port
    interface addresses and the masquerade addresses of both families.  The
    address manager that holds them is not part of the sources at hand. *)
Record ExcludedAddressSet := {
  mgmtPortIP4 : option net.IPNet;
  mgmtPortIP6 : option net.IPNet;
  V4HostMasqueradeIP : net.IP;
  V6HostMasqueradeIP : net.IP;
}.

Definition excluded (cfg : ExcludedAddressSet) : list net.IP :=
  from_option (λ n, [net.IP_ n]) [] (mgmtPortIP4 cfg)
  ++ from_option (λ n, [net.IP_ n]) [] (mgmtPortIP6 cfg)
  ++ [V4HostMasqueradeIP cfg; V6HostMasqueradeIP cfg].

(** Modelled from the spec: the AddressFilter predicate IsPublishable, true
    unless the address equals, ignoring the prefix length, a management-port
    interface address or a masquerade address. *)
Definition IsPublishable (cfg : ExcludedAddressSet) (address : net.IPNet) : bool :=
  negb (existsb (net.Equal (net.IP_ address)) (excluded cfg)).

Inductive Phase := Unsubscribed | Subscribing | Subscribed | Resubscribing | Stopped.

(** Modelled from the spec: the reconciler's state.  [addrs] is the
    HostAddressSet, [annotation] the address set stored in the node
    annotation (address/prefix strings), [writes] the number of cluster-API
    writes that were issued. *)
Record State := {
  phase : Phase;
  addrs : gset string;
  annotation : gset string;
  writes : nat;
}.

(** What the reconciler's worker observes, one at a time and in order.  A
    resync carries the host addresses that the enumeration returns; [wrote]
    tells whether a cluster-API write, if one is issued, is applied. *)
Inductive Input :=
  | Start (host : list net.IPNet) (wrote : bool)
  | Subscribe (acquired : option (list net.IPNet)) (wrote : bool)
  | AddrUpdate (LinkAddress : net.IPNet) (NewAddr : bool) (wrote : bool)
  | ChannelClosed
  | Stop.

(** Modelled from the spec: the write of the full address set, issued only
    when the set differs from what is stored; a failed write leaves the
    annotation as it is, to be retried on the next trigger. *)
Definition publish (p : Phase) (set : gset string) (wrote : bool) (st : State) : State :=
  if decide (set = annotation st)
  then {| phase := p; addrs := set; annotation := annotation st;
          writes := writes st |}
  else {| phase := p; addrs := set;
          annotation := if wrote then set else annotation st;
          writes := S (writes st) |}.

(** Modelled from the spec: the full resync, the current host addresses
    that pass the AddressFilter. *)
Definition resync (cfg : ExcludedAddressSet) (host : list net.IPNet) : gset string :=
  list_to_set (net.IPNet_String <$> filter (λ a, IsPublishable cfg a = true) host).

(** Modelled from the spec: the state machine of section 4.3. *)
Definition step (cfg : ExcludedAddressSet) (st : State) (i : Input) : State :=
  match phase st, i with
  | Stopped, _ => st
  | _, Stop => {| phase := Stopped; addrs := addrs st;
                  annotation := annotation st; writes := writes st |}
  | Unsubscribed, Start host wrote =>
      publish Subscribing (resync cfg host) wrote st
  | (Subscribing | Resubscribing), Subscribe (Some host) wrote =>
      publish Subscribed (resync cfg host) wrote st
  | (Subscribing | Resubscribing), Subscribe None _ =>
      {| phase := Resubscribing; addrs := addrs st;
         annotation := annotation st; writes := writes st |}
  | Subscribed, AddrUpdate a NewAddr wrote =>
      if IsPublishable cfg a then
        let key := net.IPNet_String a in
        publish Subscribed
          (if NewAddr then addrs st ∪ {[ key ]} else addrs st ∖ {[ key ]})
          wrote st
      else st
  | Subscribed, ChannelClosed =>
      {| phase := Resubscribing; addrs := addrs st;
         annotation := annotation st; writes := writes st |}
  | _, _ => st
  end.

Definition run (cfg : ExcludedAddressSet) (st : State) (l : list Input) : State :=
  foldl (step cfg) st l.

Definition init : State :=
  {| phase := Unsubscribed; addrs := ∅; annotation := ∅; writes := 0 |}.

(** Modelled from the spec: the states that the worker is in after each
    input of a list, in the order of the inputs. *)
Fixpoint states (cfg : ExcludedAddressSet) (st : State) (l : list Input)
    : list State :=
  match l with
  | [] => []
  | i :: l' => step cfg st i :: states cfg (step cfg st i) l'
  end.

(** Modelled from the spec: an address-change event as the channel
    delivers it, with whether the cluster-API write that it may cause is
    applied. *)
Record Event := {
  address : net.IPNet;
  isAdd : bool;
  written : bool;
}.

Definition deliver (e : Event) : Input :=
  AddrUpdate (address e) (isAdd e) (written e).

(** Modelled from the spec: how the worker's wait on the channel of a
    subscription ends, once the events were delivered: the channel closes,
    the stop signal fires, or neither happens and the worker waits on. *)
Inductive Ending := ChannelCloses | StopFires | StaysOpen.

(** Modelled from the spec: what a call of the subscribe function, which
    the reconciler takes as a parameter, comes back with: no subscription;
    a subscription, with the host addresses that the resync which follows
    enumerates, whether the write of that resync is applied, the events
    that the channel delivers, in order, and how the wait on it ends; or
    the stop signal, which is observed while waiting for a subscription. *)
Inductive Answer :=
  | NoSubscription
  | Acquired (host : list net.IPNet) (wrote : bool)
      (events : list Event) (ending : Ending)
  | StopFired.

(** Modelled from the spec: the worker of section 4.3 from the state
    Subscribing or Resubscribing on.  It calls the subscribe function, and
    calls it again while no subscription is acquired; with a subscription
    it resyncs and processes the events of the channel; when the channel
    closes it goes to Resubscribing and calls the subscribe function
    again.  [calls] counts the calls, the answer to a call depends on its
    number, and [fuel] bounds the number of calls that are followed.  The
    result is the states the worker goes through, in order, and the number
    of calls it has made. *)
Fixpoint worker (cfg : ExcludedAddressSet) (subscribe : nat → Answer)
    (fuel calls : nat) (st : State) : list State * nat :=
  match fuel with
  | O => ([], calls)
  | S fuel' =>
      match phase st with
      | Subscribing | Resubscribing =>
          match subscribe calls with
          | NoSubscription =>
              let st' := step cfg st (Subscribe None false) in
              let '(h, c) := worker cfg subscribe fuel' (S calls) st' in
              (st' :: h, c)
          | Acquired host wrote events ending =>
              let st1 := step cfg st (Subscribe (Some host) wrote) in
              let h := states cfg st1 (deliver <$> events) in
              let st2 := run cfg st1 (deliver <$> events) in
              match ending with
              | ChannelCloses =>
                  let st3 := step cfg st2 ChannelClosed in
                  let '(h', c) := worker cfg subscribe fuel' (S calls) st3 in
                  (st1 :: h ++ st3 :: h', c)
              | StopFires => (st1 :: h ++ [step cfg st2 Stop], S calls)
              | StaysOpen => (st1 :: h, S calls)
              end
          | StopFired => ([step cfg st Stop], S calls)
          end
      | _ => ([], calls)
      end
  end.

End reconciler.

Local Close Scope N_scope.

(** ** Definitions used to state the properties *)

Definition single_stack_many_gateways (pa : PodAnnotation) : Prop :=
  length (IPs pa) = 1 ∧ 1 < length (Gateways pa).

Definition default_route (r : PodRoute) : Prop :=
  net.IsUnspecified (net.IP_ (Dest r)) = true.

#[global] Instance single_stack_many_gateways_dec pa :
  Decision (single_stack_many_gateways pa) :=
  decide (length (IPs pa) = 1 ∧ 1 < length (Gateways pa)).

#[global] Instance default_route_dec r : Decision (default_route r) :=
  decide (net.IsUnspecified (net.IP_ (Dest r)) = true).

(** The wire record when no check fires. *)
Definition wire_of (pa : PodAnnotation) : podAnnotation :=
  {| ip_addresses := net.IPNet_String <$> IPs pa;
     mac_address := net.HardwareAddr_String (MAC pa);
     gateway_ips := net.IP_String <$> Gateways pa;
     routes := (λ r, {| dest := net.IPNet_String (Dest r);
                        nextHop := from_option net.IP_String "" (NextHop r) |})
               <$> Routes pa;
     ip_address := match IPs pa with
                   | [ip0] => net.IPNet_String ip0
                   | _ => ""
                   end;
     gateway_ip := match IPs pa, Gateways pa with
                   | [_], [gw0] => net.IP_String gw0
                   | _, _ => ""
                   end |}.

(** The wire record that the annotations carry for the default network: the
    annotation is set, its value decodes, and [a] is the entry of the default
    network, or the zero record when there is none. *)
Definition carries (annotations : gmap string json.text) (a : podAnnotation) : Prop :=
  ∃ ovnAnnotation podNetworks,
    annotations !! OvnPodAnnotationName = Some ovnAnnotation
    ∧ json.Unmarshal ovnAnnotation = Some podNetworks
    ∧ default podAnnotation_zero (podNetworks !! OvnPodDefaultNetwork) = a.

Definition set_routes (a : podAnnotation) (rs : list podRoute) : podAnnotation :=
  {| ip_addresses := ip_addresses a; mac_address := mac_address a;
     gateway_ips := gateway_ips a; routes := rs;
     ip_address := ip_address a; gateway_ip := gateway_ip a |}.

Definition set_Routes (pa : PodAnnotation) (rs : list PodRoute) : PodAnnotation :=
  {| IPs := IPs pa; MAC := MAC pa; Gateways := Gateways pa; Routes := rs |}.

(** Both forms of the field are present and differ. *)
Definition ip_conflict (a : podAnnotation) : Prop :=
  ∃ ip0 rest, ip_addresses a = ip0 :: rest
    ∧ ip_address a ≠ "" ∧ ip_address a ≠ ip0.

Definition gateway_conflict (a : podAnnotation) : Prop :=
  ∃ gw0 rest, gateway_ips a = gw0 :: rest
    ∧ gateway_ip a ≠ "" ∧ gateway_ip a ≠ gw0.

Fixpoint N_range (k : nat) (start : N) : list N :=
  match k with
  | O => []
  | S k' => start :: N_range k' (N.succ start)
  end.

Fixpoint all_chars (P : ascii → bool) (s : string) : bool :=
  match s with
  | EmptyString => true
  | String c r => P c && all_chars P r
  end.

Definition is_hex (c : ascii) : bool :=
  match hexval c with Some _ => true | None => false end.

(** The next character, if any, is not a hexadecimal digit. *)
Definition hex_ends (rest : string) : Prop :=
  match rest with
  | String c _ => is_hex c = false
  | EmptyString => True
  end.

(** The text starts with a hexadecimal digit. *)
Definition starts_hex (s : string) : Prop :=
  match s with
  | String c _ => is_hex c = true
  | EmptyString => False
  end.

Abbreviation loop6 := (net.parseIPv6_loop net.hexGroup net.parseIPv4).

(** A run found by the printer: the groups from [s] up to [e] are zero. *)
Definition zero_groups (gs : list N) (best : option (nat * nat)) : Prop :=
  match best with
  | None => True
  | Some (s, e) =>
      s < e ∧ e ≤ length gs
      ∧ take (e - s) (drop s gs) = replicate (e - s) 0%N
  end.

Definition is_addr_char (c : ascii) : bool :=
  is_hex c || bool_decide (c = ":"%char) || bool_decide (c = "."%char).

(** Prefix lengths and masks. *)
Definition prefix_ok (ones : N) : bool :=
  match net.dtoi (net.uitoa ones) with
  | Some (n, _, EmptyString) => N.eqb n ones
  | _ => false
  end
  && (if (ones <=? 32)%N
      then bool_decide (net.simpleMaskLength (net.CIDRMask ones 32) = Some ones)
           && bool_decide (length (net.CIDRMask ones 32) = 4)
      else true)
  && bool_decide (net.simpleMaskLength (net.CIDRMask ones 128) = Some ones)
  && bool_decide (length (net.CIDRMask ones 128) = 16).

(** The width of the masks of the family of [ip]. *)
Definition bits_of (ip : net.IP) : N :=
  if decide (net.To4 ip = []) then 128%N else 32%N.

(** [m] is [CIDRMask(ones, bits)] for a prefix length [ones]. *)
Definition cidr_mask (m : net.IPMask) (bits : N) : Prop :=
  ∃ ones, (ones ≤ bits)%N ∧ m = net.CIDRMask ones bits.

(** An address with its prefix as the decoder builds it from [ParseCIDR]:
    the 16-byte address and the mask of the parsed network. *)
Definition parsed_address (n : net.IPNet) : Prop :=
  length (net.IP_ n) = 16 ∧ cidr_mask (net.Mask_ n) (bits_of (net.IP_ n)).

(** A network as [ParseCIDR] returns it: the 4-byte form for IPv4, the
    16-byte form for IPv6, no bit set outside the mask. *)
Definition parsed_network (n : net.IPNet) : Prop :=
  (length (net.IP_ n) = 4 ∨ (length (net.IP_ n) = 16 ∧ net.To4 (net.IP_ n) = []))
  ∧ cidr_mask (net.Mask_ n) (bits_of (net.IP_ n))
  ∧ net.Mask (net.IP_ n) (net.Mask_ n) = net.IP_ n.

Definition parsed_route (r : PodRoute) : Prop :=
  parsed_network (Dest r)
  ∧ ¬ default_route r
  ∧ match NextHop r with
    | None => True
    | Some nh => length nh = 16
                 ∧ utilnet.IsIPv6 nh = utilnet.IsIPv6CIDR (Dest r)
    end.

(** A PodAnnotation in the form the decoder produces, with the conditions
    under which the encoder accepts it. *)
Definition parsed (pa : PodAnnotation) : Prop :=
  IPs pa ≠ []
  ∧ Forall parsed_address (IPs pa)
  ∧ (length (MAC pa) = 6 ∨ length (MAC pa) = 8 ∨ length (MAC pa) = 20)
  ∧ Forall (λ gw, length gw = 16) (Gateways pa)
  ∧ Forall parsed_route (Routes pa)
  ∧ ¬ single_stack_many_gateways pa.

Definition ip4 (a b c d : N) : net.IP :=
  net.IPv4 (byte_of_N a) (byte_of_N b) (byte_of_N c) (byte_of_N d).

(** 0a:58:fd:98:00:01 *)
Definition ex_mac : net.HardwareAddr :=
  [Byte.x0a; Byte.x58; Byte.xfd; Byte.x98; Byte.x00; Byte.x01].

(** 192.168.0.5/24 *)
Definition ex_ip : net.IPNet :=
  {| net.IP_ := ip4 192 168 0 5; net.Mask_ := net.CIDRMask 24 32 |}.

(** fd01::5/64 *)
Definition ex_ip6 : net.IPNet :=
  {| net.IP_ := [Byte.xfd; Byte.x01] ++ replicate 13 Byte.x00 ++ [Byte.x05];
     net.Mask_ := net.CIDRMask 64 128 |}.

(** fd01::1 *)
Definition ex_gw6 : net.IP :=
  [Byte.xfd; Byte.x01] ++ replicate 13 Byte.x00 ++ [Byte.x01].

(** The network 0.0.0.0/0. *)
Definition ex_default_net : net.IPNet :=
  {| net.IP_ := [Byte.x00; Byte.x00; Byte.x00; Byte.x00];
     net.Mask_ := net.CIDRMask 0 32 |}.

(** One IP, one gateway, no route: the default route is a gateway. *)
Definition ex_gateway : PodAnnotation :=
  {| IPs := [ex_ip]; MAC := ex_mac; Gateways := [ip4 192 168 0 1]; Routes := [] |}.

(** The same with the default route as a route to 0.0.0.0/0. *)
Definition ex_default_route : PodAnnotation :=
  {| IPs := [ex_ip]; MAC := ex_mac; Gateways := [];
     Routes := [{| Dest := ex_default_net; NextHop := Some (ip4 192 168 0 1) |}] |}.

(** One IP with two gateways and a default route. *)
Definition ex_two_gateways : PodAnnotation :=
  {| IPs := [ex_ip]; MAC := ex_mac;
     Gateways := [ip4 192 168 0 1; ip4 192 168 0 2];
     Routes := [{| Dest := ex_default_net; NextHop := None |}] |}.

(** Dual stack: two IPs and a single gateway. *)
Definition ex_dual_one_gateway : PodAnnotation :=
  {| IPs := [ex_ip; ex_ip6]; MAC := ex_mac; Gateways := [ip4 192 168 0 1];
     Routes := [] |}.

(** Dual stack with two gateways and a route of each family. *)
Definition ex_dual : PodAnnotation :=
  {| IPs := [ex_ip; ex_ip6]; MAC := ex_mac;
     Gateways := [ip4 192 168 0 1; ex_gw6];
     Routes :=
       [{| Dest := {| net.IP_ := [byte_of_N 10; byte_of_N 1; Byte.x00; Byte.x00];
                      net.Mask_ := net.CIDRMask 16 32 |};
           NextHop := Some (ip4 192 168 0 1) |};
        {| Dest := {| net.IP_ := [Byte.xfd; Byte.x02] ++ replicate 14 Byte.x00;
                      net.Mask_ := net.CIDRMask 48 128 |};
           NextHop := None |}] |}.

(** No IP at all, three gateways. *)
Definition ex_no_ip : PodAnnotation :=
  {| IPs := []; MAC := ex_mac;
     Gateways := [ip4 192 168 0 1; ip4 192 168 0 2; ex_gw6]; Routes := [] |}.

(** A route to 10.1.2.3/16: the destination has bits outside its mask. *)
Definition ex_host_route : PodAnnotation :=
  {| IPs := [ex_ip]; MAC := ex_mac; Gateways := [];
     Routes :=
       [{| Dest := {| net.IP_ := [byte_of_N 10; byte_of_N 1; byte_of_N 2; byte_of_N 3];
                      net.Mask_ := net.CIDRMask 16 32 |};
           NextHop := None |}] |}.

(** The conditions on a PodAnnotation that the round-trip property names:
    at least one IP, a MAC that parses back, no route to the unspecified
    address, next hops of the family of their destination, and no more than
    one gateway for a single IP. *)
Definition named_valid (pa : PodAnnotation) : Prop :=
  IPs pa ≠ []
  ∧ net.ParseMAC (net.HardwareAddr_String (MAC pa)) = Some (MAC pa)
  ∧ Forall (λ r, ¬ default_route r) (Routes pa)
  ∧ Forall (λ r, match NextHop r with
                 | None => True
                 | Some nh => utilnet.IsIPv6 nh = utilnet.IsIPv6CIDR (Dest r)
                 end) (Routes pa)
  ∧ ¬ single_stack_many_gateways pa.

(** A wire record with [ip_address] 10.0.0.1/24 and [ip_addresses]
    10.0.0.2/24. *)
Definition ex_conflict : json.value :=
  json.Object
    [("default",
      json.Object
        [("ip_addresses", json.Array [json.Str "10.0.0.2/24"]);
         ("mac_address", json.Str "0a:58:fd:98:00:01");
         ("ip_address", json.Str "10.0.0.1/24")])].

(** An annotation with another network only. *)
Definition ex_no_default : json.value :=
  json.Object
    [("other",
      json.Object
        [("ip_addresses", json.Array [json.Str "10.0.0.2/24"]);
         ("mac_address", json.Str "0a:58:fd:98:00:01")])].

(** A wire record with one route, to [dest] via [nextHop]. *)
Definition ex_route (dest nextHop : string) : json.value :=
  json.Object
    [("default",
      json.Object
        [("ip_addresses", json.Array [json.Str "192.168.0.5/24"]);
         ("mac_address", json.Str "0a:58:fd:98:00:01");
         ("routes",
          json.Array [json.Object [("dest", json.Str dest);
                                   ("nextHop", json.Str nextHop)]])])].

Definition annotated (v : json.value) : gmap string json.text :=
  {[ OvnPodAnnotationName := json.Valid v ]}.

(** A pod with a status address and a valid annotation for another one. *)
Definition ex_pod : Pod :=
  {| Namespace := "ns"; Name := "pod";
     Annotations :=
       annotated (json.Object
         [("default",
           json.Object
             [("ip_addresses", json.Array [json.Str "192.168.0.5/24"]);
              ("mac_address", json.Str "0a:58:fd:98:00:01")])]);
     Status := {| PodIPs := ["10.0.0.5"]; PodIP := "10.0.0.9" |} |}.

(** The management port has 10.1.1.2/24 and 2001:db8::1/64, the masquerade
    addresses are 169.254.169.2 and fd69::2. *)
Definition ex_excluded : reconciler.ExcludedAddressSet :=
  {| reconciler.mgmtPortIP4 :=
       Some {| net.IP_ := ip4 10 1 1 2; net.Mask_ := net.CIDRMask 24 32 |};
     reconciler.mgmtPortIP6 :=
       Some {| net.IP_ := [Byte.x20; Byte.x01; Byte.x0d; Byte.xb8]
                          ++ replicate 11 Byte.x00 ++ [Byte.x01];
               net.Mask_ := net.CIDRMask 64 128 |};
     reconciler.V4HostMasqueradeIP := ip4 169 254 169 2;
     reconciler.V6HostMasqueradeIP :=
       [Byte.xfd; Byte.x69] ++ replicate 13 Byte.x00 ++ [Byte.x02] |}.

(** The reconciler subscribed, with 10.1.1.10/24 published. *)
Definition ex_subscribed : reconciler.State :=
  {| reconciler.phase := reconciler.Subscribed;
     reconciler.addrs := {[ "10.1.1.10/24" ]};
     reconciler.annotation := {[ "10.1.1.10/24" ]};
     reconciler.writes := 1 |}.

(** The bytes of a parsed address: four or sixteen. *)
Definition addr_ok (addr : net.Addr) : Prop :=
  match addr with
  | net.Addr4 b => length b = 4
  | net.Addr6 b => length b = 16
  end.

(** A 16-byte mask on an IPv4 address prints as the prefix length of its
    last four bytes. *)
Definition prefix128_ok (ones : N) : bool :=
  match net.simpleMaskLength (drop 12 (net.CIDRMask ones 128)) with
  | Some l => (l <=? 32)%N
  | None => false
  end.

(** The wire record with the plural fields only: what a reader of
    [ip_addresses] and [gateway_ips] sees once the singular fields are
    folded in. *)
Definition plural_only (a : podAnnotation) : podAnnotation :=
  {| ip_addresses := match ip_addresses a with
                     | [] => if decide (ip_address a = "") then [] else [ip_address a]
                     | _ => ip_addresses a
                     end;
     mac_address := mac_address a;
     gateway_ips := match gateway_ips a with
                    | [] => if decide (gateway_ip a = "") then [] else [gateway_ip a]
                    | _ => gateway_ips a
                    end;
     routes := routes a;
     ip_address := "";
     gateway_ip := "" |}.

(** What the decoder returns for an address: sixteen bytes, with a 4-byte
    prefix mask when the text was dotted and a 16-byte one otherwise. *)
Definition decoded_address (n : net.IPNet) : Prop :=
  length (net.IP_ n) = 16
  ∧ ((cidr_mask (net.Mask_ n) 32 ∧ net.To4 (net.IP_ n) ≠ [])
     ∨ cidr_mask (net.Mask_ n) 128).

(** What the decoder returns for a route destination: a network number
    as long as its prefix mask, with no bit set outside the mask. *)
Definition decoded_network (n : net.IPNet) : Prop :=
  ((length (net.IP_ n) = 4 ∧ cidr_mask (net.Mask_ n) 32)
   ∨ (length (net.IP_ n) = 16 ∧ cidr_mask (net.Mask_ n) 128))
  ∧ net.Mask (net.IP_ n) (net.Mask_ n) = net.IP_ n.

Definition decoded_route (r : PodRoute) : Prop :=
  decoded_network (Dest r)
  ∧ ¬ default_route r
  ∧ match NextHop r with
    | None => True
    | Some nh => length nh = 16
                 ∧ utilnet.IsIPv6 nh = utilnet.IsIPv6CIDR (Dest r)
    end.

(** The network of one address: /32 on the 4-byte form of an IPv4 address,
    /128 on an IPv6 address. *)
Definition full_mask_net (ip : net.IP) : net.IPNet :=
  if utilnet.IsIPv6 ip
  then {| net.IP_ := ip; net.Mask_ := net.CIDRMask 128 128 |}
  else {| net.IP_ := net.To4 ip; net.Mask_ := net.CIDRMask 32 32 |}.

(** A [GetIPFullMask]: /128 for the text of an IPv6 address, /32 for any
    other text. *)
Definition ex_GetIPFullMask (ip : string) : string :=
  if utilnet.IsIPv6 (default [] (net.ParseIP ip)) then "/128" else "/32".

(** A wire record of an old writer: the singular fields only. *)
Definition ex_legacy : json.value :=
  json.Object
    [("default",
      json.Object
        [("mac_address", json.Str "0a:58:fd:98:00:01");
         ("ip_address", json.Str "192.168.0.5/24");
         ("gateway_ip", json.Str "192.168.0.1")])].

(** The same with the plural fields only. *)
Definition ex_plural : json.value :=
  json.Object
    [("default",
      json.Object
        [("ip_addresses", json.Array [json.Str "192.168.0.5/24"]);
         ("mac_address", json.Str "0a:58:fd:98:00:01");
         ("gateway_ips", json.Array [json.Str "192.168.0.1"])])].

(** A 16-byte prefix mask whose twelfth byte is all ones is all ones up to
    there. *)
Definition mask96_ok (ones : N) : bool :=
  if bool_decide (net.CIDRMask ones 128 !! 11%nat = Some Byte.xff)
  then bool_decide (take 12 (net.CIDRMask ones 128) = replicate 12 Byte.xff)
  else true.

(** What is kept of a route that is encoded and decoded: the destination
    is the network of an address equal to that of the original under the
    decoded mask, and the next hop is absent or equal as before. *)
Definition route_kept (r R : PodRoute) : Prop :=
  (∃ ip, net.Equal (net.IP_ (Dest r)) ip = true
         ∧ net.IP_ (Dest R) = net.Mask ip (net.Mask_ (Dest R)))
  ∧ match NextHop r, NextHop R with
    | None, None => True
    | Some nh, Some nh' => net.Equal nh nh' = true
    | _, _ => False
    end.

(** A network with the prefix length 0, of either family. *)
Definition zero_prefix (n : net.IPNet) : Prop :=
  (net.To4 (net.IP_ n) ≠ [] ∧ net.Mask_ n = net.CIDRMask 0 32)
  ∨ (length (net.IP_ n) = 16 ∧ net.To4 (net.IP_ n) = []
     ∧ net.Mask_ n = net.CIDRMask 0 128).

(** What MarshalPodAnnotation does not check and UnmarshalPodAnnotation
    does: that there is an IP, the length of the MAC, a route destination
    of prefix length 0, and the family of a next hop. *)
Definition unchecked_on_encode (pa : PodAnnotation) : Prop :=
  IPs pa = []
  ∨ ¬ (length (MAC pa) = 6 ∨ length (MAC pa) = 8 ∨ length (MAC pa) = 20)
  ∨ Exists (λ r, zero_prefix (Dest r)) (Routes pa)
  ∨ Exists (λ r, ∃ nh, NextHop r = Some nh
                       ∧ utilnet.IsIPv6 nh ≠ utilnet.IsIPv6CIDR (Dest r))
      (Routes pa).

(** A route to 10.1.2.3/0. *)
Definition ex_zero_prefix_route : PodAnnotation :=
  {| IPs := [ex_ip]; MAC := ex_mac; Gateways := [];
     Routes :=
       [{| Dest := {| net.IP_ := [byte_of_N 10; byte_of_N 1; byte_of_N 2; byte_of_N 3];
                      net.Mask_ := net.CIDRMask 0 32 |};
           NextHop := None |}] |}.

(** The step of [json.Unmarshal] on one member of the object. *)
Abbreviation decode_member :=
  (λ (acc : option (gmap string podAnnotation)) (m : string * json.value),
     podNetworks ← acc;
     a ← json.unmarshal_podAnnotation m.2;
     Some (<[m.1 := a]> podNetworks)).

(** A subscribe function that gives a subscription whose channel delivers
    an add event for 10.1.1.12/24 and closes, then no subscription twice,
    and then a subscription whose channel delivers an add and a remove
    event for 10.1.1.11/24 and stays open. *)
Definition ex_subscribe (call : nat) : reconciler.Answer :=
  let event ip isAdd :=
    {| reconciler.address := {| net.IP_ := ip; net.Mask_ := net.CIDRMask 24 32 |};
       reconciler.isAdd := isAdd; reconciler.written := true |} in
  match call with
  | 0 => reconciler.Acquired [] true [event (ip4 10 1 1 12) true]
           reconciler.ChannelCloses
  | 1 | 2 => reconciler.NoSubscription
  | _ => reconciler.Acquired [] true
           [event (ip4 10 1 1 11) true; event (ip4 10 1 1 11) false]
           reconciler.StaysOpen
  end.

(** The reconciler after its start, about to subscribe. *)
Definition ex_started : reconciler.State :=
  reconciler.step ex_excluded reconciler.init (reconciler.Start [] true).

(** A wire record with the IP [ip] and nothing else but the MAC, as it is
    read, and as MarshalPodAnnotation writes it. *)
Definition ex_wire_ip (ip : string) : json.value :=
  json.Object
    [("default",
      json.Object
        [("ip_addresses", json.Array [json.Str ip]);
         ("mac_address", json.Str "0a:58:fd:98:00:01")])].

Definition ex_wire_ip_encoded (ip : string) : json.value :=
  json.Object
    [("default",
      json.Object
        [("ip_addresses", json.Array [json.Str ip]);
         ("mac_address", json.Str "0a:58:fd:98:00:01");
         ("ip_address", json.Str ip)])].

(** A wire record with one IP and two gateways. *)
Definition ex_wire_two_gateways : json.value :=
  json.Object
    [("default",
      json.Object
        [("ip_addresses", json.Array [json.Str "192.168.0.5/24"]);
         ("mac_address", json.Str "0a:58:fd:98:00:01");
         ("gateway_ips",
          json.Array [json.Str "192.168.0.1"; json.Str "192.168.0.2"])])].

(** A pod with no address anywhere. *)
Definition ex_bare_pod : Pod :=
  {| Namespace := "ns"; Name := "pod"; Annotations := ∅;
     Status := {| PodIPs := []; PodIP := "" |} |}.

(** A pod with an address of each family in its status. *)
Definition ex_dual_pod : Pod :=
  {| Namespace := "ns"; Name := "pod"; Annotations := ∅;
     Status := {| PodIPs := ["10.0.0.5"; "fd01::5"]; PodIP := "10.0.0.5" |} |}.

(** * Properties *)

(** ** Strings *)

Lemma append_cons (c : ascii) (s t : string) :
  String c s +:+ t = String c (s +:+ t).
Proof. reflexivity. Qed.

Lemma append_nil_l (t : string) : "" +:+ t = t.
Proof. reflexivity. Qed.

Lemma append_nil_r (s : string) : s +:+ "" = s.
Proof. induction s as [|c s IH]; [done | by rewrite append_cons, IH]. Qed.

Lemma append_assoc (a b c : string) : (a +:+ b) +:+ c = a +:+ (b +:+ c).
Proof. induction a as [|x a IH]; [done | by rewrite !append_cons, IH]. Qed.

Lemma length_append (a b : string) :
  String.length (a +:+ b) = String.length a + String.length b.
Proof. induction a as [|x a IH]; [done | by rewrite append_cons; simpl; rewrite IH]. Qed.

Lemma length_pos_nonempty (s : string) : 0 < String.length s → s ≠ "".
Proof. destruct s; simpl; [lia | done]. Qed.

(** ** Loops in the result monad *)

Lemma forM_Ok_length {E A B} (f : A → result E B) l ys :
  forM f l = Ok ys → length ys = length l.
Proof.
  revert ys. induction l as [|x l IH]; intros ys; simpl.
  - by intros [= <-].
  - destruct (f x) as [y|e]; simpl; [|done].
    destruct (forM f l) as [ys'|e]; simpl; [|done].
    intros [= <-]. simpl. f_equal. by apply IH.
Qed.

Lemma forM_Err {E A B} (f : A → result E B) l e :
  forM f l = Err e → ∃ x, x ∈ l ∧ f x = Err e.
Proof.
  induction l as [|x l IH]; simpl; [done|].
  destruct (f x) as [y|e'] eqn:Hx; simpl.
  - destruct (forM f l) as [ys'|e'']; simpl; [done|].
    intros [= <-]. destruct IH as (x' & ? & ?); [done|].
    exists x'. split; [by right | done].
  - intros [= <-]. exists x. split; [by left | done].
Qed.

Lemma forM_Err_elem {E A B} (f : A → result E B) l x :
  x ∈ l → is_Err (f x) → is_Err (forM f l).
Proof.
  intros Hin [e He]. induction l as [|y l IH]; [by apply elem_of_nil in Hin|].
  simpl. apply elem_of_cons in Hin as [<-|Hin].
  - rewrite He. by eexists.
  - destruct (f y); simpl; [|by eexists].
    destruct (IH Hin) as [e' ->]. by eexists.
Qed.

Lemma forM_app {E A B} (f : A → result E B) l1 l2 :
  forM f (l1 ++ l2) = (ys1 ← forM f l1; ys2 ← forM f l2; Ok (ys1 ++ ys2)).
Proof.
  induction l1 as [|x l1 IH]; simpl.
  - by destruct (forM f l2).
  - destruct (f x); simpl; [|done]. rewrite IH.
    destruct (forM f l1); simpl; [|done].
    by destruct (forM f l2).
Qed.

Lemma forM_ext_Ok {E A B} (f : A → result E B) (g : A → B) l :
  Forall (λ x, f x = Ok (g x)) l → forM f l = Ok (g <$> l).
Proof.
  induction 1 as [|x l Hx _ IH]; simpl; [done|].
  by rewrite Hx; simpl; rewrite IH.
Qed.

(** ** The printed forms are never empty *)

Lemma length_appendDecimal x : 0 < String.length (net.appendDecimal x).
Proof. unfold net.appendDecimal. rewrite !length_append. simpl. lia. Qed.

Lemma length_appendHex x : 0 < String.length (net.appendHex x).
Proof. unfold net.appendHex. rewrite !length_append. simpl. lia. Qed.

Lemma length_join_cons sep x l :
  String.length x ≤ String.length (join sep (x :: l)).
Proof.
  destruct l; simpl; [done|]. rewrite !length_append. lia.
Qed.

Lemma length_IP_String ip : 0 < String.length (net.IP_String ip).
Proof.
  unfold net.IP_String. repeat case_decide; [simpl; lia | simpl; lia | |].
  - destruct (net.To4 ip) as [|a l]; [done|].
    unfold net.string4. cbn [fmap list_fmap].
    pose proof (length_join_cons "." (net.appendDecimal (Byte.to_N a))
      ((λ b, net.appendDecimal (Byte.to_N b)) <$> l)).
    pose proof (length_appendDecimal (Byte.to_N a)). lia.
  - unfold net.string6.
    destruct (net.longest_zero_run _ _ _) as [[s e]|].
    + rewrite !length_append. simpl. lia.
    + unfold net.IPv4len, net.IPv6len in *.
      destruct ip as [|a [|b ip]]; simpl in *; try lia.
      unfold net.hexGroups. cbn [fmap list_fmap].
      pose proof (length_join_cons ":" (net.appendHex (Byte.to_N a * 256 + Byte.to_N b)%N)
        (net.appendHex <$> net.groups ip)).
      pose proof (length_appendHex (Byte.to_N a * 256 + Byte.to_N b)%N). lia.
Qed.

Lemma IP_String_nonempty ip : net.IP_String ip ≠ "".
Proof. apply length_pos_nonempty, length_IP_String. Qed.

Lemma IPNet_String_nonempty n : net.IPNet_String n ≠ "".
Proof.
  apply length_pos_nonempty. unfold net.IPNet_String.
  destruct (net.networkNumberAndMask n) as [[nn m]|]; [|simpl; lia].
  destruct (net.simpleMaskLength m); rewrite !length_append; simpl; lia.
Qed.

(** ** MarshalPodAnnotation: when it fails *)

Lemma marshalRoute_Ok r :
  ¬ default_route r →
  marshalRoute r =
    Ok {| dest := net.IPNet_String (Dest r);
          nextHop := from_option net.IP_String "" (NextHop r) |}.
Proof.
  unfold default_route, marshalRoute. intros H.
  destruct (net.IsUnspecified _); [done|]. by destruct (NextHop r).
Qed.

Lemma marshalRoute_Err r : default_route r → marshalRoute r = Err (ErrDefaultRoute r).
Proof. unfold default_route, marshalRoute. by intros ->. Qed.

Lemma forM_marshalRoute_Err rs e :
  forM marshalRoute rs = Err e → ∃ r, r ∈ rs ∧ default_route r ∧ e = ErrDefaultRoute r.
Proof.
  intros (r & Hin & Hr)%forM_Err. exists r. split; [done|].
  destruct (decide (default_route r)) as [Hd|Hd].
  - rewrite marshalRoute_Err in Hr by done. by injection Hr as <-.
  - by rewrite marshalRoute_Ok in Hr.
Qed.

Lemma marshalWire_Ok pa :
  ¬ single_stack_many_gateways pa →
  Forall (λ r, ¬ default_route r) (Routes pa) →
  marshalWire pa = Ok (wire_of pa).
Proof.
  intros Hgw Hrs. unfold marshalWire, wire_of, single_stack_many_gateways in *.
  rewrite (forM_ext_Ok marshalRoute
    (λ r, {| dest := net.IPNet_String (Dest r);
             nextHop := from_option net.IP_String "" (NextHop r) |})); last first.
  { eapply Forall_impl; [exact Hrs|]. intros r. apply marshalRoute_Ok. }
  destruct (IPs pa) as [|ip0 [|]]; simpl; try done.
  destruct (Gateways pa) as [|gw0 [|]]; simpl in *; try done. lia.
Qed.

Lemma marshalWire_Err_gateways pa :
  single_stack_many_gateways pa → marshalWire pa = Err ErrSingleGateway.
Proof.
  unfold single_stack_many_gateways, marshalWire. intros [H1 H2].
  destruct (IPs pa) as [|ip0 [|]]; simpl in *; try done.
  destruct (Gateways pa) as [|gw0 [|]]; simpl in *; try done; lia.
Qed.

Lemma marshalWire_Err_route pa :
  ¬ single_stack_many_gateways pa →
  Exists default_route (Routes pa) →
  ∃ r, r ∈ Routes pa ∧ default_route r ∧ marshalWire pa = Err (ErrDefaultRoute r).
Proof.
  intros Hgw Hex. unfold marshalWire, single_stack_many_gateways in *.
  assert (is_Err (forM marshalRoute (Routes pa))) as [e He].
  { apply Exists_exists in Hex as (r & Hin & Hr).
    apply (forM_Err_elem _ _ r); [done|]. rewrite marshalRoute_Err by done.
    by eexists. }
  destruct (forM_marshalRoute_Err _ _ He) as (r & Hin & Hr & ->).
  exists r. split_and!; [done..|]. rewrite He.
  destruct (IPs pa) as [|ip0 [|]]; simpl; try done.
  destruct (Gateways pa) as [|gw0 [|]]; simpl in *; try done. lia.
Qed.

Lemma MarshalPodAnnotation_wire pa :
  MarshalPodAnnotation pa =
    (a ← marshalWire pa;
     Ok {[ OvnPodAnnotationName :=
             json.Valid (json.Object
               [(OvnPodDefaultNetwork, json.marshal_podAnnotation a)]) ]}).
Proof.
  unfold MarshalPodAnnotation. destruct (marshalWire pa) as [a|e]; simpl; [|done].
  unfold json.Marshal. by rewrite map_to_list_singleton.
Qed.

(** ** UnmarshalPodAnnotation: the wire record and its checks *)

Lemma UnmarshalPodAnnotation_carries annotations a :
  carries annotations a → UnmarshalPodAnnotation annotations = unmarshalWire a.
Proof.
  intros (v & m & Hv & Hm & <-). unfold UnmarshalPodAnnotation.
  by rewrite Hv, Hm.
Qed.

Lemma unmarshalRoute_kind r e :
  unmarshalRoute r = Err e → kind_of e = InvalidConfig.
Proof.
  unfold unmarshalRoute.
  destruct (net.ParseCIDR (dest r)) as [[ip n]|]; [|by intros [= <-]].
  destruct (net.IsUnspecified _); [by intros [= <-]|].
  case_decide; [|done].
  destruct (net.ParseIP _); [|by intros [= <-]].
  destruct (negb _); [by intros [= <-] | done].
Qed.

Ltac bind_step :=
  match goal with
  | |- context [mbind _ ?r] =>
      let H := fresh "Hstep" in destruct r eqn:H; simpl
  | |- context [result_bind _ ?r] =>
      let H := fresh "Hstep" in destruct r eqn:H; simpl
  end.

Lemma unmarshalWire_kind a e :
  unmarshalWire a = Err e → kind_of e = InvalidConfig.
Proof.
  unfold unmarshalWire.
  destruct (net.ParseMAC _); simpl; [|by intros [= <-]].
  bind_step.
  2:{ intros [= <-]. unfold wireIPs in *.
      destruct (ip_addresses a); repeat case_decide; by simplify_eq. }
  bind_step.
  2:{ intros [= <-]. apply forM_Err in Hstep0 as (x & _ & Hx).
      unfold unmarshalIP in Hx.
      destruct (net.ParseCIDR x) as [[??]|]; by simplify_eq. }
  bind_step.
  2:{ intros [= <-]. unfold wireGateways in *.
      destruct (gateway_ips a); repeat case_decide; by simplify_eq. }
  bind_step.
  2:{ intros [= <-]. apply forM_Err in Hstep2 as (x & _ & Hx).
      unfold unmarshalGateway in Hx.
      destruct (net.ParseIP x); by simplify_eq. }
  bind_step; [done|].
  intros [= <-]. apply forM_Err in Hstep3 as (x & _ & Hx).
  by eapply unmarshalRoute_kind.
Qed.

Lemma unmarshalWire_Err_ip_conflict a :
  ip_conflict a →
  is_Err (unmarshalWire a)
  ∧ (is_Some (net.ParseMAC (mac_address a)) → unmarshalWire a = Err ErrIPConflict).
Proof.
  intros (ip0 & rest & Hl & H1 & H2). unfold unmarshalWire, wireIPs. rewrite Hl.
  rewrite (decide_True (P := ip_address a ≠ "" ∧ _)) by (by split).
  destruct (net.ParseMAC _); simpl; [|split; [by eexists | by intros [??]]].
  split; [by eexists | done].
Qed.

(** The checks on the addresses and the gateways come before the routes, and
    the routes do not change them. *)
Lemma unmarshalWire_routes a :
  unmarshalWire a =
    (pa ← unmarshalWire (set_routes a []);
     rs ← forM unmarshalRoute (routes a);
     Ok (set_Routes pa rs)).
Proof.
  unfold unmarshalWire, set_Routes.
  change (wireIPs (set_routes a [])) with (wireIPs a).
  change (wireGateways (set_routes a [])) with (wireGateways a).
  cbn [mac_address routes set_routes forM].
  destruct (net.ParseMAC _); cbn [mbind result_mbind result_bind]; [|done].
  destruct (wireIPs a); cbn [mbind result_mbind result_bind]; [|done].
  destruct (forM unmarshalIP _); cbn [mbind result_mbind result_bind]; [|done].
  destruct (wireGateways a); cbn [mbind result_mbind result_bind]; [|done].
  destruct (forM unmarshalGateway _); cbn [mbind result_mbind result_bind]; [|done].
  by destruct (forM unmarshalRoute (routes a)).
Qed.

Lemma unmarshalWire_Err_gateway_conflict a :
  gateway_conflict a →
  is_Err (unmarshalWire a)
  ∧ (is_Ok (unmarshalWire
       {| ip_addresses := ip_addresses a; mac_address := mac_address a;
          gateway_ips := []; routes := []; ip_address := ip_address a;
          gateway_ip := "" |}) →
     unmarshalWire a = Err ErrGatewayConflict).
Proof.
  intros (gw0 & rest & Hl & H1 & H2).
  unfold unmarshalWire, wireGateways, wireIPs. simpl. rewrite Hl.
  rewrite (decide_True (P := gateway_ip a ≠ "" ∧ _)) by (by split).
  destruct (net.ParseMAC _); simpl; [|split; [by eexists | by intros [??]]].
  bind_step; [|split; [by eexists | by intros [??]]].
  bind_step; [|split; [by eexists | by intros [??]]].
  split; [by eexists | done].
Qed.

Lemma unmarshalRoute_default r ip n :
  net.ParseCIDR (dest r) = Some (ip, n) →
  net.IsUnspecified (net.IP_ n) = true →
  unmarshalRoute r = Err (ErrDefaultRoute {| Dest := n; NextHop := None |}).
Proof. unfold unmarshalRoute. by intros -> ->. Qed.

Lemma unmarshalRoute_family r ip n nh :
  net.ParseCIDR (dest r) = Some (ip, n) →
  net.IsUnspecified (net.IP_ n) = false →
  nextHop r ≠ "" →
  net.ParseIP (nextHop r) = Some nh →
  unmarshalRoute r =
    if bool_decide (utilnet.IsIPv6 nh = utilnet.IsIPv6CIDR n)
    then Ok {| Dest := n; NextHop := Some nh |}
    else Err (ErrNextHopFamily (dest r) (nextHop r)).
Proof.
  unfold unmarshalRoute. intros -> -> Hnh ->.
  rewrite decide_True by done. by case_bool_decide.
Qed.

Lemma unmarshalWire_route_Err a pre r post e :
  routes a = pre ++ r :: post →
  unmarshalRoute r = Err e →
  is_Err (unmarshalWire a)
  ∧ (is_Ok (unmarshalWire (set_routes a pre)) → unmarshalWire a = Err e).
Proof.
  intros Hrs Hr. rewrite (unmarshalWire_routes a).
  rewrite (unmarshalWire_routes (set_routes a pre)). simpl.
  change (set_routes (set_routes a pre) []) with (set_routes a []).
  rewrite Hrs, forM_app. simpl. rewrite Hr. simpl.
  destruct (unmarshalWire (set_routes a [])) as [pa0|e0]; simpl.
  - destruct (forM unmarshalRoute pre) as [rs|e']; simpl.
    + split; [by eexists | done].
    + split; [by eexists | by intros [??]].
  - split; [by eexists | by intros [??]].
Qed.

Lemma unmarshalWire_route_Ok a pre r post route pa' :
  routes a = pre ++ r :: post →
  unmarshalRoute r = Ok route →
  unmarshalWire (set_routes a (pre ++ post)) = Ok pa' →
  ∃ pa, unmarshalWire a = Ok pa ∧ route ∈ Routes pa.
Proof.
  intros Hrs Hr. rewrite (unmarshalWire_routes a).
  rewrite (unmarshalWire_routes (set_routes a (pre ++ post))). simpl.
  change (set_routes (set_routes a (pre ++ post)) []) with (set_routes a []).
  rewrite Hrs, !forM_app. simpl. rewrite Hr. simpl.
  destruct (unmarshalWire (set_routes a [])) as [pa0|e0]; simpl; [|done].
  destruct (forM unmarshalRoute pre) as [rs1|e']; simpl; [|done].
  destruct (forM unmarshalRoute post) as [rs2|e']; simpl; [|done].
  intros _. eexists. split; [done|]. simpl.
  apply elem_of_app. right. by left.
Qed.

(** A PodAnnotation that was decoded has at least one IP. *)
Lemma unmarshalWire_IPs a pa : unmarshalWire a = Ok pa → IPs pa ≠ [].
Proof.
  unfold unmarshalWire.
  destruct (net.ParseMAC _); simpl; [|done].
  bind_step; [|done]. bind_step; [|done]. bind_step; [|done].
  bind_step; [|done]. bind_step; [|done].
  intros [= <-]. simpl. apply forM_Ok_length in Hstep0.
  assert (a0 ≠ []) as Ha0.
  { unfold wireIPs in *.
    destruct (ip_addresses a); repeat case_decide; by simplify_eq. }
  intros ->. destruct a0; simpl in *; done.
Qed.

Lemma UnmarshalPodAnnotation_IPs annotations pa :
  UnmarshalPodAnnotation annotations = Ok pa → IPs pa ≠ [].
Proof.
  unfold UnmarshalPodAnnotation.
  destruct (annotations !! _); [|done].
  destruct (json.Unmarshal _); [|done]. apply unmarshalWire_IPs.
Qed.

(** ** Hardware addresses: ParseMAC after String *)

Lemma byte_of_to_N b : byte_of_N (Byte.to_N b) = b.
Proof. by destruct b. Qed.

Lemma xtoi_hexString1 b : net.xtoi (net.hexString [b]) = Some (Byte.to_N b, 2, "").
Proof. destruct b; reflexivity. Qed.

Lemma xtoi2_sep b c r : net.xtoi2 (net.hexString [b] +:+ String c r) c = Some b.
Proof.
  unfold net.xtoi2.
  change (sdrop 2 (net.hexString [b] +:+ String c r)) with (String c r).
  change (stake 2 (net.hexString [b] +:+ String c r)) with (net.hexString [b]).
  cbv beta iota zeta. rewrite decide_True by done.
  rewrite xtoi_hexString1. simpl. by rewrite byte_of_to_N.
Qed.

Lemma xtoi2_end b c : net.xtoi2 (net.hexString [b]) c = Some b.
Proof.
  unfold net.xtoi2.
  change (sdrop 2 (net.hexString [b])) with "".
  change (stake 2 (net.hexString [b])) with (net.hexString [b]).
  cbv beta iota zeta. rewrite xtoi_hexString1. simpl. by rewrite byte_of_to_N.
Qed.

Lemma HardwareAddr_String_cons b1 b2 a :
  net.HardwareAddr_String (b1 :: b2 :: a) =
    net.hexString [b1] +:+ String ":" (net.HardwareAddr_String (b2 :: a)).
Proof. reflexivity. Qed.

Lemma mac3_String a :
  net.mac3 (length a) (net.HardwareAddr_String a) ":" = Some a.
Proof.
  induction a as [|b1 [|b2 a] IH]; [done| |].
  - simpl. change (net.HardwareAddr_String [b1]) with (net.hexString [b1]).
    by rewrite xtoi2_end.
  - rewrite HardwareAddr_String_cons.
    change (length (b1 :: b2 :: a)) with (S (length (b2 :: a))).
    cbn [net.mac3]. rewrite xtoi2_sep.
    change (sdrop 3 (net.hexString [b1] +:+ String ":" (net.HardwareAddr_String (b2 :: a))))
      with (net.HardwareAddr_String (b2 :: a)).
    by rewrite IH.
Qed.

Lemma length_HardwareAddr_String a :
  a ≠ [] → String.length (net.HardwareAddr_String a) + 1 = 3 * length a.
Proof.
  induction a as [|b1 [|b2 a] IH]; [done|done|]. intros _.
  rewrite HardwareAddr_String_cons.
  change (String.length (net.hexString [b1] +:+ String ":" (net.HardwareAddr_String (b2 :: a))))
    with (S (S (S (String.length (net.HardwareAddr_String (b2 :: a)))))).
  specialize (IH ltac:(done)). simpl length in *. lia.
Qed.

Lemma sget_2_HardwareAddr_String b1 b2 a :
  sget 2 (net.HardwareAddr_String (b1 :: b2 :: a)) = ":"%char.
Proof. reflexivity. Qed.

(** A hardware address of 6, 8 or 20 octets parses back from its text. *)
Lemma ParseMAC_String a :
  length a = 6 ∨ length a = 8 ∨ length a = 20 →
  net.ParseMAC (net.HardwareAddr_String a) = Some a.
Proof.
  intros Hlen.
  assert (a ≠ []) as Hne by (intros ->; simpl in Hlen; lia).
  pose proof (length_HardwareAddr_String a Hne) as Hl.
  destruct a as [|b1 [|b2 a]]; [done|simpl in Hlen; lia|].
  unfold net.ParseMAC. rewrite sget_2_HardwareAddr_String.
  rewrite bool_decide_false by lia.
  rewrite (bool_decide_true (":"%char = ":"%char)) by done.
  cbn [orb]. rewrite Hl.
  replace (3 * length (b1 :: b2 :: a)) with (length (b1 :: b2 :: a) * 3) by lia.
  rewrite Nat.Div0.mod_mul, Nat.div_mul by done.
  rewrite (bool_decide_true (0 = 0)) by done.
  rewrite bool_decide_true by done.
  cbn [negb]. apply mac3_String.
Qed.

(** ** IPv4 text: ParseAddr after string4 *)

Lemma appendDecimal_append_nonempty x r : net.appendDecimal x +:+ r ≠ "".
Proof.
  apply length_pos_nonempty. rewrite length_append.
  pose proof (length_appendDecimal x). lia.
Qed.

Lemma parseIPv4Fields_field b r fields :
  net.parseIPv4Fields (net.appendDecimal (Byte.to_N b) +:+ "." +:+ r) 0 0 fields =
    if bool_decide (r = "") then None
    else if bool_decide (length fields = 3) then None
    else net.parseIPv4Fields r 0 0 (fields ++ [b]).
Proof. destruct b; reflexivity. Qed.

Lemma parseIPv4Fields_last b fields :
  net.parseIPv4Fields (net.appendDecimal (Byte.to_N b)) 0 0 fields =
    if bool_decide (length fields < 3) then None else Some (fields ++ [b]).
Proof. destruct b; reflexivity. Qed.

Lemma ParseAddr_go_decimal b r whole :
  net.ParseAddr_go (net.appendDecimal (Byte.to_N b) +:+ "." +:+ r) whole =
    net.Addr4 <$> net.parseIPv4 whole.
Proof. destruct b; reflexivity. Qed.

Lemma string4_quad a b c d :
  net.string4 [a; b; c; d] =
    net.appendDecimal (Byte.to_N a) +:+ "." +:+
    net.appendDecimal (Byte.to_N b) +:+ "." +:+
    net.appendDecimal (Byte.to_N c) +:+ "." +:+
    net.appendDecimal (Byte.to_N d).
Proof. reflexivity. Qed.

Lemma parseIPv4_string4 a b c d :
  net.parseIPv4 (net.string4 [a; b; c; d]) = Some [a; b; c; d].
Proof.
  rewrite string4_quad. unfold net.parseIPv4.
  rewrite parseIPv4Fields_field.
  rewrite bool_decide_false by apply appendDecimal_append_nonempty.
  rewrite bool_decide_false by done. simpl app.
  rewrite parseIPv4Fields_field.
  rewrite bool_decide_false by apply appendDecimal_append_nonempty.
  rewrite bool_decide_false by done. simpl app.
  rewrite parseIPv4Fields_field.
  rewrite bool_decide_false
    by (rewrite <-(append_nil_r (net.appendDecimal _)); apply appendDecimal_append_nonempty).
  rewrite bool_decide_false by done. simpl app.
  rewrite parseIPv4Fields_last. by rewrite bool_decide_false by (simpl; lia).
Qed.

Lemma ParseAddr_string4 a b c d :
  net.ParseAddr (net.string4 [a; b; c; d]) = Some (net.Addr4 [a; b; c; d]).
Proof.
  unfold net.ParseAddr. rewrite string4_quad at 1.
  rewrite ParseAddr_go_decimal. by rewrite parseIPv4_string4.
Qed.

(** ** IPv6 text: ParseAddr after string6 *)

#[local] Ltac Zify.zify_post_hook ::= Z.to_euclidean_division_equations.

Lemma elem_of_N_range k s g :
  (s ≤ g < s + N.of_nat k)%N → g ∈ N_range k s.
Proof.
  revert s. induction k as [|k IH]; intros s Hg; [lia|]. simpl.
  destruct (decide (g = s)) as [->|Hne]; [by left|].
  right. apply IH. lia.
Qed.

Lemma hexval_hexDigit d : (d < 16)%N → hexval (hexDigit d) = Some d.
Proof.
  intros Hd.
  assert (forallb (λ d, bool_decide (hexval (hexDigit d) = Some d)) (N_range 16 0) = true)
    as H by reflexivity.
  rewrite forallb_forall in H. specialize (H d).
  eapply bool_decide_eq_true_1, H, list_elem_of_In, elem_of_N_range. lia.
Qed.

Lemma is_hex_hexDigit d : (d < 16)%N → is_hex (hexDigit d) = true.
Proof. intros Hd. unfold is_hex. by rewrite hexval_hexDigit. Qed.

Lemma hexGroup_go_digit d r off acc :
  (d < 16)%N →
  net.hexGroup_go (String (hexDigit d) r) off acc =
    if bool_decide (3 < off) then None
    else if (65535 <? acc * 16 + d)%N then None
    else net.hexGroup_go r (S off) (acc * 16 + d)%N.
Proof. intros Hd. cbn [net.hexGroup_go]. by rewrite hexval_hexDigit. Qed.

(** A group printed by [appendHex] is read back by [hexGroup]; it is made of
    hexadecimal digits, at least one. *)
Lemma appendHex_spec g :
  (g < 65536)%N →
  net.hexGroup (net.appendHex g) = Some (g, "")
  ∧ all_chars is_hex (net.appendHex g) = true
  ∧ net.appendHex g ≠ "".
Proof.
  intros Hg. unfold net.appendHex, net.hexGroup.
  destruct (N.leb_spec 4096 g), (N.leb_spec 256 g), (N.leb_spec 16 g); try lia;
    rewrite ?append_cons, ?append_nil_l;
    (split_and!; [| |done]).
  all: try (cbn [all_chars]; rewrite ?is_hex_hexDigit by lia; done).
  all: repeat (rewrite hexGroup_go_digit by lia;
               rewrite bool_decide_false by lia;
               rewrite (proj2 (N.ltb_ge _ _)) by lia).
  all: cbn [net.hexGroup_go]; rewrite decide_False by done; f_equal; f_equal; lia.
Qed.

Lemma hexGroup_go_append s rest off acc v :
  net.hexGroup_go s off acc = Some (v, "") →
  hex_ends rest →
  net.hexGroup_go (s +:+ rest) off acc = Some (v, rest).
Proof.
  revert off acc. induction s as [|c s IH]; intros off acc.
  - rewrite append_nil_l. cbn [net.hexGroup_go].
    case_decide; [done|]. intros [= <-] Hrest.
    destruct rest as [|c r]; cbn [net.hexGroup_go].
    + by rewrite decide_False.
    + unfold hex_ends, is_hex in Hrest. destruct (hexval c); [done|].
      by rewrite decide_False.
  - rewrite append_cons. cbn [net.hexGroup_go].
    destruct (hexval c) as [d|].
    + case_bool_decide; [done|].
      destruct (65535 <? acc * 16 + d)%N; [done|]. apply IH.
    + by case_decide.
Qed.

Lemma hexGroup_appendHex g rest :
  (g < 65536)%N → hex_ends rest →
  net.hexGroup (net.appendHex g +:+ rest) = Some (g, rest).
Proof.
  intros Hg Hrest. apply hexGroup_go_append; [|done].
  by apply appendHex_spec.
Qed.

Lemma starts_hex_appendHex g r : (g < 65536)%N → starts_hex (net.appendHex g +:+ r).
Proof.
  intros (_ & Hall & Hne)%appendHex_spec.
  destruct (net.appendHex g) as [|c s]; [done|].
  rewrite append_cons. simpl in *. by apply andb_prop in Hall as [? _].
Qed.

Lemma starts_hex_hexGroups g l r :
  (g < 65536)%N → starts_hex (net.hexGroups (g :: l) +:+ r).
Proof.
  intros Hg. destruct l as [|g' l].
  - by apply starts_hex_appendHex.
  - change (net.hexGroups (g :: g' :: l))
      with (net.appendHex g +:+ ":" +:+ net.hexGroups (g' :: l)).
    rewrite append_assoc. by apply starts_hex_appendHex.
Qed.

Lemma starts_hex_nonempty s : starts_hex s → s ≠ "".
Proof. by destruct s. Qed.

Lemma starts_hex_stake1 s : starts_hex s → stake 1 s ≠ ":".
Proof. destruct s as [|c s]; [done|]. simpl. by intros Hc [= ->]. Qed.

Lemma starts_hex_stake2 s : starts_hex s → stake 2 s ≠ "::".
Proof. destruct s as [|c [|d s]]; [done|done|]. simpl. by intros Hc [= -> _]. Qed.

Lemma list_ind2 {A} (P : list A → Prop) :
  P [] → (∀ x, P [x]) → (∀ x y l, P l → P (x :: y :: l)) → ∀ l, P l.
Proof.
  intros H0 H1 H2. fix IH 1. intros [|x [|y l]]; [done|done|].
  apply H2, IH.
Qed.

Lemma groups_lt ip : Forall (λ g, (g < 65536)%N) (net.groups ip).
Proof.
  induction ip as [|x|hi lo l IH] using list_ind2; [constructor..|].
  cbn [net.groups]. constructor; [|done].
  pose proof (Byte.to_N_bounded hi). pose proof (Byte.to_N_bounded lo). lia.
Qed.

Lemma length_groups ip : length ip = 2 * length (net.groups ip) ∨
                         length ip = S (2 * length (net.groups ip)).
Proof.
  induction ip as [|x|hi lo l IH] using list_ind2; simpl; [by left|by right|].
  destruct IH as [->| ->]; [left|right]; lia.
Qed.

Lemma ungroups_cons g gs :
  net.ungroups (g :: gs) = byte_of_N (g / 256) :: byte_of_N g :: net.ungroups gs.
Proof. reflexivity. Qed.

Lemma ungroups_app l1 l2 : net.ungroups (l1 ++ l2) = net.ungroups l1 ++ net.ungroups l2.
Proof. unfold net.ungroups. by rewrite flat_map_app. Qed.

Lemma length_ungroups l : length (net.ungroups l) = 2 * length l.
Proof. induction l as [|g l IH]; [done|]. rewrite ungroups_cons. simpl. lia. Qed.

Lemma byte_of_N_hi hi lo :
  byte_of_N ((Byte.to_N hi * 256 + Byte.to_N lo) / 256) = hi.
Proof.
  pose proof (Byte.to_N_bounded hi). pose proof (Byte.to_N_bounded lo).
  unfold byte_of_N.
  replace (((Byte.to_N hi * 256 + Byte.to_N lo) / 256) mod 256)%N with (Byte.to_N hi) by lia.
  by rewrite Byte.of_to_N.
Qed.

Lemma byte_of_N_lo hi lo :
  byte_of_N (Byte.to_N hi * 256 + Byte.to_N lo) = lo.
Proof.
  pose proof (Byte.to_N_bounded hi). pose proof (Byte.to_N_bounded lo).
  unfold byte_of_N.
  replace ((Byte.to_N hi * 256 + Byte.to_N lo) mod 256)%N with (Byte.to_N lo) by lia.
  by rewrite Byte.of_to_N.
Qed.

Lemma ungroups_groups ip :
  length ip = 2 * length (net.groups ip) → net.ungroups (net.groups ip) = ip.
Proof.
  induction ip as [|x|hi lo l IH] using list_ind2; [done|simpl; lia|].
  cbn [net.groups length]. intros Hl.
  rewrite ungroups_cons, byte_of_N_hi, byte_of_N_lo.
  f_equal. f_equal. apply IH. lia.
Qed.

(** One iteration of the loop on a printed group that ends the text. *)
Lemma loop6_end g fuel acc ell :
  (g < 65536)%N →
  loop6 (S fuel) acc ell (net.appendHex g) = Some (acc ++ net.ungroups [g], ell).
Proof.
  intros Hg. cbn [net.parseIPv6_loop].
  rewrite <-(append_nil_r (net.appendHex g)) at 1.
  rewrite hexGroup_appendHex by done. cbn [mbind option_bind].
  by rewrite bool_decide_false by done.
Qed.

(** One iteration on a printed group that a colon and another group follow. *)
Lemma loop6_colon g r fuel acc ell :
  (g < 65536)%N → starts_hex r →
  loop6 (S fuel) acc ell (net.appendHex g +:+ ":" +:+ r) =
    loop6 fuel (acc ++ net.ungroups [g]) ell r.
Proof.
  intros Hg Hr. cbn [net.parseIPv6_loop].
  rewrite hexGroup_appendHex by done. cbn [mbind option_bind].
  change (":" +:+ r) with (String ":" r). cbv beta iota.
  rewrite (bool_decide_false (stake 1 (String ":" r) = ".")) by done.
  rewrite (bool_decide_true (":"%char = ":"%char)) by done.
  rewrite (bool_decide_false (r = "")) by by apply starts_hex_nonempty.
  cbn [negb orb].
  by rewrite (bool_decide_false (stake 1 r = ":")) by by apply starts_hex_stake1.
Qed.

(** One iteration on a printed group that the ellipsis follows. *)
Lemma loop6_ellipsis g t fuel acc :
  (g < 65536)%N →
  loop6 (S fuel) acc None (net.appendHex g +:+ "::" +:+ t) =
    let ip := acc ++ net.ungroups [g] in
    if decide (t = "") then Some (ip, Some (length ip))
    else loop6 fuel ip (Some (length ip)) t.
Proof.
  intros Hg. cbn [net.parseIPv6_loop].
  rewrite hexGroup_appendHex by done. cbn [mbind option_bind].
  change ("::" +:+ t) with (String ":" (String ":" t)). cbv beta iota.
  rewrite (bool_decide_false (stake 1 (String ":" (String ":" t)) = ".")) by done.
  rewrite (bool_decide_true (":"%char = ":"%char)) by done.
  rewrite (bool_decide_false (String ":" t = "")) by done.
  cbn [negb orb].
  rewrite (bool_decide_true (stake 1 (String ":" t) = ":")) by done.
  rewrite (bool_decide_false (None ≠ None)) by (by intros []).
  done.
Qed.

Lemma hexGroups_cons2 g g' l :
  net.hexGroups (g :: g' :: l) = net.appendHex g +:+ ":" +:+ net.hexGroups (g' :: l).
Proof. reflexivity. Qed.

(** The loop reads back a printed sequence of groups that ends the text. *)
Lemma loop6_hexGroups l fuel acc ell :
  l ≠ [] → Forall (λ g, (g < 65536)%N) l → length l ≤ fuel →
  loop6 fuel acc ell (net.hexGroups l) = Some (acc ++ net.ungroups l, ell).
Proof.
  intros Hne Hl. revert fuel acc.
  induction Hl as [|g l Hg Hl IH]; [done|]. intros fuel acc Hfuel.
  destruct fuel as [|fuel]; [simpl in Hfuel; lia|].
  destruct l as [|g' l].
  - by apply loop6_end.
  - rewrite hexGroups_cons2, loop6_colon; [|done|].
    + rewrite IH by (done || simpl in *; lia).
      by rewrite <-(assoc_L (++)), <-ungroups_app.
    + rewrite <-(append_nil_r (net.hexGroups _)).
      apply starts_hex_hexGroups. by inversion Hl.
Qed.

(** The loop reads back a printed sequence of groups that the ellipsis
    follows, and goes on after the ellipsis. *)
Lemma loop6_hexGroups_ellipsis l t fuel acc :
  l ≠ [] → Forall (λ g, (g < 65536)%N) l → length l ≤ fuel →
  loop6 fuel acc None (net.hexGroups l +:+ "::" +:+ t) =
    let ip := acc ++ net.ungroups l in
    if decide (t = "") then Some (ip, Some (length ip))
    else loop6 (fuel - length l) ip (Some (length ip)) t.
Proof.
  intros Hne Hl. revert fuel acc.
  induction Hl as [|g l Hg Hl IH]; [done|]. intros fuel acc Hfuel.
  destruct fuel as [|fuel]; [simpl in Hfuel; lia|].
  destruct l as [|g' l].
  - change (net.hexGroups [g]) with (net.appendHex g).
    rewrite loop6_ellipsis by done.
    by replace (S fuel - length [g]) with fuel by (simpl; lia).
  - rewrite hexGroups_cons2, !append_assoc, loop6_colon; [|done|].
    + rewrite IH by (done || simpl in *; lia). cbv zeta.
      rewrite <-(assoc_L (++)), <-ungroups_app. done.
    + apply starts_hex_hexGroups. by inversion Hl.
Qed.

Lemma zero_run_spec gs :
  net.zero_run gs ≤ length gs
  ∧ take (net.zero_run gs) gs = replicate (net.zero_run gs) 0%N.
Proof.
  induction gs as [|g gs [IH1 IH2]]; [done|].
  destruct g as [|p]; simpl; [|split; [lia | done]].
  split; [lia | by rewrite IH2].
Qed.

Lemma longest_zero_run_spec pre gs best :
  zero_groups (pre ++ gs) best →
  zero_groups (pre ++ gs) (net.longest_zero_run (length pre) gs best).
Proof.
  revert pre best. induction gs as [|g gs IH]; intros pre best Hbest; [done|].
  cbn [net.longest_zero_run].
  replace (pre ++ g :: gs) with ((pre ++ [g]) ++ gs) in * by by rewrite <-(assoc_L (++)).
  replace (S (length pre)) with (length (pre ++ [g])) by (rewrite length_app; simpl; lia).
  apply IH.
  destruct (bool_decide (2 ≤ net.zero_run (g :: gs)) && _) eqn:Hc; [|done].
  apply andb_prop in Hc as [Hc%bool_decide_eq_true_1 _].
  destruct (zero_run_spec (g :: gs)) as [H1 H2].
  rewrite <-(assoc_L (++)). cbn [app]. unfold zero_groups.
  split_and!; [lia|rewrite length_app; lia|].
  replace (length pre + net.zero_run (g :: gs) - length pre)
    with (net.zero_run (g :: gs)) by lia.
  by rewrite drop_app_length.
Qed.

Lemma ungroups_replicate n : net.ungroups (replicate n 0%N) = replicate (2 * n) Byte.x00.
Proof.
  induction n as [|n IH]; [done|].
  replace (2 * S n) with (S (S (2 * n))) by lia.
  cbn [replicate]. rewrite ungroups_cons, IH. done.
Qed.

Lemma hexGroups_nonempty l :
  l ≠ [] → Forall (λ g, (g < 65536)%N) l → starts_hex (net.hexGroups l).
Proof.
  intros Hne Hl. destruct Hl as [|g l Hg Hl]; [done|].
  rewrite <-(append_nil_r (net.hexGroups _)). by apply starts_hex_hexGroups.
Qed.

Lemma parseIPv6_hexGroups gs :
  length gs = 8 → Forall (λ g, (g < 65536)%N) gs →
  net.parseIPv6 (net.hexGroups gs) = Some (net.ungroups gs).
Proof.
  intros Hlen Hlt. unfold net.parseIPv6, net.parseIPv6_with.
  assert (gs ≠ []) as Hne by (intros ->; done).
  rewrite bool_decide_false
    by by apply starts_hex_stake2, hexGroups_nonempty.
  rewrite loop6_hexGroups by (done || lia). cbn [mbind option_bind app].
  unfold net.expand. rewrite length_ungroups, Hlen.
  rewrite bool_decide_false by lia.
  by rewrite bool_decide_false by (by intros []).
Qed.

Lemma parseIPv6_ellipsis pre post n :
  length pre + n + length post = 8 → 0 < n →
  Forall (λ g, (g < 65536)%N) pre → Forall (λ g, (g < 65536)%N) post →
  net.parseIPv6 (net.hexGroups pre +:+ "::" +:+ net.hexGroups post) =
    Some (net.ungroups pre ++ replicate (2 * n) Byte.x00 ++ net.ungroups post).
Proof.
  intros Hlen Hn Hpre Hpost. unfold net.parseIPv6, net.parseIPv6_with.
  destruct (decide (pre = [])) as [->|Hne].
  - change (net.hexGroups [] +:+ "::" +:+ net.hexGroups post)
      with (String ":" (String ":" (net.hexGroups post))).
    rewrite bool_decide_true by done.
    change (sdrop 2 (String ":" (String ":" (net.hexGroups post))))
      with (net.hexGroups post).
    cbv zeta. simpl in Hlen. destruct (decide (post = [])) as [->|Hpne].
    + change (net.hexGroups []) with "". rewrite decide_True by done.
      simpl in Hlen. replace (2 * n) with 16 by lia. by rewrite app_nil_r.
    + rewrite decide_False
        by by apply starts_hex_nonempty, hexGroups_nonempty.
      rewrite loop6_hexGroups by (done || lia). cbn [mbind option_bind app].
      unfold net.expand. rewrite length_ungroups.
      rewrite bool_decide_true by lia. cbn [mbind option_bind].
      rewrite take_0, drop_0.
      by replace (16 - 2 * length post) with (2 * n) by lia.
  - rewrite bool_decide_false.
    2:{ apply starts_hex_stake2. destruct Hpre as [|g l Hg Hl]; [done|].
        by apply starts_hex_hexGroups. }
    rewrite loop6_hexGroups_ellipsis by (done || lia). cbv zeta. cbn [app].
    destruct (decide (post = [])) as [->|Hpne].
    + change (net.hexGroups []) with "". rewrite decide_True by done.
      simpl in Hlen. cbn [mbind option_bind].
      unfold net.expand. rewrite length_ungroups.
      rewrite bool_decide_true by lia. cbn [mbind option_bind].
      rewrite take_ge, drop_ge by (rewrite length_ungroups; lia).
      change (net.ungroups []) with (@nil byte).
      by replace (16 - 2 * length pre) with (2 * n) by lia.
    + rewrite decide_False
        by by apply starts_hex_nonempty, hexGroups_nonempty.
      rewrite loop6_hexGroups by (done || lia). cbn [mbind option_bind].
      unfold net.expand. rewrite length_app, !length_ungroups.
      rewrite bool_decide_true by lia. cbn [mbind option_bind].
      rewrite take_app_length', drop_app_length' by (rewrite length_ungroups; lia).
      by replace (16 - (2 * length pre + 2 * length post)) with (2 * n) by lia.
Qed.

(** A 16-byte address parses back from its IPv6 text. *)
Lemma parseIPv6_string6 ip :
  length ip = 16 → net.parseIPv6 (net.string6 ip) = Some ip.
Proof.
  intros Hlen. unfold net.string6.
  pose proof (groups_lt ip) as Hlt.
  assert (length (net.groups ip) = 8) as Hg
    by (destruct (length_groups ip); lia).
  assert (net.ungroups (net.groups ip) = ip) as Hu
    by (apply ungroups_groups; lia).
  pose proof (longest_zero_run_spec [] (net.groups ip) None I) as Hrun.
  cbn [app length] in Hrun.
  destruct (net.longest_zero_run 0 (net.groups ip) None) as [[s e]|].
  - destruct Hrun as (Hse & He & Hz).
    rewrite (parseIPv6_ellipsis _ _ (e - s));
      [|rewrite length_take, length_drop, Nat.min_l; lia|lia
       |by apply Forall_take|by apply Forall_drop].
    rewrite <-ungroups_replicate, <-Hz, <-!ungroups_app.
    f_equal. rewrite <-Hu at 4. f_equal.
    rewrite <-(take_drop s (net.groups ip)) at 4. f_equal.
    rewrite <-(take_drop (e - s) (drop s (net.groups ip))) at 2. f_equal.
    rewrite drop_drop. f_equal. lia.
  - by rewrite parseIPv6_hexGroups, Hu.
Qed.

(** *** The dispatch of ParseAddr and the characters of an address *)

Lemma all_chars_append P a b :
  all_chars P (a +:+ b) = all_chars P a && all_chars P b.
Proof.
  induction a as [|c a IH]; [done|].
  rewrite append_cons. cbn [all_chars]. by rewrite IH, andb_assoc.
Qed.

Lemma all_chars_impl (P Q : ascii → bool) s :
  (∀ c, P c = true → Q c = true) → all_chars P s = true → all_chars Q s = true.
Proof.
  intros HPQ. induction s as [|c s IH]; [done|]. cbn [all_chars].
  intros [Hc Hs]%andb_prop. by rewrite (HPQ c Hc), IH.
Qed.

Lemma all_chars_join P sep l :
  all_chars P sep = true → Forall (λ x, all_chars P x = true) l →
  all_chars P (join sep l) = true.
Proof.
  intros Hsep. induction 1 as [|x l Hx Hl IH]; [done|].
  destruct l as [|y l]; [done|].
  change (join sep (x :: y :: l)) with (x +:+ sep +:+ join sep (y :: l)).
  by rewrite !all_chars_append, Hx, Hsep, IH.
Qed.

Lemma is_hex_addr_char c : is_hex c = true → is_addr_char c = true.
Proof. unfold is_addr_char. by intros ->. Qed.

Lemma all_hex_appendDecimal b : all_chars is_hex (net.appendDecimal (Byte.to_N b)) = true.
Proof. by destruct b. Qed.

Lemma all_addr_chars_string4 p : all_chars is_addr_char (net.string4 p) = true.
Proof.
  unfold net.string4. apply all_chars_join; [done|].
  apply Forall_fmap, Forall_forall. intros b _. simpl.
  eapply all_chars_impl; [apply is_hex_addr_char | apply all_hex_appendDecimal].
Qed.

Lemma all_addr_chars_hexGroups l :
  Forall (λ g, (g < 65536)%N) l → all_chars is_addr_char (net.hexGroups l) = true.
Proof.
  intros Hl. unfold net.hexGroups. apply all_chars_join; [done|].
  apply Forall_fmap. eapply Forall_impl; [exact Hl|]. intros g Hg. simpl.
  eapply all_chars_impl; [apply is_hex_addr_char | by apply appendHex_spec].
Qed.

Lemma all_addr_chars_string6 ip : all_chars is_addr_char (net.string6 ip) = true.
Proof.
  unfold net.string6. pose proof (groups_lt ip) as Hlt.
  destruct (net.longest_zero_run _ _ _) as [[s e]|].
  - rewrite !all_chars_append, !all_addr_chars_hexGroups;
      [done | by apply Forall_drop | by apply Forall_take].
  - by apply all_addr_chars_hexGroups.
Qed.

Lemma cut_append c s r :
  all_chars (λ a, negb (bool_decide (a = c))) s = true →
  cut c (s +:+ String c r) = Some (s, r).
Proof.
  induction s as [|a s IH]; cbn [all_chars].
  - intros _. rewrite append_nil_l. cbn [cut]. by rewrite decide_True.
  - intros [Ha Hs]%andb_prop. rewrite append_cons. cbn [cut].
    apply negb_true_iff, bool_decide_eq_false_1 in Ha.
    rewrite decide_False by done. by rewrite IH.
Qed.

Lemma cut_slash s r :
  all_chars is_addr_char s = true → cut "/" (s +:+ "/" +:+ r) = Some (s, r).
Proof.
  intros Hs. apply cut_append. eapply all_chars_impl; [|exact Hs].
  intros c Hc. apply negb_true_iff, bool_decide_eq_false_2. by intros ->.
Qed.

Lemma ParseAddr_go_hex s r whole :
  all_chars is_hex s = true →
  net.ParseAddr_go (s +:+ String ":" r) whole = net.Addr6 <$> net.parseIPv6 whole.
Proof.
  induction s as [|c s IH]; cbn [all_chars].
  - intros _. rewrite append_nil_l. cbn [net.ParseAddr_go].
    rewrite decide_False by done. by rewrite decide_True.
  - intros [Hc Hs]%andb_prop. rewrite append_cons. cbn [net.ParseAddr_go].
    rewrite !decide_False by (by intros ->). by apply IH.
Qed.

Lemma ParseAddr_go_hexGroups g l t whole :
  (g < 65536)%N →
  net.ParseAddr_go (net.hexGroups (g :: l) +:+ String ":" t) whole =
    net.Addr6 <$> net.parseIPv6 whole.
Proof.
  intros Hg. destruct l as [|g' l].
  - apply ParseAddr_go_hex. by apply appendHex_spec.
  - rewrite hexGroups_cons2, !append_assoc.
    apply (ParseAddr_go_hex _ (_ +:+ _)). by apply appendHex_spec.
Qed.

Lemma ParseAddr_go_string6 ip whole :
  length ip = 16 →
  net.ParseAddr_go (net.string6 ip) whole = net.Addr6 <$> net.parseIPv6 whole.
Proof.
  intros Hlen. unfold net.string6. pose proof (groups_lt ip) as Hlt.
  assert (length (net.groups ip) = 8) as Hg
    by (destruct (length_groups ip); lia).
  destruct (net.longest_zero_run _ _ _) as [[s e]|].
  - destruct (take s (net.groups ip)) as [|g l] eqn:Hpre.
    + apply (ParseAddr_go_hex "" _). done.
    + assert (Forall (λ g, (g < 65536)%N) (g :: l)) as Hgl
        by (rewrite <-Hpre; by apply Forall_take).
      apply ParseAddr_go_hexGroups. by inversion Hgl.
  - destruct (net.groups ip) as [|g [|g' l]]; [done|done|].
    rewrite hexGroups_cons2. apply ParseAddr_go_hex, appendHex_spec.
    by inversion Hlt.
Qed.

(** A 16-byte address that is not an IPv4 address parses back from its
    text as an IPv6 address. *)
Lemma ParseAddr_string6 ip :
  length ip = 16 → net.ParseAddr (net.string6 ip) = Some (net.Addr6 ip).
Proof.
  intros Hlen. unfold net.ParseAddr.
  by rewrite ParseAddr_go_string6, parseIPv6_string6.
Qed.

(** ** Addresses and networks: ParseIP and ParseCIDR after String *)

Lemma To4_length4 ip : length ip = 4 → net.To4 ip = ip.
Proof. intros H. unfold net.To4. by rewrite decide_True. Qed.

Lemma To4_IPv4 a b c d : net.To4 (net.IPv4 a b c d) = [a; b; c; d].
Proof. reflexivity. Qed.

Lemma To4_length16 ip :
  length ip = 16 →
  (net.To4 ip = [] ∧ take 12 ip ≠ net.v4InV6Prefix)
  ∨ (∃ a b c d, ip = net.IPv4 a b c d).
Proof.
  intros Hlen. unfold net.To4, net.IPv4len, net.IPv6len.
  rewrite decide_False by lia.
  destruct (decide (take 12 ip = net.v4InV6Prefix)) as [Hp|Hp].
  - right. rewrite <-(take_drop 12 ip), Hp.
    assert (length (drop 12 ip) = 4) as Hd by (rewrite length_drop; lia).
    destruct (drop 12 ip) as [|a [|b [|c [|d [|]]]]]; try done.
    by exists a, b, c, d.
  - left. split; [|done]. rewrite decide_False; [done|]. by intros [_ ?].
Qed.

Lemma IP_String_length4 a b c d :
  net.IP_String [a; b; c; d] = net.string4 [a; b; c; d].
Proof. reflexivity. Qed.

Lemma IP_String_IPv4 a b c d :
  net.IP_String (net.IPv4 a b c d) = net.string4 [a; b; c; d].
Proof. reflexivity. Qed.

Lemma IP_String_v6 ip :
  length ip = 16 → net.To4 ip = [] → net.IP_String ip = net.string6 ip.
Proof.
  intros Hlen H4. unfold net.IP_String, net.IPv4len, net.IPv6len.
  rewrite H4. rewrite decide_False by lia.
  rewrite decide_False by lia. by rewrite decide_False.
Qed.

(** What [ParseAddr] makes of the text of a 16-byte address. *)
Lemma ParseAddr_IP_String ip :
  length ip = 16 →
  net.ParseAddr (net.IP_String ip) =
    Some (if decide (net.To4 ip = []) then net.Addr6 ip
          else net.Addr4 (net.To4 ip)).
Proof.
  intros Hlen. destruct (To4_length16 ip Hlen) as [[H4 _]|(a & b & c & d & ->)].
  - rewrite IP_String_v6, decide_True by done. by apply ParseAddr_string6.
  - by rewrite IP_String_IPv4, To4_IPv4, decide_False, ParseAddr_string4.
Qed.

(** A 16-byte address parses back from its text. *)
Lemma ParseIP_IP_String ip :
  length ip = 16 → net.ParseIP (net.IP_String ip) = Some ip.
Proof.
  intros Hlen. unfold net.ParseIP. rewrite ParseAddr_IP_String by done.
  destruct (To4_length16 ip Hlen) as [[H4 _]|(a & b & c & d & ->)].
  - by rewrite decide_True.
  - by rewrite To4_IPv4, decide_False.
Qed.

Lemma prefix_ok_range : forallb prefix_ok (N_range 129 0) = true.
Proof. vm_compute. reflexivity. Qed.

Lemma prefix_spec ones bits :
  (bits = 32 ∨ bits = 128)%N → (ones ≤ bits)%N →
  (∃ i, net.dtoi (net.uitoa ones) = Some (ones, i, ""))
  ∧ net.simpleMaskLength (net.CIDRMask ones bits) = Some ones
  ∧ length (net.CIDRMask ones bits) = N.to_nat (bits / 8).
Proof.
  intros Hbits Hones. pose proof prefix_ok_range as H.
  rewrite forallb_forall in H. specialize (H ones).
  unfold prefix_ok in H.
  rewrite !andb_true_iff in H. destruct H as [[[H1 H2] H3] H4].
  { apply list_elem_of_In, elem_of_N_range. lia. }
  apply bool_decide_eq_true_1 in H3, H4.
  split.
  - destruct (net.dtoi _) as [[[n i] [|??]]|]; try done.
    apply N.eqb_eq in H1 as ->. by exists i.
  - destruct Hbits as [-> | ->]; [|done].
    rewrite (proj2 (N.leb_le _ _)) in H2 by done.
    apply andb_prop in H2 as [H2 H2']. by apply bool_decide_eq_true_1 in H2, H2'.
Qed.

Lemma IPNet_String_v4 ip a b c d ones :
  ip = [a; b; c; d] ∨ ip = net.IPv4 a b c d → (ones ≤ 32)%N →
  net.IPNet_String {| net.IP_ := ip; net.Mask_ := net.CIDRMask ones 32 |} =
    net.string4 [a; b; c; d] +:+ "/" +:+ net.uitoa ones.
Proof.
  intros Hip Hones.
  destruct (prefix_spec ones 32) as (_ & Hsimple & Hlen); [by left|done|].
  unfold net.IPNet_String, net.networkNumberAndMask. cbn [net.IP_ net.Mask_].
  assert (net.To4 ip = [a; b; c; d]) as -> by (by destruct Hip as [-> | ->]).
  rewrite decide_False by done. cbn [mbind option_bind].
  unfold net.IPv4len, net.IPv6len. rewrite Hlen.
  rewrite (decide_True (P := N.to_nat (32 / 8) = 4)) by done.
  rewrite decide_True by done. by rewrite Hsimple.
Qed.

Lemma IPNet_String_v6 ip ones :
  length ip = 16 → net.To4 ip = [] → (ones ≤ 128)%N →
  net.IPNet_String {| net.IP_ := ip; net.Mask_ := net.CIDRMask ones 128 |} =
    net.string6 ip +:+ "/" +:+ net.uitoa ones.
Proof.
  intros Hip H4 Hones.
  destruct (prefix_spec ones 128) as (_ & Hsimple & Hlen); [by right|done|].
  unfold net.IPNet_String, net.networkNumberAndMask. cbn [net.IP_ net.Mask_].
  rewrite H4. rewrite decide_True by done.
  unfold net.IPv4len, net.IPv6len.
  rewrite (decide_True (P := length ip = 16)) by done. cbn [mbind option_bind].
  rewrite Hlen, Hip.
  rewrite (decide_False (P := N.to_nat (128 / 8) = 4)) by done.
  rewrite (decide_True (P := N.to_nat (128 / 8) = 16)) by done.
  rewrite (decide_False (P := 16 = 4)) by done.
  by rewrite Hsimple, IP_String_v6.
Qed.

Lemma ParseCIDR_text s ones (addr : net.Addr) :
  all_chars is_addr_char s = true →
  net.ParseAddr s = Some addr →
  (ones ≤ net.BitLen addr)%N →
  net.ParseCIDR (s +:+ "/" +:+ net.uitoa ones) =
    let m := net.CIDRMask ones (net.BitLen addr) in
    Some (net.As16 addr, {| net.IP_ := net.Mask (net.As16 addr) m; net.Mask_ := m |}).
Proof.
  intros Hs Haddr Hones. unfold net.ParseCIDR.
  rewrite cut_slash by done. cbn [mbind option_bind]. rewrite Haddr.
  cbn [mbind option_bind].
  destruct (prefix_spec ones (net.BitLen addr)) as ((i & Hd) & _ & _);
    [destruct addr; auto|done|].
  rewrite Hd. cbn [mbind option_bind].
  rewrite (bool_decide_true ("" = "")) by done. cbn [negb].
  by rewrite (proj2 (N.ltb_ge _ _)) by done.
Qed.

Lemma ParseCIDR_v4 ip a b c d ones :
  ip = [a; b; c; d] ∨ ip = net.IPv4 a b c d → (ones ≤ 32)%N →
  net.ParseCIDR
    (net.IPNet_String {| net.IP_ := ip; net.Mask_ := net.CIDRMask ones 32 |}) =
    Some (net.IPv4 a b c d,
          {| net.IP_ := net.Mask (net.IPv4 a b c d) (net.CIDRMask ones 32);
             net.Mask_ := net.CIDRMask ones 32 |}).
Proof.
  intros Hip Hones. rewrite (IPNet_String_v4 ip a b c d) by done.
  rewrite (ParseCIDR_text _ _ (net.Addr4 [a; b; c; d]));
    [done|apply all_addr_chars_string4|apply ParseAddr_string4|done].
Qed.

Lemma ParseCIDR_v6 ip ones :
  length ip = 16 → net.To4 ip = [] → (ones ≤ 128)%N →
  net.ParseCIDR
    (net.IPNet_String {| net.IP_ := ip; net.Mask_ := net.CIDRMask ones 128 |}) =
    Some (ip, {| net.IP_ := net.Mask ip (net.CIDRMask ones 128);
                 net.Mask_ := net.CIDRMask ones 128 |}).
Proof.
  intros Hlen H4 Hones. rewrite IPNet_String_v6 by done.
  rewrite (ParseCIDR_text _ _ (net.Addr6 ip));
    [done|apply all_addr_chars_string6|by apply ParseAddr_string6|done].
Qed.

Lemma Mask_IPv4 a b c d m :
  length m = 4 → net.Mask (net.IPv4 a b c d) m = net.Mask [a; b; c; d] m.
Proof.
  intros Hm. unfold net.Mask, net.IPv4len, net.IPv6len. rewrite Hm.
  destruct m as [|m0 [|m1 [|m2 [|m3 [|]]]]]; done.
Qed.

(** ** The form of a decoded PodAnnotation *)

Lemma forM_fmap_Ok {E A B} (f : B → result E A) (h : A → B) l :
  Forall (λ x, f (h x) = Ok x) l → forM f (h <$> l) = Ok l.
Proof.
  induction 1 as [|x l Hx _ IH]; [done|].
  cbn [fmap list_fmap forM]. rewrite Hx. cbn. fold (list_fmap _ _ h l).
  change (list_fmap A B h l) with (h <$> l). by rewrite IH.
Qed.

Lemma ParseCIDR_address n :
  parsed_address n →
  ∃ net', net.ParseCIDR (net.IPNet_String n) = Some (net.IP_ n, net')
          ∧ net.Mask_ net' = net.Mask_ n.
Proof.
  destruct n as [ip m]. intros (Hlen & ones & Hones & Hm). simpl in *. subst m.
  unfold bits_of in *.
  destruct (To4_length16 ip Hlen) as [[H4 _]|(a & b & c & d & ->)].
  - rewrite H4, decide_True in * by done.
    rewrite ParseCIDR_v6 by done. by eexists.
  - rewrite To4_IPv4, decide_False in * by done.
    rewrite (ParseCIDR_v4 _ a b c d) by auto. by eexists.
Qed.

Lemma ParseCIDR_network n :
  parsed_network n →
  ∃ ip, net.ParseCIDR (net.IPNet_String n) = Some (ip, n).
Proof.
  destruct n as [ip m]. intros (Hlen & (ones & Hones & Hm) & Hmask).
  simpl in *. subst m. unfold bits_of in *.
  destruct Hlen as [Hlen|[Hlen H4]].
  - rewrite To4_length4 in * by done.
    destruct ip as [|a [|b [|c [|d [|]]]]]; try done.
    rewrite decide_False in * by done.
    rewrite (ParseCIDR_v4 _ a b c d) by auto.
    eexists. do 3 f_equal. rewrite Mask_IPv4; [done|].
    by destruct (prefix_spec ones 32) as (_ & _ & ?); [left|..].
  - rewrite H4, decide_True in * by done.
    rewrite ParseCIDR_v6 by done. eexists. by rewrite Hmask.
Qed.

(** The encoder writes the singular fields so that the decoder reads the
    plural ones. *)
Lemma wireIPs_wire_of pa :
  IPs pa ≠ [] → wireIPs (wire_of pa) = Ok (net.IPNet_String <$> IPs pa).
Proof.
  intros Hne. unfold wireIPs, wire_of. cbn [ip_addresses ip_address].
  destruct (IPs pa) as [|ip0 [|ip1 ips]]; [done|..]; cbn [fmap list_fmap].
  - by rewrite decide_False by (by intros [_ ?]).
  - by rewrite decide_False by (by intros [? _]).
Qed.

Lemma wireGateways_wire_of pa :
  wireGateways (wire_of pa) = Ok (net.IP_String <$> Gateways pa).
Proof.
  unfold wireGateways, wire_of. cbn [gateway_ips gateway_ip].
  destruct (Gateways pa) as [|gw0 [|gw1 gws]]; cbn [fmap list_fmap].
  - rewrite decide_False; [done|]. intros H. apply H. by destruct (IPs pa) as [|? [|]].
  - destruct (IPs pa) as [|? [|]];
      by rewrite decide_False by (by intros [? ?]).
  - rewrite decide_False; [done|]. intros [H _]. apply H.
    by destruct (IPs pa) as [|? [|]].
Qed.

Lemma unmarshalRoute_marshalled r :
  parsed_route r →
  unmarshalRoute {| dest := net.IPNet_String (Dest r);
                    nextHop := from_option net.IP_String "" (NextHop r) |} = Ok r.
Proof.
  destruct r as [dst nh]. intros (Hnet & Hdef & Hnh). simpl in *.
  destruct (ParseCIDR_network dst Hnet) as [ip Hip].
  unfold unmarshalRoute. cbn [dest nextHop]. rewrite Hip.
  unfold default_route in Hdef. simpl in Hdef.
  apply not_true_is_false in Hdef. rewrite Hdef.
  destruct nh as [nh|]; cbn [from_option].
  - destruct Hnh as [Hlen Hfam].
    rewrite decide_True by apply IP_String_nonempty.
    rewrite ParseIP_IP_String by done.
    by rewrite bool_decide_true by done.
  - by rewrite decide_False by (intros H; by apply H).
Qed.

(** Decoding the wire record of a PodAnnotation in parsed form gives the
    PodAnnotation back. *)
Lemma unmarshalWire_wire_of pa : parsed pa → unmarshalWire (wire_of pa) = Ok pa.
Proof.
  intros (Hne & Hips & Hmac & Hgws & Hrs & Hsingle).
  unfold unmarshalWire.
  rewrite wireIPs_wire_of, wireGateways_wire_of by done.
  cbn [mac_address routes wire_of].
  rewrite ParseMAC_String by done. cbn [mbind result_mbind result_bind].
  rewrite (forM_fmap_Ok unmarshalIP); last first.
  { eapply Forall_impl; [exact Hips|]. intros n Hn. unfold unmarshalIP.
    destruct (ParseCIDR_address n Hn) as (net' & -> & ->). by destruct n. }
  cbn [mbind result_mbind result_bind].
  rewrite (forM_fmap_Ok unmarshalGateway); last first.
  { eapply Forall_impl; [exact Hgws|]. intros gw Hgw. unfold unmarshalGateway.
    by rewrite ParseIP_IP_String. }
  cbn [mbind result_mbind result_bind].
  rewrite (forM_fmap_Ok unmarshalRoute); last first.
  { eapply Forall_impl; [exact Hrs|]. intros r Hr.
    by apply unmarshalRoute_marshalled. }
  by destruct pa.
Qed.

(** ** encoding/json: Unmarshal after Marshal *)

Lemma unmarshal_strings_strings l :
  json.unmarshal_strings (json.strings l) = Some l.
Proof.
  unfold json.unmarshal_strings, json.strings.
  induction l as [|x l IH]; [done|].
  cbn [fmap list_fmap mapM json.unmarshal_string mbind option_bind].
  change (list_fmap _ _ json.Str l) with (json.Str <$> l).
  by rewrite IH.
Qed.

Lemma unmarshal_podRoute_marshal r :
  json.unmarshal_podRoute (json.marshal_podRoute r) = Some r.
Proof. by destruct r. Qed.

Lemma unmarshal_podRoutes_marshal rs :
  json.unmarshal_podRoutes (json.Array (json.marshal_podRoute <$> rs)) = Some rs.
Proof.
  unfold json.unmarshal_podRoutes.
  induction rs as [|r rs IH]; [done|].
  cbn [fmap list_fmap mapM mbind option_bind].
  rewrite unmarshal_podRoute_marshal. cbn [mbind option_bind].
  change (list_fmap _ _ json.marshal_podRoute rs) with (json.marshal_podRoute <$> rs).
  by rewrite IH.
Qed.

Lemma podAnnotation_field_ip_addresses a v :
  json.podAnnotation_field a "ip_addresses" v =
    (x ← json.unmarshal_strings v;
     Some {| ip_addresses := x; mac_address := mac_address a;
             gateway_ips := gateway_ips a; routes := routes a;
             ip_address := ip_address a; gateway_ip := gateway_ip a |}).
Proof. reflexivity. Qed.

Lemma podAnnotation_field_mac_address a v :
  json.podAnnotation_field a "mac_address" v =
    (x ← json.unmarshal_string (mac_address a) v;
     Some {| ip_addresses := ip_addresses a; mac_address := x;
             gateway_ips := gateway_ips a; routes := routes a;
             ip_address := ip_address a; gateway_ip := gateway_ip a |}).
Proof. reflexivity. Qed.

Lemma podAnnotation_field_gateway_ips a v :
  json.podAnnotation_field a "gateway_ips" v =
    (x ← json.unmarshal_strings v;
     Some {| ip_addresses := ip_addresses a; mac_address := mac_address a;
             gateway_ips := x; routes := routes a;
             ip_address := ip_address a; gateway_ip := gateway_ip a |}).
Proof. reflexivity. Qed.

Lemma podAnnotation_field_routes a v :
  json.podAnnotation_field a "routes" v =
    (x ← json.unmarshal_podRoutes v;
     Some {| ip_addresses := ip_addresses a; mac_address := mac_address a;
             gateway_ips := gateway_ips a; routes := x;
             ip_address := ip_address a; gateway_ip := gateway_ip a |}).
Proof. reflexivity. Qed.

Lemma podAnnotation_field_ip_address a v :
  json.podAnnotation_field a "ip_address" v =
    (x ← json.unmarshal_string (ip_address a) v;
     Some {| ip_addresses := ip_addresses a; mac_address := mac_address a;
             gateway_ips := gateway_ips a; routes := routes a;
             ip_address := x; gateway_ip := gateway_ip a |}).
Proof. reflexivity. Qed.

Lemma podAnnotation_field_gateway_ip a v :
  json.podAnnotation_field a "gateway_ip" v =
    (x ← json.unmarshal_string (gateway_ip a) v;
     Some {| ip_addresses := ip_addresses a; mac_address := mac_address a;
             gateway_ips := gateway_ips a; routes := routes a;
             ip_address := ip_address a; gateway_ip := x |}).
Proof. reflexivity. Qed.

(** The decoder reads back every wire record that the encoder writes: the
    members left out by [omitempty] are the ones that are empty. *)
Lemma unmarshal_podAnnotation_marshal a :
  json.unmarshal_podAnnotation (json.marshal_podAnnotation a) = Some a.
Proof.
  destruct a as [ips mac gws rs ip gw].
  unfold json.unmarshal_podAnnotation, json.marshal_podAnnotation, json.omitempty.
  cbn [ip_addresses mac_address gateway_ips routes ip_address gateway_ip].
  repeat case_bool_decide; subst;
    cbn [foldl app]; unfold json.unmarshal_member; cbn [fst snd];
    cbn [mbind option_bind];
    repeat (first [ rewrite podAnnotation_field_ip_addresses
                  | rewrite podAnnotation_field_mac_address
                  | rewrite podAnnotation_field_gateway_ips
                  | rewrite podAnnotation_field_routes
                  | rewrite podAnnotation_field_ip_address
                  | rewrite podAnnotation_field_gateway_ip
                  | rewrite unmarshal_strings_strings
                  | rewrite unmarshal_podRoutes_marshal ];
            cbn [mbind option_bind json.unmarshal_string json.unmarshal_strings
                 ip_addresses mac_address gateway_ips routes ip_address gateway_ip]);
    done.
Qed.

Lemma Unmarshal_Marshal_default a :
  json.Unmarshal
    (json.Valid (json.Object [(OvnPodDefaultNetwork, json.marshal_podAnnotation a)])) =
    Some {[ OvnPodDefaultNetwork := a ]}.
Proof.
  unfold json.Unmarshal. cbn [foldl mbind option_bind fst snd].
  rewrite unmarshal_podAnnotation_marshal. cbn [mbind option_bind].
  by rewrite insert_empty.
Qed.

(** The annotation written for a wire record carries that wire record. *)
Lemma carries_marshalled a :
  carries {[ OvnPodAnnotationName :=
               json.Valid (json.Object
                 [(OvnPodDefaultNetwork, json.marshal_podAnnotation a)]) ]} a.
Proof.
  eexists _, _. split_and!.
  - apply lookup_singleton_eq.
  - apply Unmarshal_Marshal_default.
  - by rewrite lookup_singleton_eq.
Qed.

(** ** Examples *)

(** ** Encoding and then decoding *)

Lemma parsed_ex_gateway : parsed ex_gateway.
Proof.
  unfold parsed. split_and!.
  - done.
  - apply Forall_cons. split; [split; [done | by exists 24%N]|]. constructor.
  - by left.
  - by repeat apply Forall_cons_2.
  - constructor.
  - unfold single_stack_many_gateways. simpl. lia.
Qed.

(** ** What the parsers return *)

Lemma mac3_length n s sep hw : net.mac3 n s sep = Some hw → length hw = n.
Proof.
  revert s hw. induction n as [|n IH]; intros s hw; cbn [net.mac3].
  - by intros [= <-].
  - destruct (net.xtoi2 s sep); cbn [mbind option_bind]; [|done].
    destruct (net.mac3 n (sdrop 3 s) sep) eqn:Hrec; cbn [mbind option_bind]; [|done].
    intros [= <-]. simpl. f_equal. by eapply IH.
Qed.

Lemma mac5_length n s sep hw : net.mac5 n s sep = Some hw → length hw = 2 * n.
Proof.
  revert s hw. induction n as [|n IH]; intros s hw; cbn [net.mac5].
  - by intros [= <-].
  - destruct (net.xtoi2 (stake 2 s) _); cbn [mbind option_bind]; [|done].
    destruct (net.xtoi2 (sdrop 2 s) sep); cbn [mbind option_bind]; [|done].
    destruct (net.mac5 n (sdrop 5 s) sep) eqn:Hrec; cbn [mbind option_bind]; [|done].
    intros [= <-]. simpl. apply IH in Hrec. lia.
Qed.

Lemma ParseMAC_length s hw :
  net.ParseMAC s = Some hw → length hw = 6 ∨ length hw = 8 ∨ length hw = 20.
Proof.
  unfold net.ParseMAC. case_bool_decide; [done|].
  destruct (_ || _).
  - case_bool_decide; [|done]. cbn [negb].
    case_bool_decide as Hn; [|done]. cbn [negb].
    intros Hm%mac3_length. by rewrite Hm.
  - case_bool_decide; [|done].
    case_bool_decide; [|done]. cbn [negb].
    case_bool_decide as Hn; [|done]. cbn [negb].
    intros Hm%mac5_length. rewrite Hm.
    destruct Hn as [-> | [-> | ->]]; simpl; auto.
Qed.

Lemma parseIPv4Fields_length s val digLen fields p :
  net.parseIPv4Fields s val digLen fields = Some p →
  length fields ≤ 3 → length p = 4.
Proof.
  revert val digLen fields. induction s as [|c s IH]; intros val digLen fields.
  - cbn [net.parseIPv4Fields]. case_bool_decide; [done|].
    intros [= <-] Hf. rewrite length_app. simpl. lia.
  - cbn [net.parseIPv4Fields]. destruct (decval c).
    + destruct (_ && _); [done|]. destruct (_ <? _)%N; [done|]. apply IH.
    + case_decide; [|done]. destruct (_ || _); [done|].
      case_bool_decide; [done|]. intros Hp Hf. eapply IH; [done|].
      rewrite length_app. simpl. lia.
Qed.

Lemma parseIPv4_length s p : net.parseIPv4 s = Some p → length p = 4.
Proof. intros H. eapply parseIPv4Fields_length; [done|]. simpl. lia. Qed.

Lemma parseIPv6_loop_length scan parse4 fuel ip ellipsis s ip' ellipsis' :
  (∀ s p, parse4 s = Some p → length p = 4) →
  net.parseIPv6_loop scan parse4 fuel ip ellipsis s = Some (ip', ellipsis') →
  length ip + 2 * fuel ≤ 16 → length ip' ≤ 16.
Proof.
  intros H4. revert ip ellipsis s.
  induction fuel as [|fuel IH]; intros ip ellipsis s; cbn [net.parseIPv6_loop].
  - case_decide; [|done]. intros [= <- <-]. lia.
  - destruct (scan s) as [[v rest]|]; cbn [mbind option_bind]; [|done].
    case_bool_decide.
    + destruct (_ && _); [done|]. case_bool_decide; [done|].
      destruct (parse4 s) as [p|] eqn:Hp; cbn [mbind option_bind]; [|done].
      intros [= <- <-] _. rewrite length_app, (H4 _ _ Hp). lia.
    + assert (∀ x y, length (ip ++ [x; y]) = length ip + 2) as Hl
        by (intros; rewrite length_app; simpl; lia).
      destruct rest as [|c r].
      * intros [= <- <-] ?. rewrite Hl. lia.
      * destruct (_ || _); [done|]. case_bool_decide.
        -- case_bool_decide; [done|]. case_decide.
           ++ intros [= <- <-] ?. rewrite Hl. lia.
           ++ intros Hrec ?. eapply IH; [done|]. rewrite Hl. lia.
        -- intros Hrec ?. eapply IH; [done|]. rewrite Hl. lia.
Qed.

Lemma parseIPv6_with_length scan parse4 s ip :
  (∀ s p, parse4 s = Some p → length p = 4) →
  net.parseIPv6_with scan parse4 s = Some ip → length ip = 16.
Proof.
  intros H4. unfold net.parseIPv6_with.
  assert (∀ r, r ≫= net.expand = Some ip →
               (∀ ip' e, r = Some (ip', e) → length ip' ≤ 16) → length ip = 16)
    as Hexp.
  { intros [[ip' e]|]; cbn [mbind option_bind]; [|done].
    intros He Hle. specialize (Hle ip' e eq_refl). unfold net.expand in He.
    case_bool_decide.
    - destruct e as [e|]; cbn [mbind option_bind] in He; [|done].
      injection He as <-.
      rewrite !length_app, length_replicate, length_take, length_drop. lia.
    - case_bool_decide; [done|]. injection He as <-. lia. }
  case_bool_decide.
  - case_decide; [by intros [= <-]|].
    intros He. apply (Hexp _ He). intros ip' e Hl.
    eapply parseIPv6_loop_length; [done..|]. simpl. lia.
  - intros He. apply (Hexp _ He). intros ip' e Hl.
    eapply parseIPv6_loop_length; [done..|]. simpl. lia.
Qed.

Lemma ParseAddr_ok s addr : net.ParseAddr s = Some addr → addr_ok addr.
Proof.
  unfold net.ParseAddr. generalize s at 2. intros whole.
  induction s as [|c s IH]; cbn [net.ParseAddr_go]; [done|].
  repeat case_decide; try done.
  - destruct (net.parseIPv4 whole) eqn:H4; [|done]. intros [= <-].
    by eapply parseIPv4_length.
  - destruct (net.parseIPv6 whole) eqn:H6; [|done]. intros [= <-].
    eapply parseIPv6_with_length; [|exact H6]. apply parseIPv4_length.
Qed.

Lemma length_As16 addr : addr_ok addr → length (net.As16 addr) = 16.
Proof.
  destruct addr; cbn [addr_ok net.As16]; [|done].
  intros H. by rewrite length_app, H.
Qed.

Lemma ParseIP_length s ip : net.ParseIP s = Some ip → length ip = 16.
Proof.
  unfold net.ParseIP. destruct (net.ParseAddr s) eqn:Ha; [|done].
  intros [= <-]. by eapply length_As16, ParseAddr_ok.
Qed.

(** What [ParseCIDR] returns: the 16-byte address, and the network made of
    the address under the mask of the prefix length. *)
Lemma ParseCIDR_shape s ip n :
  net.ParseCIDR s = Some (ip, n) →
  ∃ addr ones, addr_ok addr ∧ ip = net.As16 addr ∧ (ones ≤ net.BitLen addr)%N
    ∧ n = {| net.IP_ := net.Mask ip (net.CIDRMask ones (net.BitLen addr));
             net.Mask_ := net.CIDRMask ones (net.BitLen addr) |}.
Proof.
  unfold net.ParseCIDR.
  destruct (cut "/" s) as [[a m]|]; cbn [mbind option_bind]; [|done].
  destruct (net.ParseAddr a) as [addr|] eqn:Ha; cbn [mbind option_bind]; [|done].
  destruct (net.dtoi m) as [[[ones i] rest]|]; cbn [mbind option_bind]; [|done].
  destruct (negb _); [done|].
  destruct (N.ltb_spec (net.BitLen addr) ones); [done|].
  intros [= <- <-]. exists addr, ones. split_and!; try done.
  by eapply ParseAddr_ok.
Qed.

(** ** Only the parsed form is decoded to itself *)

Lemma forM_fmap_Ok_inv {E A B} (f : B → result E A) (h : A → B) l :
  forM f (h <$> l) = Ok l → Forall (λ x, f (h x) = Ok x) l.
Proof.
  induction l as [|x l IH]; [constructor|].
  cbn [fmap list_fmap forM]. change (list_fmap A B h l) with (h <$> l).
  destruct (f (h x)) as [y|] eqn:Hx; cbn [mbind result_mbind result_bind]; [|done].
  destruct (forM f (h <$> l)) as [ys|] eqn:Hl;
    cbn [mbind result_mbind result_bind]; [|done].
  intros [= -> ->]. constructor; [done|]. by apply IH.
Qed.

Lemma to_N_byte_of_N n : Byte.to_N (byte_of_N n) = (n mod 256)%N.
Proof.
  unfold byte_of_N. destruct (Byte.of_N (n mod 256)) as [b|] eqn:Hb; simpl.
  - by apply Byte.to_of_N.
  - apply Byte.of_N_None_iff in Hb. lia.
Qed.

Lemma and_byte_idemp x y : net.and_byte (net.and_byte x y) y = net.and_byte x y.
Proof.
  unfold net.and_byte. rewrite to_N_byte_of_N.
  pose proof (Byte.to_N_bounded x) as Hx.
  pose proof (N.land_le_l (Byte.to_N x) (Byte.to_N y)) as Hle.
  rewrite N.mod_small by lia.
  by rewrite <-N.land_assoc, N.land_diag.
Qed.

Lemma zip_with_and_byte_idemp ip m :
  zip_with net.and_byte (zip_with net.and_byte ip m) m = zip_with net.and_byte ip m.
Proof.
  revert m. induction ip as [|x ip IH]; intros [|y m]; simpl; [done..|].
  by rewrite and_byte_idemp, IH.
Qed.

Lemma Mask_same_length ip m :
  length ip = length m →
  net.Mask ip m = zip_with net.and_byte ip m.
Proof.
  intros Hl. unfold net.Mask, net.IPv4len, net.IPv6len.
  rewrite (decide_False (P := length m = 16 ∧ length ip = 4)) by lia.
  rewrite (decide_False (P := length m = 4 ∧ length ip = 16)) by lia.
  by rewrite decide_True.
Qed.

Lemma Mask_As16_Addr4 b m :
  length b = 4 → length m = 4 →
  net.Mask (net.v4InV6Prefix ++ b) m = zip_with net.and_byte b m.
Proof.
  intros Hb Hm.
  destruct b as [|b0 [|b1 [|b2 [|b3 [|]]]]]; try done.
  rewrite (Mask_IPv4 b0 b1 b2 b3) by done. by apply Mask_same_length.
Qed.

Lemma prefix128_spec ones :
  (ones ≤ 128)%N →
  ∃ l, (l ≤ 32)%N
       ∧ net.simpleMaskLength (drop 12 (net.CIDRMask ones 128)) = Some l.
Proof.
  intros Hones.
  assert (forallb prefix128_ok (N_range 129 0) = true) as H
    by (vm_compute; reflexivity).
  rewrite forallb_forall in H. specialize (H ones).
  unfold prefix128_ok in H.
  destruct (net.simpleMaskLength _) as [l|].
  - exists l. split; [|done]. apply N.leb_le, H.
    apply list_elem_of_In, elem_of_N_range. lia.
  - exfalso. assert (false = true); [|done]. apply H.
    apply list_elem_of_In, elem_of_N_range. lia.
Qed.

Lemma ParseCIDR_v4_mask16 a b c d ones :
  (ones ≤ 128)%N →
  ∃ l, net.ParseCIDR
         (net.IPNet_String {| net.IP_ := net.IPv4 a b c d;
                              net.Mask_ := net.CIDRMask ones 128 |}) =
       Some (net.IPv4 a b c d,
             {| net.IP_ := net.Mask (net.IPv4 a b c d) (net.CIDRMask l 32);
                net.Mask_ := net.CIDRMask l 32 |}).
Proof.
  intros Hones. destruct (prefix128_spec ones Hones) as (l & Hl & Hsimple).
  exists l.
  destruct (prefix_spec ones 128) as (_ & _ & Hlen); [by right|done|].
  unfold net.IPNet_String, net.networkNumberAndMask. cbn [net.IP_ net.Mask_].
  rewrite To4_IPv4. rewrite decide_False by done. cbn [mbind option_bind].
  unfold net.IPv4len, net.IPv6len. rewrite Hlen.
  rewrite (decide_False (P := N.to_nat (128 / 8) = 4)) by done.
  rewrite (decide_True (P := N.to_nat (128 / 8) = 16)) by done.
  rewrite decide_True by done. rewrite Hsimple.
  rewrite IP_String_length4.
  rewrite (ParseCIDR_text _ _ (net.Addr4 [a; b; c; d]));
    [done|apply all_addr_chars_string4|apply ParseAddr_string4|done].
Qed.

Lemma length_CIDRMask ones bits :
  (bits = 32 ∨ bits = 128)%N → (ones ≤ bits)%N →
  length (net.CIDRMask ones bits) = N.to_nat (bits / 8).
Proof. intros. by apply prefix_spec. Qed.

(** An address that is decoded from its own text is in parsed form. *)
Lemma parsed_address_of_roundtrip n ip net' :
  net.ParseCIDR (net.IPNet_String n) = Some (ip, net') →
  n = {| net.IP_ := ip; net.Mask_ := net.Mask_ net' |} →
  parsed_address n.
Proof.
  intros Hp Hn.
  destruct (ParseCIDR_shape _ _ _ Hp) as (addr & ones & Hok & Hip & Hones & Hnet').
  rewrite Hnet' in Hn. cbn [net.Mask_] in Hn.
  pose proof (length_As16 addr Hok) as Hlen. rewrite <-Hip in Hlen.
  unfold parsed_address. rewrite Hn. cbn [net.IP_ net.Mask_].
  split; [done|]. exists ones. unfold bits_of.
  destruct addr as [b|b]; cbn [net.BitLen net.As16 addr_ok] in *.
  - destruct b as [|b0 [|b1 [|b2 [|b3 [|]]]]]; try done.
    rewrite Hip. change (net.v4InV6Prefix ++ [b0; b1; b2; b3])
      with (net.IPv4 b0 b1 b2 b3).
    by rewrite To4_IPv4, decide_False.
  - subst b. destruct (To4_length16 ip Hlen) as [[H4 _]|(a & b & c & d & ->)].
    + by rewrite H4, decide_True.
    + exfalso. rewrite Hn in Hp.
      destruct (ParseCIDR_v4_mask16 a b c d ones Hones) as (l & Hl).
      rewrite Hl in Hp. injection Hp as Hp. rewrite Hnet' in Hp.
      injection Hp as _ Hm. apply (f_equal length) in Hm.
      rewrite (length_CIDRMask ones 128) in Hm by auto.
      destruct (N.le_gt_cases l 32) as [Hl32|Hl32].
      * by rewrite (length_CIDRMask l 32) in Hm by auto.
      * unfold net.CIDRMask in Hm. cbn [N.eqb orb negb] in Hm.
        by rewrite (proj2 (N.ltb_lt _ _)) in Hm by done.
Qed.

(** A network that is decoded from its own text is in parsed form. *)
Lemma parsed_network_of_roundtrip n ip :
  net.ParseCIDR (net.IPNet_String n) = Some (ip, n) → parsed_network n.
Proof.
  intros Hp.
  destruct (ParseCIDR_shape _ _ _ Hp) as (addr & ones & Hok & Hip & Hones & Hn).
  pose proof (length_As16 addr Hok) as Hlen. rewrite <-Hip in Hlen.
  destruct addr as [b|b]; cbn [net.BitLen net.As16 addr_ok] in *.
  - assert (length (net.CIDRMask ones 32) = 4) as Hm
      by (by rewrite (length_CIDRMask ones 32) by auto).
    rewrite Hip, Mask_As16_Addr4 in Hn by done.
    assert (length (net.IP_ n) = 4) as Hl.
    { rewrite Hn. cbn [net.IP_]. rewrite length_zip_with. lia. }
    unfold parsed_network, bits_of. rewrite To4_length4 by done.
    rewrite decide_False by (intros H0; by rewrite H0 in Hl).
    split; [by left|]. rewrite Hn. cbn [net.IP_ net.Mask_].
    split; [by exists ones|].
    rewrite Mask_same_length by (rewrite length_zip_with; lia).
    apply zip_with_and_byte_idemp.
  - subst b.
    assert (length (net.CIDRMask ones 128) = 16) as Hm
      by (by rewrite (length_CIDRMask ones 128) by auto).
    rewrite Mask_same_length in Hn by lia.
    assert (length (net.IP_ n) = 16) as Hl.
    { rewrite Hn. cbn [net.IP_]. rewrite length_zip_with. lia. }
    destruct (To4_length16 _ Hl) as [[H4 _]|(a & b & c & d & Hv4)].
    + unfold parsed_network, bits_of. rewrite H4, decide_True by done.
      split; [by right|]. rewrite Hn. cbn [net.IP_ net.Mask_].
      split; [by exists ones|].
      rewrite Mask_same_length by (rewrite length_zip_with; lia).
      apply zip_with_and_byte_idemp.
    + exfalso.
      assert (n = {| net.IP_ := net.IPv4 a b c d;
                     net.Mask_ := net.CIDRMask ones 128 |}) as Hn'.
      { rewrite Hn in Hv4 |- *. cbn [net.IP_] in Hv4. by rewrite Hv4. }
      rewrite Hn' in Hp at 1.
      destruct (ParseCIDR_v4_mask16 a b c d ones Hones) as (l & Hl').
      rewrite Hl' in Hp. injection Hp as _ Hp. rewrite Hn' in Hp.
      injection Hp as _ Hp. apply (f_equal length) in Hp. rewrite Hm in Hp.
      destruct (N.le_gt_cases l 32) as [Hl32|Hl32].
      * by rewrite (length_CIDRMask l 32) in Hp by auto.
      * unfold net.CIDRMask in Hp. cbn [N.eqb orb negb] in Hp.
        by rewrite (proj2 (N.ltb_lt _ _)) in Hp by done.
Qed.

Lemma marshalWire_Ok_inv pa a :
  marshalWire pa = Ok a →
  ¬ single_stack_many_gateways pa
  ∧ Forall (λ r, ¬ default_route r) (Routes pa)
  ∧ a = wire_of pa.
Proof.
  intros Hw.
  destruct (decide (single_stack_many_gateways pa)) as [Hgw|Hgw].
  { by rewrite marshalWire_Err_gateways in Hw. }
  destruct (decide (Exists default_route (Routes pa))) as [Hex|Hex].
  { destruct (marshalWire_Err_route pa Hgw Hex) as (r & _ & _ & Hr).
    by rewrite Hr in Hw. }
  apply not_Exists_Forall in Hex; [|apply _].
  split; [done|]. split; [done|].
  rewrite marshalWire_Ok in Hw by done. by injection Hw.
Qed.

Lemma parsed_route_of_roundtrip r :
  unmarshalRoute {| dest := net.IPNet_String (Dest r);
                    nextHop := from_option net.IP_String "" (NextHop r) |} = Ok r →
  parsed_route r.
Proof.
  unfold unmarshalRoute. cbn [dest nextHop].
  destruct (net.ParseCIDR _) as [[ip routeDest]|] eqn:Hp; [|done].
  destruct (net.IsUnspecified (net.IP_ routeDest)) eqn:Hu; [done|].
  destruct r as [dst [nh|]]; cbn [from_option Dest NextHop] in *.
  - rewrite decide_True by apply IP_String_nonempty.
    destruct (net.ParseIP _) as [nh'|] eqn:Hnh; [|done].
    case_bool_decide as Hfam; [|done]. cbn [negb]. intros [= -> ->].
    unfold parsed_route, default_route. cbn [Dest NextHop]. split_and!.
    + by eapply parsed_network_of_roundtrip.
    + by rewrite Hu.
    + by eapply ParseIP_length.
    + done.
  - rewrite decide_False by (intros H; by apply H). intros [= ->].
    unfold parsed_route, default_route. cbn [Dest NextHop]. split_and!.
    + by eapply parsed_network_of_roundtrip.
    + by rewrite Hu.
    + done.
Qed.

(** A PodAnnotation that is decoded from its own wire record is in parsed
    form. *)
Lemma parsed_of_roundtrip pa :
  ¬ single_stack_many_gateways pa →
  unmarshalWire (wire_of pa) = Ok pa → parsed pa.
Proof.
  intros Hgw Hu. pose proof (unmarshalWire_IPs _ _ Hu) as Hne.
  unfold unmarshalWire in Hu.
  rewrite wireIPs_wire_of, wireGateways_wire_of in Hu by done.
  cbn [mac_address routes wire_of] in Hu.
  destruct (net.ParseMAC _) as [mac'|] eqn:Hmac;
    cbn [mbind result_mbind result_bind] in Hu; [|done].
  destruct (forM unmarshalIP _) as [ips'|] eqn:Hips;
    cbn [mbind result_mbind result_bind] in Hu; [|done].
  destruct (forM unmarshalGateway _) as [gws'|] eqn:Hgws;
    cbn [mbind result_mbind result_bind] in Hu; [|done].
  destruct (forM unmarshalRoute _) as [rs'|] eqn:Hrs;
    cbn [mbind result_mbind result_bind] in Hu; [|done].
  destruct pa as [ips mac gws rs]. injection Hu as -> -> -> ->.
  cbn [IPs MAC Gateways Routes] in *.
  apply ParseMAC_length in Hmac.
  apply forM_fmap_Ok_inv in Hips, Hgws, Hrs.
  unfold parsed. cbn [IPs MAC Gateways Routes]. split_and!; [done| |done| | |done].
  - eapply Forall_impl; [exact Hips|]. intros n Hn. unfold unmarshalIP in Hn.
    destruct (net.ParseCIDR _) as [[ip net']|] eqn:Hp; [|done].
    injection Hn as Hn. by eapply parsed_address_of_roundtrip.
  - eapply Forall_impl; [exact Hgws|]. intros gw Hgw'.
    unfold unmarshalGateway in Hgw'.
    destruct (net.ParseIP _) as [gw'|] eqn:Hp; [|done].
    injection Hgw' as ->. by eapply ParseIP_length.
  - eapply Forall_impl; [exact Hrs|]. intros r Hr.
    by apply parsed_route_of_roundtrip.
Qed.

(** * The claims *)

(** ** C10 *)

(** C10. MarshalPodAnnotation returns an error in exactly two cases: one IP
    with more than one gateway, or a route whose destination is the
    unspecified address.  With no IP at all the gateways are never counted:
    whatever their number, the encoding succeeds as long as no route is a
    default route; the codec never checks that there is an IP. *)
Theorem marshal_fails_only_on_gateways_or_default_route (pa : PodAnnotation) :
  (is_Err (MarshalPodAnnotation pa) ↔
     single_stack_many_gateways pa ∨ Exists default_route (Routes pa))
  ∧ (IPs pa = [] → Forall (λ r, ¬ default_route r) (Routes pa) →
     is_Ok (MarshalPodAnnotation pa)).
Proof.
  rewrite MarshalPodAnnotation_wire. split; [split|].
  - intros [e He].
    destruct (decide (single_stack_many_gateways pa)) as [|Hgw]; [by left|].
    right. apply Exists_exists.
    destruct (marshalWire pa) as [a|e'] eqn:Hw; [done|].
    unfold marshalWire in Hw.
    destruct (forM marshalRoute (Routes pa)) as [rs|e''] eqn:Hrs.
    + exfalso. unfold single_stack_many_gateways in Hgw.
      destruct (IPs pa) as [|ip0 [|]]; simpl in *; try done.
      destruct (Gateways pa) as [|gw0 [|]]; simpl in *; try done.
      apply Hgw. split; lia.
    + apply forM_marshalRoute_Err in Hrs as (r & Hin & Hr & _). eauto.
  - intros [Hgw|Hrs].
    + rewrite marshalWire_Err_gateways by done. by eexists.
    + destruct (decide (single_stack_many_gateways pa)) as [Hgw|Hgw].
      * rewrite marshalWire_Err_gateways by done. by eexists.
      * destruct (marshalWire_Err_route pa Hgw Hrs) as (r & _ & _ & ->).
        by eexists.
  - intros Hips Hrs. rewrite marshalWire_Ok; [by eexists| |done].
    unfold single_stack_many_gateways. rewrite Hips. simpl. lia.
Qed.

Lemma marshal_fails_only_on_gateways_or_default_route_witness :
  is_Ok (MarshalPodAnnotation ex_no_ip).
Proof.
  apply (marshal_fails_only_on_gateways_or_default_route ex_no_ip).
  - reflexivity.
  - constructor.
Defined.

(** ** C3 *)

(** C3, as stated, fails: with two IPs and one gateway the encoder leaves
    [gateway_ip] empty, and the member is left out of the JSON object,
    although there is exactly one gateway. *)
Lemma gateway_ip_omitted_dual_stack :
  length (Gateways ex_dual_one_gateway) = 1
  ∧ ∃ a, marshalWire ex_dual_one_gateway = Ok a
         ∧ gateway_ip a = ""
         ∧ gateway_ips a = ["192.168.0.1"]
         ∧ json.has_member "gateway_ip" (json.marshal_podAnnotation a) = false
         ∧ MarshalPodAnnotation ex_dual_one_gateway =
             Ok (annotated (json.Object
                   [("default", json.marshal_podAnnotation a)])).
Proof.
  split; [reflexivity|]. eexists. split; [vm_compute; reflexivity|].
  split_and!; [reflexivity..|].
  rewrite MarshalPodAnnotation_wire. reflexivity.
Qed.

Lemma has_member_ip_address a :
  json.has_member "ip_address" (json.marshal_podAnnotation a)
  = negb (bool_decide (ip_address a = "")).
Proof.
  unfold json.marshal_podAnnotation, json.omitempty.
  by repeat case_bool_decide.
Qed.

Lemma has_member_gateway_ip a :
  json.has_member "gateway_ip" (json.marshal_podAnnotation a)
  = negb (bool_decide (gateway_ip a = "")).
Proof.
  unfold json.marshal_podAnnotation, json.omitempty.
  by repeat case_bool_decide.
Qed.

(** C3, amended.  When the encoding succeeds, the annotation holds the
    wire record of the default network, in which [ip_address] is set, and
    written, exactly when there is one IP, and [gateway_ip] exactly when
    there is one IP and one gateway.  With one IP and more than one
    gateway the encoding fails with the error "single-stack network can
    only have a single gateway". *)
Theorem singular_fields_emitted (pa : PodAnnotation) :
  (∀ m, MarshalPodAnnotation pa = Ok m →
     ∃ a, marshalWire pa = Ok a
       ∧ m = annotated (json.Object [("default", json.marshal_podAnnotation a)])
       ∧ (ip_address a ≠ "" ↔ length (IPs pa) = 1)
       ∧ (gateway_ip a ≠ "" ↔ length (IPs pa) = 1 ∧ length (Gateways pa) = 1)
       ∧ (json.has_member "ip_address" (json.marshal_podAnnotation a) = true
          ↔ length (IPs pa) = 1)
       ∧ (json.has_member "gateway_ip" (json.marshal_podAnnotation a) = true
          ↔ length (IPs pa) = 1 ∧ length (Gateways pa) = 1))
  ∧ (length (IPs pa) = 1 → 1 < length (Gateways pa) →
     MarshalPodAnnotation pa = Err ErrSingleGateway
     ∧ kind_of ErrSingleGateway = InvalidConfig
     ∧ format ErrSingleGateway =
         "bad podNetwork data: single-stack network can only have a single gateway").
Proof.
  split.
  - intros m. rewrite MarshalPodAnnotation_wire.
    destruct (marshalWire pa) as [a|e] eqn:Hw; [|done].
    intros [= <-]. exists a. split; [done|]. split; [done|].
    assert ((ip_address a ≠ "" ↔ length (IPs pa) = 1)
            ∧ (gateway_ip a ≠ "" ↔ length (IPs pa) = 1 ∧ length (Gateways pa) = 1))
      as [Hip Hgw].
    { unfold marshalWire in Hw.
      destruct (forM marshalRoute (Routes pa)) as [rs|e];
        destruct (IPs pa) as [|ip0 [|ip1 ips]];
        destruct (Gateways pa) as [|gw0 [|gw1 gws]];
        simpl in Hw; simplify_eq; simpl;
        pose proof (IP_String_nonempty); pose proof (IPNet_String_nonempty);
        split; split; intros; try done; try lia; naive_solver lia. }
    split_and!; [done|done| |].
    + rewrite has_member_ip_address, negb_true_iff, bool_decide_eq_false. done.
    + rewrite has_member_gateway_ip, negb_true_iff, bool_decide_eq_false. done.
  - intros H1 H2. rewrite MarshalPodAnnotation_wire.
    by rewrite marshalWire_Err_gateways.
Qed.

Lemma singular_fields_emitted_witness :
  MarshalPodAnnotation ex_two_gateways = Err ErrSingleGateway
  ∧ kind_of ErrSingleGateway = InvalidConfig
  ∧ format ErrSingleGateway =
      "bad podNetwork data: single-stack network can only have a single gateway".
Proof.
  apply (singular_fields_emitted ex_two_gateways).
  - reflexivity.
  - simpl. lia.
Defined.

(** ** C4 *)

(** C4. A wire record in which [ip_address] is set and differs from the
    first of [ip_addresses], or [gateway_ip] from the first of
    [gateway_ips], is rejected with an error of the InvalidConfig class:
    the conflict error itself when nothing before the check fails.  The
    record with [ip_address] 10.0.0.1/24 and [ip_addresses] 10.0.0.2/24 is
    rejected for the conflict. *)
Theorem conflict_rejected (annotations : gmap string json.text) (a : podAnnotation) :
  carries annotations a →
  ip_conflict a ∨ gateway_conflict a →
  (∃ e, UnmarshalPodAnnotation annotations = Err e ∧ kind_of e = InvalidConfig)
  ∧ (ip_conflict a → is_Some (net.ParseMAC (mac_address a)) →
     UnmarshalPodAnnotation annotations = Err ErrIPConflict)
  ∧ UnmarshalPodAnnotation (annotated ex_conflict) = Err ErrIPConflict.
Proof.
  intros Hc Hconf. rewrite (UnmarshalPodAnnotation_carries _ _ Hc).
  split_and!; [| |vm_compute; reflexivity].
  - assert (is_Err (unmarshalWire a)) as [e He].
    { destruct Hconf as [H|H].
      - by apply unmarshalWire_Err_ip_conflict.
      - by apply unmarshalWire_Err_gateway_conflict. }
    exists e. split; [done|]. by eapply unmarshalWire_kind.
  - intros H. by apply unmarshalWire_Err_ip_conflict.
Qed.

Lemma conflict_rejected_witness :
  ∃ e, UnmarshalPodAnnotation (annotated ex_conflict) = Err e
       ∧ kind_of e = InvalidConfig.
Proof.
  refine (proj1 (conflict_rejected (annotated ex_conflict)
    {| ip_addresses := ["10.0.0.2/24"]; mac_address := "0a:58:fd:98:00:01";
       gateway_ips := []; routes := []; ip_address := "10.0.0.1/24";
       gateway_ip := "" |} _ _)).
  - eexists _, _. split_and!; [reflexivity|vm_compute; reflexivity|reflexivity].
  - left. by eexists _, _.
Defined.

(** ** C7 *)

(** C7. When the annotation value decodes and has no entry for the network
    "default", decoding goes on with the zero record: the result is that of
    the checks on the zero record, which fail on the missing MAC, and no
    error of its own is made for the missing entry. *)
Theorem missing_default_entry_is_empty_record
    (annotations : gmap string json.text) (ovnAnnotation : json.text)
    (podNetworks : gmap string podAnnotation) :
  annotations !! OvnPodAnnotationName = Some ovnAnnotation →
  json.Unmarshal ovnAnnotation = Some podNetworks →
  podNetworks !! OvnPodDefaultNetwork = None →
  UnmarshalPodAnnotation annotations = unmarshalWire podAnnotation_zero
  ∧ UnmarshalPodAnnotation annotations = Err (ErrParseMAC "")
  ∧ kind_of (ErrParseMAC "") = InvalidConfig
  ∧ format (ErrParseMAC "") = "failed to parse pod MAC %q: %v".
Proof.
  intros Hv Hm Hd. unfold UnmarshalPodAnnotation. rewrite Hv, Hm, Hd. done.
Qed.

Lemma missing_default_entry_is_empty_record_witness :
  UnmarshalPodAnnotation (annotated ex_no_default) = Err (ErrParseMAC "").
Proof.
  refine (proj1 (proj2 (missing_default_entry_is_empty_record
    (annotated ex_no_default) (json.Valid ex_no_default)
    {[ "other" := {| ip_addresses := ["10.0.0.2/24"];
                     mac_address := "0a:58:fd:98:00:01";
                     gateway_ips := []; routes := []; ip_address := "";
                     gateway_ip := "" |} ]} _ _ _))).
  - reflexivity.
  - vm_compute. reflexivity.
  - vm_compute. reflexivity.
Defined.

(** ** C6 *)

(** C6. A route of the wire record whose next hop is set and parses is
    rejected with an error of the InvalidConfig class when the next hop and
    the destination are of different families: the family error itself when
    the record is valid up to this route and the destination is not the
    unspecified address.  When the families are the same the route is
    accepted, and it is in the routes of the result when the rest of the
    record is valid. *)
Theorem next_hop_family_checked
    (annotations : gmap string json.text) (a : podAnnotation)
    (pre post : list podRoute) (r : podRoute)
    (ip : net.IP) (routeDest : net.IPNet) (nh : net.IP) :
  carries annotations a →
  routes a = pre ++ r :: post →
  net.ParseCIDR (dest r) = Some (ip, routeDest) →
  nextHop r ≠ "" →
  net.ParseIP (nextHop r) = Some nh →
  (utilnet.IsIPv6 nh ≠ utilnet.IsIPv6CIDR routeDest →
     (∃ e, UnmarshalPodAnnotation annotations = Err e ∧ kind_of e = InvalidConfig)
     ∧ (is_Ok (unmarshalWire (set_routes a pre)) →
        net.IsUnspecified (net.IP_ routeDest) = false →
        UnmarshalPodAnnotation annotations =
          Err (ErrNextHopFamily (dest r) (nextHop r))))
  ∧ (utilnet.IsIPv6 nh = utilnet.IsIPv6CIDR routeDest →
     net.IsUnspecified (net.IP_ routeDest) = false →
     unmarshalRoute r = Ok {| Dest := routeDest; NextHop := Some nh |}
     ∧ (is_Ok (unmarshalWire (set_routes a (pre ++ post))) →
        ∃ pa, UnmarshalPodAnnotation annotations = Ok pa
              ∧ {| Dest := routeDest; NextHop := Some nh |} ∈ Routes pa)).
Proof.
  intros Hc Hrs Hdest Hnh Hparse.
  rewrite (UnmarshalPodAnnotation_carries _ _ Hc). split.
  - intros Hfam.
    assert (is_Err (unmarshalRoute r)) as [e He].
    { destruct (net.IsUnspecified (net.IP_ routeDest)) eqn:Hu.
      - erewrite unmarshalRoute_default by done. by eexists.
      - erewrite unmarshalRoute_family by done.
        rewrite bool_decide_false by done. by eexists. }
    destruct (unmarshalWire_route_Err a pre r post e Hrs He) as [[e' He'] Hfirst].
    split.
    + exists e'. split; [done|]. by eapply unmarshalWire_kind.
    + intros Hpre Hu. rewrite (Hfirst Hpre). f_equal.
      erewrite unmarshalRoute_family in He by done.
      rewrite bool_decide_false in He by done. by injection He.
  - intros Hfam Hu.
    assert (unmarshalRoute r = Ok {| Dest := routeDest; NextHop := Some nh |}) as Hr.
    { erewrite unmarshalRoute_family by done. by rewrite bool_decide_true. }
    split; [done|]. intros [pa' Hpa'].
    by eapply unmarshalWire_route_Ok.
Qed.

Lemma next_hop_family_checked_witness :
  (∃ e, UnmarshalPodAnnotation (annotated (ex_route "10.1.0.0/16" "fd01::1")) = Err e
        ∧ kind_of e = InvalidConfig)
  ∧ ∃ pa, UnmarshalPodAnnotation
            (annotated (ex_route "10.1.0.0/16" "192.168.0.1")) = Ok pa
          ∧ {| Dest := {| net.IP_ := [byte_of_N 10; byte_of_N 1; Byte.x00; Byte.x00];
                          net.Mask_ := net.CIDRMask 16 32 |};
               NextHop := Some (ip4 192 168 0 1) |} ∈ Routes pa.
Proof.
  split.
  - refine (proj1 (proj1 (next_hop_family_checked
      (annotated (ex_route "10.1.0.0/16" "fd01::1"))
      {| ip_addresses := ["192.168.0.5/24"]; mac_address := "0a:58:fd:98:00:01";
         gateway_ips := [];
         routes := [{| dest := "10.1.0.0/16"; nextHop := "fd01::1" |}];
         ip_address := ""; gateway_ip := "" |}
      [] [] {| dest := "10.1.0.0/16"; nextHop := "fd01::1" |}
      _ _ _ _ _ _ _ _) _)).
    + eexists _, _. split_and!; [reflexivity|vm_compute; reflexivity|reflexivity].
    + reflexivity.
    + vm_compute. reflexivity.
    + discriminate.
    + vm_compute. reflexivity.
    + vm_compute. discriminate.
  - refine (proj2 (proj2 (next_hop_family_checked
      (annotated (ex_route "10.1.0.0/16" "192.168.0.1"))
      {| ip_addresses := ["192.168.0.5/24"]; mac_address := "0a:58:fd:98:00:01";
         gateway_ips := [];
         routes := [{| dest := "10.1.0.0/16"; nextHop := "192.168.0.1" |}];
         ip_address := ""; gateway_ip := "" |}
      [] [] {| dest := "10.1.0.0/16"; nextHop := "192.168.0.1" |}
      _ _ _ _ _ _ _ _) _ _) _).
    + eexists _, _. split_and!; [reflexivity|vm_compute; reflexivity|reflexivity].
    + reflexivity.
    + vm_compute. reflexivity.
    + discriminate.
    + vm_compute. reflexivity.
    + vm_compute. reflexivity.
    + vm_compute. reflexivity.
    + vm_compute. by eexists.
Defined.

(** ** C5 *)

(** C5, as stated, fails, in two ways.  The PodAnnotation with one IP, two
    gateways and a route to 0.0.0.0/0 is refused with the error of the
    gateways, which says nothing of default routes: that check comes
    first.  And the PodAnnotation with a route to 10.1.2.3/0, whose
    network is 0.0.0.0/0, is encoded: the encoder tests the address of the
    destination as it is given, and only the decoder, which tests the
    address of the network, refuses what was written. *)
Lemma default_route_not_always_reported :
  (Exists default_route (Routes ex_two_gateways)
   ∧ MarshalPodAnnotation ex_two_gateways = Err ErrSingleGateway
   ∧ format ErrSingleGateway ≠
       "bad podNetwork data: default route %v should be specified as gateway")
  ∧ (Forall (λ r, net.Mask_ (Dest r) = net.CIDRMask 0 32
                  ∧ net.IsUnspecified
                      (net.Mask (net.IP_ (Dest r)) (net.Mask_ (Dest r))) = true)
       (Routes ex_zero_prefix_route)
     ∧ Routes ex_zero_prefix_route ≠ []
     ∧ ∃ m r, MarshalPodAnnotation ex_zero_prefix_route = Ok m
              ∧ UnmarshalPodAnnotation m = Err (ErrDefaultRoute r)).
Proof.
  split.
  - split; [by apply Exists_cons_hd|]. split; [reflexivity|discriminate].
  - split; [by repeat constructor|]. split; [discriminate|].
    eexists _, _. split; reflexivity.
Qed.

(** C5, amended.  A PodAnnotation with a route whose destination has the
    unspecified address (0.0.0.0 or ::) as the address that is given,
    whatever its mask, is never encoded: MarshalPodAnnotation fails with an
    error of the InvalidConfig class, the one that says that a default
    route should be specified as gateway unless the check of the gateways
    of a single IP fails first.  A wire record with a route whose
    destination parses to a network with the unspecified address is never
    decoded: UnmarshalPodAnnotation fails likewise, with that error when
    the record is valid up to this route.  The PodAnnotation with the
    default route given as a gateway is encoded and decoded. *)
Theorem default_route_rejected :
  (∀ pa r, r ∈ Routes pa → default_route r →
     ∃ e, MarshalPodAnnotation pa = Err e ∧ kind_of e = InvalidConfig
       ∧ (¬ single_stack_many_gateways pa →
          ∃ r', r' ∈ Routes pa ∧ default_route r' ∧ e = ErrDefaultRoute r'
            ∧ format e =
              "bad podNetwork data: default route %v should be specified as gateway"))
  ∧ (∀ annotations a pre r post ip routeDest,
       carries annotations a →
       routes a = pre ++ r :: post →
       net.ParseCIDR (dest r) = Some (ip, routeDest) →
       net.IsUnspecified (net.IP_ routeDest) = true →
       (∃ e, UnmarshalPodAnnotation annotations = Err e ∧ kind_of e = InvalidConfig)
       ∧ (is_Ok (unmarshalWire (set_routes a pre)) →
          ∃ e, UnmarshalPodAnnotation annotations = Err e
            ∧ e = ErrDefaultRoute {| Dest := routeDest; NextHop := None |}
            ∧ format e =
              "bad podNetwork data: default route %v should be specified as gateway"))
  ∧ (∃ r, MarshalPodAnnotation ex_default_route = Err (ErrDefaultRoute r))
  ∧ (∃ r, UnmarshalPodAnnotation (annotated (ex_route "0.0.0.0/0" "192.168.0.1"))
          = Err (ErrDefaultRoute r))
  ∧ (∃ m, MarshalPodAnnotation ex_gateway = Ok m
          ∧ UnmarshalPodAnnotation m = Ok ex_gateway).
Proof.
  split_and!.
  - intros pa r Hin Hr. rewrite MarshalPodAnnotation_wire.
    assert (Exists default_route (Routes pa)) as Hex
      by (apply Exists_exists; eauto).
    destruct (decide (single_stack_many_gateways pa)) as [Hgw|Hgw].
    + rewrite marshalWire_Err_gateways by done.
      eexists. split_and!; [done..|]. by intros [].
    + destruct (marshalWire_Err_route pa Hgw Hex) as (r' & Hin' & Hr' & ->).
      eexists. split_and!; [done..|]. intros _. by exists r'.
  - intros annotations a pre r post ip routeDest Hc Hrs Hdest Hu.
    rewrite (UnmarshalPodAnnotation_carries _ _ Hc).
    pose proof (unmarshalRoute_default r ip routeDest Hdest Hu) as Hr.
    destruct (unmarshalWire_route_Err a pre r post _ Hrs Hr) as [[e He] Hfirst].
    split.
    + exists e. split; [done|]. by eapply unmarshalWire_kind.
    + intros Hpre. rewrite (Hfirst Hpre). by eexists.
  - eexists. vm_compute. reflexivity.
  - eexists. vm_compute. reflexivity.
  - rewrite MarshalPodAnnotation_wire, marshalWire_Ok;
      [|intros [_ ?]; simpl in *; lia|constructor].
    eexists. split; [done|].
    rewrite (UnmarshalPodAnnotation_carries _ _ (carries_marshalled _)).
    apply unmarshalWire_wire_of, parsed_ex_gateway.
Qed.

Lemma default_route_rejected_witness :
  ∃ e, MarshalPodAnnotation ex_default_route = Err e ∧ kind_of e = InvalidConfig.
Proof.
  destruct (proj1 default_route_rejected ex_default_route
    {| Dest := ex_default_net; NextHop := Some (ip4 192 168 0 1) |})
    as (e & He & Hk & _).
  - by left.
  - reflexivity.
  - by exists e.
Defined.

(** ** C1 *)

(** C1, as stated, fails: a pod with a status address and a valid
    annotation gets the status address, and not the IPs of the
    annotation. *)
Lemma GetAllPodIPs_status_before_annotation :
  ∃ annotation,
    UnmarshalPodAnnotation (Annotations ex_pod) = Ok annotation
    ∧ net.IP_ <$> IPs annotation = [ip4 192 168 0 5]
    ∧ GetAllPodIPs ex_pod = Ok [ip4 10 0 0 5]
    ∧ GetAllPodIPs ex_pod ≠ Ok (net.IP_ <$> IPs annotation).
Proof.
  eexists. split; [vm_compute; reflexivity|].
  split_and!; [reflexivity|vm_compute; reflexivity|].
  vm_compute. discriminate.
Qed.

(** C1, amended.  GetAllPodIPs takes the pod's addresses from the status
    addresses (Status.PodIPs) first, whenever one of them parses; otherwise
    from the pod-network annotation, whenever it is present and valid, and
    then there is at least one; otherwise from the legacy single-address
    field (Status.PodIP); and fails with ErrNoPodIPFound when that does not
    parse either. *)
Theorem GetAllPodIPs_priority (pod : Pod) :
  let status := omap utilnet.ParseIPSloppy (PodIPs (Status pod)) in
  let legacy :=
    match utilnet.ParseIPSloppy (PodIP (Status pod)) with
    | Some ip => Ok [ip]
    | None => Err (ErrNoPodIPFound (Namespace pod) (Name pod))
    end in
  (status ≠ [] → GetAllPodIPs pod = Ok status)
  ∧ (status = [] →
     ∀ annotation, UnmarshalPodAnnotation (Annotations pod) = Ok annotation →
       IPs annotation ≠ []
       ∧ GetAllPodIPs pod = Ok (net.IP_ <$> IPs annotation))
  ∧ (status = [] → is_Err (UnmarshalPodAnnotation (Annotations pod)) →
     GetAllPodIPs pod = legacy).
Proof.
  intros status legacy. unfold GetAllPodIPs. fold status. split_and!.
  - intros Hs. rewrite bool_decide_true; [done|].
    destruct status; simpl; [done|lia].
  - intros -> annotation Ha. rewrite bool_decide_false by (simpl; lia).
    rewrite Ha. pose proof (UnmarshalPodAnnotation_IPs _ _ Ha) as Hne.
    split; [done|]. rewrite bool_decide_true; [done|].
    rewrite length_fmap. destruct (IPs annotation); simpl; [done|lia].
  - intros -> [e He]. rewrite bool_decide_false by (simpl; lia).
    by rewrite He.
Qed.

Lemma GetAllPodIPs_priority_witness :
  GetAllPodIPs ex_pod = Ok [ip4 10 0 0 5].
Proof.
  refine (proj1 (GetAllPodIPs_priority ex_pod) _).
  vm_compute. discriminate.
Defined.

(** ** C2 *)

(** C2, as stated, fails: the PodAnnotation with a route to 10.1.2.3/16
    meets every condition that the property names, and is encoded and
    decoded, but the decoded route goes to 10.1.0.0/16. *)
Lemma roundtrip_host_route_changes :
  named_valid ex_host_route
  ∧ ∃ m pa,
      MarshalPodAnnotation ex_host_route = Ok m
      ∧ UnmarshalPodAnnotation m = Ok pa
      ∧ pa ≠ ex_host_route
      ∧ Dest <$> Routes ex_host_route =
          [{| net.IP_ := [byte_of_N 10; byte_of_N 1; byte_of_N 2; byte_of_N 3];
              net.Mask_ := net.CIDRMask 16 32 |}]
      ∧ Dest <$> Routes pa =
          [{| net.IP_ := [byte_of_N 10; byte_of_N 1; byte_of_N 0; byte_of_N 0];
              net.Mask_ := net.CIDRMask 16 32 |}].
Proof.
  split.
  - unfold named_valid. split_and!.
    + done.
    + vm_compute. reflexivity.
    + repeat constructor. unfold default_route. vm_compute. discriminate.
    + repeat constructor.
    + unfold single_stack_many_gateways. simpl. lia.
  - eexists _, _. split_and!.
    + rewrite MarshalPodAnnotation_wire. vm_compute marshalWire. reflexivity.
    + vm_compute. reflexivity.
    + vm_compute. discriminate.
    + reflexivity.
    + vm_compute. reflexivity.
Qed.

(** C2, amended.  For every PodAnnotation with at least one IP that is in
    the form the decoder produces (a MAC of 6, 8 or 20 octets; every IP a
    16-byte address with the mask of a prefix length of its family; every
    gateway a 16-byte address; every route a destination as ParseCIDR
    returns it, that is with no bit set outside its mask and other than the
    unspecified address, and a next hop that is absent or a 16-byte
    address of the family of the destination; no more than one gateway for
    a single IP), encoding with MarshalPodAnnotation succeeds and decoding
    the resulting annotations with UnmarshalPodAnnotation gives the same
    PodAnnotation, with the order of IPs, gateways and routes.  These are
    the only PodAnnotations that come back the same. *)
Theorem marshal_unmarshal_parsed (pa : PodAnnotation) :
  parsed pa ↔
  ∃ m, MarshalPodAnnotation pa = Ok m ∧ UnmarshalPodAnnotation m = Ok pa.
Proof.
  split.
  - intros Hpa. pose proof Hpa as (_ & _ & _ & _ & Hrs & Hgw).
    rewrite MarshalPodAnnotation_wire, marshalWire_Ok; [|done|].
    + eexists. split; [done|].
      rewrite (UnmarshalPodAnnotation_carries _ _ (carries_marshalled _)).
      by apply unmarshalWire_wire_of.
    + eapply Forall_impl; [exact Hrs|]. by intros r (_ & ? & _).
  - intros (m & Hm & Hu). rewrite MarshalPodAnnotation_wire in Hm.
    destruct (marshalWire pa) as [a|] eqn:Hw; [|done]. injection Hm as <-.
    apply marshalWire_Ok_inv in Hw as (Hgw & _ & ->).
    rewrite (UnmarshalPodAnnotation_carries _ _ (carries_marshalled _)) in Hu.
    by apply parsed_of_roundtrip.
Qed.

Lemma parsed_ex_dual : parsed ex_dual.
Proof.
  unfold parsed. split_and!.
  - done.
  - apply Forall_cons. split; [split; [done | by exists 24%N]|].
    apply Forall_cons. split; [split; [done | by exists 64%N]|].
    constructor.
  - by left.
  - by repeat apply Forall_cons_2.
  - apply Forall_cons. split.
    { split; [|split].
      - split; [by left|]. split; [by exists 16%N | done].
      - unfold default_route. vm_compute. discriminate.
      - done. }
    apply Forall_cons. split; [|constructor].
    split; [|split].
    + split; [by right|]. split; [by exists 48%N | done].
    + unfold default_route. vm_compute. discriminate.
    + done.
  - unfold single_stack_many_gateways. simpl. lia.
Defined.

Lemma marshal_unmarshal_parsed_witness :
  ∃ m, MarshalPodAnnotation ex_dual = Ok m ∧ UnmarshalPodAnnotation m = Ok ex_dual.
Proof. exact (proj1 (marshal_unmarshal_parsed ex_dual) parsed_ex_dual). Defined.

(** ** C8 and C9: the reconciler *)

Section reconciler_facts.
Import reconciler.
Variable cfg : ExcludedAddressSet.

Lemma not_publishable (address : net.IPNet) (x : net.IP) :
  x ∈ excluded cfg → net.Equal (net.IP_ address) x = true →
  IsPublishable cfg address = false.
Proof.
  intros Hin Heq. unfold IsPublishable. apply negb_false_iff.
  apply existsb_exists. exists x. split; [by apply list_elem_of_In | done].
Qed.

Lemma step_not_publishable st a add wrote :
  IsPublishable cfg a = false → step cfg st (AddrUpdate a add wrote) = st.
Proof. intros Ha. unfold step. rewrite Ha. by destruct (phase st). Qed.

Lemma step_phase_not_Stopped st i :
  phase st ≠ Stopped → i ≠ Stop → phase (step cfg st i) ≠ Stopped.
Proof.
  intros Hst Hi. unfold step, publish.
  destruct (phase st) eqn:Hp; [..|done];
    destruct i as [host w|[host|] w|a add w| |]; try done;
    repeat first [case_decide | case_match]; simpl; congruence.
Qed.

Lemma run_phase_not_Stopped st l :
  phase st ≠ Stopped → Stop ∉ l → phase (run cfg st l) ≠ Stopped.
Proof.
  revert st. induction l as [|i l IH]; intros st Hst Hl; [done|].
  apply not_elem_of_cons in Hl as [Hi Hl]. simpl.
  apply IH; [|done]. by apply step_phase_not_Stopped.
Qed.

Lemma publish_applied p set st :
  annotation (publish p set true st) = set ∧ phase (publish p set true st) = p
  ∧ addrs (publish p set true st) = set.
Proof. unfold publish. by case_decide. Qed.
End reconciler_facts.

(** C8.  An add or a remove event for an address that equals, whatever its
    prefix length, a management-port address or a masquerade address is
    ignored: the reconciler is in the same state after it, so adding and
    then removing such an address leaves the published annotation as it
    was, and issues no write. *)
Theorem filtered_events_ignored (cfg : reconciler.ExcludedAddressSet)
    (st : reconciler.State) (address : net.IPNet) (x : net.IP) (w1 w2 : bool) :
  x ∈ reconciler.excluded cfg →
  net.Equal (net.IP_ address) x = true →
  (∀ add w, reconciler.step cfg st (reconciler.AddrUpdate address add w) = st)
  ∧ reconciler.annotation
      (reconciler.run cfg st
         [reconciler.AddrUpdate address true w1;
          reconciler.AddrUpdate address false w2])
    = reconciler.annotation st
  ∧ reconciler.writes
      (reconciler.run cfg st
         [reconciler.AddrUpdate address true w1;
          reconciler.AddrUpdate address false w2])
    = reconciler.writes st.
Proof.
  intros Hin Heq.
  pose proof (not_publishable cfg address x Hin Heq) as Hn.
  split; [intros; by apply step_not_publishable|].
  simpl. by rewrite !step_not_publishable.
Qed.

Lemma filtered_events_ignored_witness :
  reconciler.annotation
    (reconciler.run ex_excluded ex_subscribed
       [reconciler.AddrUpdate
          {| net.IP_ := ip4 169 254 169 2; net.Mask_ := net.CIDRMask 29 32 |}
          true true;
        reconciler.AddrUpdate
          {| net.IP_ := ip4 169 254 169 2; net.Mask_ := net.CIDRMask 29 32 |}
          false true])
  = reconciler.annotation ex_subscribed.
Proof.
  refine (proj1 (proj2 (filtered_events_ignored ex_excluded ex_subscribed
    {| net.IP_ := ip4 169 254 169 2; net.Mask_ := net.CIDRMask 29 32 |}
    (ip4 169 254 169 2) true true _ _))).
  - unfold reconciler.excluded. simpl. set_solver.
  - reflexivity.
Defined.

Section worker_facts.
Import reconciler.
Variable cfg : ExcludedAddressSet.
Variable subscribe : nat → Answer.

Lemma step_failed st w :
  phase st = Resubscribing → step cfg st (Subscribe None w) = st.
Proof. destruct st as [p ? ? ?]. simpl. intros ->. reflexivity. Qed.

(** The state after a list of inputs is the last of the states that the
    worker goes through. *)
Lemma run_last st l : run cfg st l = default st (last (states cfg st l)).
Proof.
  revert st. induction l as [|i l IH]; intros st; [done|].
  cbn [run foldl states]. fold (run cfg (step cfg st i) l). rewrite IH.
  destruct (states cfg (step cfg st i) l) as [|s h] eqn:Hh; [done|].
  rewrite last_cons_cons.
  destruct (last (s :: h)) eqn:Hl; [done|]. by apply last_None in Hl.
Qed.

(** The events of the channel leave the worker in the state Subscribed. *)
Lemma states_Subscribed st events :
  phase st = Subscribed →
  Forall (λ s, phase s = Subscribed) (states cfg st (deliver <$> events))
  ∧ phase (run cfg st (deliver <$> events)) = Subscribed.
Proof.
  revert st. induction events as [|e events IH]; intros st Hst.
  - split; [constructor|done].
  - cbn [fmap list_fmap states run foldl].
    assert (phase (step cfg st (deliver e)) = Subscribed) as Hst'.
    { unfold step, deliver, publish. rewrite Hst.
      by repeat first [case_decide | case_match]. }
    destruct (IH _ Hst') as [Hh Hr]. split; [by constructor|done].
Qed.

(** While the subscribe function gives no subscription the worker stays
    in Resubscribing and calls it again. *)
Lemma worker_failures n fuel calls st :
  phase st = Resubscribing →
  (∀ i, i < n → subscribe (calls + i) = NoSubscription) →
  worker cfg subscribe (n + fuel) calls st =
    (replicate n st ++ (worker cfg subscribe fuel (calls + n) st).1,
     (worker cfg subscribe fuel (calls + n) st).2).
Proof.
  intros Hst. revert calls. induction n as [|n IH]; intros calls Hno.
  - rewrite Nat.add_0_r. simpl. by destruct (worker _ _ _ _ _).
  - cbn [Nat.add worker]. rewrite Hst.
    rewrite <-(Nat.add_0_r calls) at 1. rewrite Hno by lia.
    rewrite (step_failed st false Hst), IH.
    + replace (S calls + n) with (calls + S n) by lia. done.
    + intros i Hi. replace (S calls + i) with (calls + S i) by lia.
      apply Hno. lia.
Qed.

Lemma states_not_Stopped st l :
  phase st ≠ Stopped → Stop ∉ l →
  Forall (λ s, phase s ≠ Stopped) (states cfg st l).
Proof.
  revert st. induction l as [|i l IH]; intros st Hst Hl; [constructor|].
  apply not_elem_of_cons in Hl as [Hi Hl]. cbn [states].
  pose proof (step_phase_not_Stopped cfg st i Hst (not_eq_sym Hi)) as Hst'.
  constructor; [done|]. by apply IH.
Qed.

Lemma Stop_not_delivered (events : list Event) : Stop ∉ deliver <$> events.
Proof. by intros (e & ? & _)%list_elem_of_fmap. Qed.

(** While the stop signal does not fire, neither while the worker waits
    for a subscription nor while it waits on a channel, the worker is never
    in the state Stopped. *)
Lemma worker_not_Stopped fuel calls st :
  phase st ≠ Stopped →
  (∀ i, subscribe i ≠ StopFired) →
  (∀ i host wrote events, subscribe i ≠ Acquired host wrote events StopFires) →
  Forall (λ s, phase s ≠ Stopped) (worker cfg subscribe fuel calls st).1.
Proof.
  intros Hst Hno Hobs. revert calls st Hst.
  induction fuel as [|fuel IH]; intros calls st Hst; [constructor|].
  assert (Forall (λ s, phase s ≠ Stopped)
    (match subscribe calls with
     | NoSubscription =>
         let st' := step cfg st (Subscribe None false) in
         let '(h, c) := worker cfg subscribe fuel (S calls) st' in
         (st' :: h, c)
     | Acquired host wrote events ending =>
         let st1 := step cfg st (Subscribe (Some host) wrote) in
         let h := states cfg st1 (deliver <$> events) in
         let st2 := run cfg st1 (deliver <$> events) in
         match ending with
         | ChannelCloses =>
             let st3 := step cfg st2 ChannelClosed in
             let '(h', c) := worker cfg subscribe fuel (S calls) st3 in
             (st1 :: h ++ st3 :: h', c)
         | StopFires => (st1 :: h ++ [step cfg st2 Stop], S calls)
         | StaysOpen => (st1 :: h, S calls)
         end
     | StopFired => ([step cfg st Stop], S calls)
     end).1) as Hcall.
  { destruct (subscribe calls) as [|host wrote events ending|] eqn:Hs.
    - pose proof (step_phase_not_Stopped cfg st (Subscribe None false) Hst
                    ltac:(done)) as Hst'.
      specialize (IH (S calls) _ Hst'). cbn zeta.
      destruct (worker cfg subscribe fuel (S calls) _) as [h c].
      by constructor.
    - pose proof (step_phase_not_Stopped cfg st (Subscribe (Some host) wrote)
                    Hst ltac:(done)) as Hst1.
      pose proof (Stop_not_delivered events) as Hstop.
      pose proof (states_not_Stopped _ _ Hst1 Hstop) as Hh.
      cbn zeta. destruct ending; [|by destruct (Hobs calls host wrote events)
                                  |by constructor].
      pose proof (run_phase_not_Stopped cfg _ _ Hst1 Hstop) as Hst2.
      pose proof (step_phase_not_Stopped cfg _ ChannelClosed Hst2 ltac:(done))
        as Hst3.
      specialize (IH (S calls) _ Hst3).
      destruct (worker cfg subscribe fuel (S calls) _) as [h c].
      constructor; [done|]. apply Forall_app. split; [done|by constructor].
    - by destruct (Hno calls). }
  cbn [worker]. destruct (phase st); try constructor; exact Hcall.
Qed.
End worker_facts.



(** * Further properties of pod_annotation.go *)

(** ** Loops, once more *)

Lemma forM_Ok_Forall2 {E A B} (f : A → result E B) l ys :
  forM f l = Ok ys ↔ Forall2 (λ x y, f x = Ok y) l ys.
Proof.
  revert ys. induction l as [|x l IH]; intros ys; simpl.
  - split.
    + intros [= <-]. constructor.
    + intros H. by inversion H.
  - split.
    + destruct (f x) as [y|] eqn:Hx; simpl; [|done].
      destruct (forM f l) as [ys'|] eqn:Hl; simpl; [|done].
      intros [= <-]. constructor; [done|]. by apply IH.
    + intros H. inversion H as [|? y ? ys' Hx Hl]; subst.
      apply IH in Hl. by rewrite Hx, Hl.
Qed.

(** ** The steps of a successful decoding *)

Lemma unmarshalWire_Ok_inv a pa :
  unmarshalWire a = Ok pa ↔
  ∃ aIPs aGateways,
    net.ParseMAC (mac_address a) = Some (MAC pa)
    ∧ wireIPs a = Ok aIPs
    ∧ forM unmarshalIP aIPs = Ok (IPs pa)
    ∧ wireGateways a = Ok aGateways
    ∧ forM unmarshalGateway aGateways = Ok (Gateways pa)
    ∧ forM unmarshalRoute (routes a) = Ok (Routes pa).
Proof.
  unfold unmarshalWire. split.
  - destruct (net.ParseMAC (mac_address a)) as [mac|] eqn:H1; simpl; [|done].
    destruct (wireIPs a) as [aIPs|] eqn:H2; simpl; [|done].
    destruct (forM unmarshalIP aIPs) as [ips|] eqn:H3; simpl; [|done].
    destruct (wireGateways a) as [aGateways|] eqn:H4; simpl; [|done].
    destruct (forM unmarshalGateway aGateways) as [gws|] eqn:H5; simpl; [|done].
    destruct (forM unmarshalRoute (routes a)) as [rs|] eqn:H6; simpl; [|done].
    intros [= <-]. by exists aIPs, aGateways.
  - intros (aIPs & aGateways & -> & -> & H1 & -> & H2 & H3). simpl.
    rewrite H1. simpl. rewrite H2. simpl. rewrite H3. simpl. by destruct pa.
Qed.

Lemma UnmarshalPodAnnotation_Ok_inv annotations pa :
  UnmarshalPodAnnotation annotations = Ok pa →
  ∃ a, carries annotations a ∧ unmarshalWire a = Ok pa.
Proof.
  unfold UnmarshalPodAnnotation, carries.
  destruct (annotations !! OvnPodAnnotationName) as [t|] eqn:Ht; [|done].
  destruct (json.Unmarshal t) as [nets|] eqn:Hn; [|done].
  intros Hw. eexists. split; [|exact Hw]. by exists t, nets.
Qed.

(** The decoder's own errors are none of the two that it makes before it
    reads the wire record. *)
Lemma unmarshalWire_Err_kind a e :
  unmarshalWire a = Err e → e ≠ ErrAnnotationNotSet ∧ e ≠ ErrUnmarshal.
Proof.
  intros He. apply unmarshalWire_kind in He. split; intros ->; discriminate.
Qed.

(** X1.  UnmarshalPodAnnotation fails with the annotation-not-set error
    exactly when the map has no entry for the annotation name, and with the
    unmarshal error exactly when the entry is there and its value is not
    JSON for a map of wire records; every other error is of the
    InvalidConfig class. *)
Theorem UnmarshalPodAnnotation_error_classes (annotations : gmap string json.text) :
  (UnmarshalPodAnnotation annotations = Err ErrAnnotationNotSet
   ↔ annotations !! OvnPodAnnotationName = None)
  ∧ (UnmarshalPodAnnotation annotations = Err ErrUnmarshal
     ↔ ∃ ovnAnnotation, annotations !! OvnPodAnnotationName = Some ovnAnnotation
                        ∧ json.Unmarshal ovnAnnotation = None)
  ∧ (∀ e, UnmarshalPodAnnotation annotations = Err e →
          e ≠ ErrAnnotationNotSet → e ≠ ErrUnmarshal →
          kind_of e = InvalidConfig).
Proof.
  unfold UnmarshalPodAnnotation.
  destruct (annotations !! OvnPodAnnotationName) as [t|] eqn:Ht.
  - destruct (json.Unmarshal t) as [nets|] eqn:Hn.
    + split_and!.
      * split; [|done]. by intros []%unmarshalWire_Err_kind.
      * split.
        -- by intros []%unmarshalWire_Err_kind.
        -- intros (t' & [= <-] & Hn'). congruence.
      * intros e He _ _. by eapply unmarshalWire_kind.
    + split_and!; [done| |by intros e [= <-]].
      split; [|done]. intros _. by exists t.
  - split_and!; [done| |by intros e [= <-]].
    split; [done|]. by intros (t' & [=] & _).
Qed.

Lemma UnmarshalPodAnnotation_error_classes_witness :
  UnmarshalPodAnnotation ∅ = Err ErrAnnotationNotSet
  ∧ UnmarshalPodAnnotation (annotated ex_conflict) = Err ErrIPConflict
  ∧ kind_of ErrIPConflict = InvalidConfig.
Proof.
  split.
  - apply (proj1 (UnmarshalPodAnnotation_error_classes ∅)). reflexivity.
  - split; [reflexivity|].
    apply (proj2 (proj2 (UnmarshalPodAnnotation_error_classes
                           (annotated ex_conflict)))).
    + reflexivity.
    + discriminate.
    + discriminate.
Defined.

(** ** Where the decoder's errors come from *)

Lemma unmarshalRoute_Err_inv r e :
  unmarshalRoute r = Err e →
  e = ErrParseRouteDest (dest r)
  ∨ (∃ R, e = ErrDefaultRoute R)
  ∨ e = ErrParseNextHop (nextHop r)
  ∨ e = ErrNextHopFamily (dest r) (nextHop r).
Proof.
  unfold unmarshalRoute. intros He.
  repeat first [case_match | case_decide]; simplify_eq; eauto.
Qed.

Lemma unmarshalWire_Err_inv a e :
  unmarshalWire a = Err e →
  (net.ParseMAC (mac_address a) = None ∧ e = ErrParseMAC (mac_address a))
  ∨ (is_Some (net.ParseMAC (mac_address a)) ∧ wireIPs a = Err e)
  ∨ (∃ s, e = ErrParseIP s)
  ∨ (is_Some (net.ParseMAC (mac_address a)) ∧ is_Ok (wireIPs a)
     ∧ wireGateways a = Err e)
  ∨ (∃ s, e = ErrParseGateway s)
  ∨ (∃ r, r ∈ routes a ∧ unmarshalRoute r = Err e).
Proof.
  unfold unmarshalWire.
  destruct (net.ParseMAC (mac_address a)) as [mac|] eqn:H1; simpl;
    [|intros [= <-]; by left].
  destruct (wireIPs a) as [aIPs|] eqn:H2; simpl;
    [|intros [= <-]; right; left; by eauto].
  destruct (forM unmarshalIP aIPs) as [ips|] eqn:H3; simpl.
  2:{ intros [= <-]. apply forM_Err in H3 as (s & _ & Hs).
      unfold unmarshalIP in Hs. repeat case_match; simplify_eq.
      do 2 right. left. by eauto. }
  destruct (wireGateways a) as [aGateways|] eqn:H4; simpl.
  2:{ intros [= <-]. do 3 right. left. split_and!; [by eexists|by eexists|done]. }
  destruct (forM unmarshalGateway aGateways) as [gws|] eqn:H5; simpl.
  2:{ intros [= <-]. apply forM_Err in H5 as (s & _ & Hs).
      unfold unmarshalGateway in Hs. repeat case_match; simplify_eq.
      do 4 right. left. by eauto. }
  destruct (forM unmarshalRoute (routes a)) as [rs|] eqn:H6; simpl; [done|].
  intros [= <-]. apply forM_Err in H6 as (r & Hr & He).
  do 5 right. by eauto.
Qed.

Lemma wireIPs_Err_inv a e :
  wireIPs a = Err e →
  (e = ErrNoIPs ∧ ip_addresses a = [] ∧ ip_address a = "")
  ∨ (e = ErrIPConflict ∧ ip_conflict a).
Proof.
  unfold wireIPs, ip_conflict. intros He.
  repeat first [case_match | case_decide]; simplify_eq; [by left|].
  right. split; [done|]. by eexists _, _.
Qed.

Lemma wireGateways_Err_inv a e :
  wireGateways a = Err e → e = ErrGatewayConflict ∧ gateway_conflict a.
Proof.
  unfold wireGateways, gateway_conflict. intros He.
  repeat first [case_match | case_decide]; simplify_eq.
  split; [done|]. by eexists _, _.
Qed.

(** X2.  The first checks of the decoder, on a wire record whose MAC
    parses: it fails for want of an IP exactly when both [ip_addresses] and
    [ip_address] are empty, and for a conflict of the two exactly when both
    are set and [ip_address] is not the first of [ip_addresses].  It fails
    on the MAC exactly when the MAC does not parse, whatever else the
    record holds. *)
Theorem decoder_first_checks (annotations : gmap string json.text) (a : podAnnotation) :
  carries annotations a →
  (UnmarshalPodAnnotation annotations = Err (ErrParseMAC (mac_address a))
   ↔ net.ParseMAC (mac_address a) = None)
  ∧ (UnmarshalPodAnnotation annotations = Err ErrNoIPs
     ↔ is_Some (net.ParseMAC (mac_address a))
       ∧ ip_addresses a = [] ∧ ip_address a = "")
  ∧ (UnmarshalPodAnnotation annotations = Err ErrIPConflict
     ↔ is_Some (net.ParseMAC (mac_address a)) ∧ ip_conflict a).
Proof.
  intros Hc. rewrite (UnmarshalPodAnnotation_carries _ _ Hc). split_and!.
  - split.
    + intros He. apply unmarshalWire_Err_inv in He
        as [[? _]|[[_ He]|[[? ?]|[(_ & _ & He)|[[? ?]|(r & _ & He)]]]]];
        try done.
      * by apply wireIPs_Err_inv in He as [[? _]|[? _]].
      * by apply wireGateways_Err_inv in He as [? _].
      * by apply unmarshalRoute_Err_inv in He as [?|[[? ?]|[?|?]]].
    + intros Hm. unfold unmarshalWire. by rewrite Hm.
  - split.
    + intros He. apply unmarshalWire_Err_inv in He
        as [[_ ?]|[[Hm He]|[[? ?]|[(_ & _ & He)|[[? ?]|(r & _ & He)]]]]];
        try done.
      * by apply wireIPs_Err_inv in He as [(_ & ? & ?)|[? _]].
      * by apply wireGateways_Err_inv in He as [? _].
      * by apply unmarshalRoute_Err_inv in He as [?|[[? ?]|[?|?]]].
    + intros ([mac Hm] & Hips & Hip). unfold unmarshalWire, wireIPs.
      rewrite Hm, Hips. simpl. by rewrite decide_True.
  - split.
    + intros He. apply unmarshalWire_Err_inv in He
        as [[_ ?]|[[Hm He]|[[? ?]|[(_ & _ & He)|[[? ?]|(r & _ & He)]]]]];
        try done.
      * by apply wireIPs_Err_inv in He as [[? _]|[_ ?]].
      * by apply wireGateways_Err_inv in He as [? _].
      * by apply unmarshalRoute_Err_inv in He as [?|[[? ?]|[?|?]]].
    + intros [Hm Hc']. by apply unmarshalWire_Err_ip_conflict.
Qed.

Lemma decoder_first_checks_witness :
  UnmarshalPodAnnotation (annotated ex_conflict) = Err ErrIPConflict.
Proof.
  refine (proj2 (proj2 (proj2
    (decoder_first_checks (annotated ex_conflict)
       {| ip_addresses := ["10.0.0.2/24"]; mac_address := "0a:58:fd:98:00:01";
          gateway_ips := []; routes := []; ip_address := "10.0.0.1/24";
          gateway_ip := "" |} _))) _).
  - eexists _, _. split; [reflexivity|]. split; reflexivity.
  - split; [by eexists|]. by eexists _, _.
Defined.

(** ** The form of what the decoder returns *)

Lemma unmarshalIP_decoded s n : unmarshalIP s = Ok n → decoded_address n.
Proof.
  unfold unmarshalIP.
  destruct (net.ParseCIDR s) as [[ip net']|] eqn:Hp; [|done]. intros [= <-].
  destruct (ParseCIDR_shape _ _ _ Hp) as (addr & ones & Hok & Hip & Hones & ->).
  pose proof (length_As16 addr Hok) as Hlen. rewrite <-Hip in Hlen.
  split; [done|]. cbn [net.IP_ net.Mask_].
  destruct addr as [b|b]; cbn [net.BitLen net.As16 addr_ok] in *.
  - left. split; [by exists ones|].
    destruct b as [|b0 [|b1 [|b2 [|b3 [|]]]]]; try done.
    rewrite Hip. change (net.v4InV6Prefix ++ [b0; b1; b2; b3])
      with (net.IPv4 b0 b1 b2 b3).
    by rewrite To4_IPv4.
  - right. by exists ones.
Qed.

Lemma ParseCIDR_decoded_network s ip n :
  net.ParseCIDR s = Some (ip, n) → decoded_network n.
Proof.
  intros Hp.
  destruct (ParseCIDR_shape _ _ _ Hp) as (addr & ones & Hok & Hip & Hones & Hn).
  destruct addr as [b|b]; cbn [net.BitLen net.As16 addr_ok] in *.
  - assert (length (net.CIDRMask ones 32) = 4) as Hm
      by (by rewrite (length_CIDRMask ones 32) by auto).
    rewrite Hip, Mask_As16_Addr4 in Hn by done.
    assert (length (net.IP_ n) = 4) as Hl.
    { rewrite Hn. cbn [net.IP_]. rewrite length_zip_with. lia. }
    split.
    + left. split; [done|]. rewrite Hn. by exists ones.
    + rewrite Hn. cbn [net.IP_ net.Mask_].
      rewrite Mask_same_length by (rewrite length_zip_with; lia).
      apply zip_with_and_byte_idemp.
  - subst b.
    assert (length (net.CIDRMask ones 128) = 16) as Hm
      by (by rewrite (length_CIDRMask ones 128) by auto).
    rewrite Mask_same_length in Hn by lia.
    assert (length (net.IP_ n) = 16) as Hl.
    { rewrite Hn. cbn [net.IP_]. rewrite length_zip_with. lia. }
    split.
    + right. split; [done|]. rewrite Hn. by exists ones.
    + rewrite Hn. cbn [net.IP_ net.Mask_].
      rewrite Mask_same_length by (rewrite length_zip_with; lia).
      apply zip_with_and_byte_idemp.
Qed.

Lemma unmarshalRoute_Ok_inv r R :
  unmarshalRoute r = Ok R →
  ∃ ip, net.ParseCIDR (dest r) = Some (ip, Dest R)
    ∧ ¬ default_route R
    ∧ ((nextHop r = "" ∧ NextHop R = None)
       ∨ (nextHop r ≠ "" ∧ ∃ nh, net.ParseIP (nextHop r) = Some nh
            ∧ NextHop R = Some nh
            ∧ utilnet.IsIPv6 nh = utilnet.IsIPv6CIDR (Dest R))).
Proof.
  unfold unmarshalRoute, default_route.
  destruct (net.ParseCIDR (dest r)) as [[ip n]|]; [|done].
  destruct (net.IsUnspecified (net.IP_ n)) eqn:Hu; [done|].
  case_decide as Hnh.
  - destruct (net.ParseIP (nextHop r)) as [nh|]; [|done].
    case_bool_decide as Hf; [|done]. simpl. intros [= <-].
    exists ip. cbn [Dest NextHop]. rewrite Hu.
    split_and!; [done|done|]. right. split; [done|]. by exists nh.
  - intros [= <-]. exists ip. cbn [Dest NextHop]. rewrite Hu.
    split_and!; [done|done|]. left. split; [|done].
    destruct (decide (nextHop r = "")); [done|]. by destruct Hnh.
Qed.

Lemma unmarshalRoute_decoded r R : unmarshalRoute r = Ok R → decoded_route R.
Proof.
  intros (ip & Hp & Hd & Hnh)%unmarshalRoute_Ok_inv.
  split_and!; [by eapply ParseCIDR_decoded_network|done|].
  destruct Hnh as [[_ ->]|(_ & nh & Hnh & -> & Hf)]; [done|].
  split; [by eapply ParseIP_length|done].
Qed.

Lemma Forall2_Forall_r_impl {A B} (P : A → B → Prop) (Q : B → Prop) l k :
  (∀ x y, P x y → Q y) → Forall2 P l k → Forall Q k.
Proof. intros HPQ. induction 1; constructor; eauto. Qed.

(** X3.  Whatever annotation it is given, what UnmarshalPodAnnotation
    returns has at least one IP, every IP is a 16-byte address with the
    mask of a prefix length (four bytes long for an IPv4 address written
    with dots, sixteen otherwise), the MAC has 6, 8 or 20 octets, every
    gateway is a 16-byte address, and every route has a destination with no
    bit outside its mask, which is not the unspecified address, and a next
    hop that is absent or a 16-byte address of the family of the
    destination. *)
Theorem decoded_form (annotations : gmap string json.text) (pa : PodAnnotation) :
  UnmarshalPodAnnotation annotations = Ok pa →
  IPs pa ≠ []
  ∧ Forall decoded_address (IPs pa)
  ∧ (length (MAC pa) = 6 ∨ length (MAC pa) = 8 ∨ length (MAC pa) = 20)
  ∧ Forall (λ gw, length gw = 16) (Gateways pa)
  ∧ Forall decoded_route (Routes pa).
Proof.
  intros Hu. pose proof (UnmarshalPodAnnotation_IPs _ _ Hu) as Hne.
  apply UnmarshalPodAnnotation_Ok_inv in Hu as (a & _ & Hw).
  apply unmarshalWire_Ok_inv in Hw
    as (aIPs & aGateways & Hmac & _ & Hips & _ & Hgws & Hrs).
  split_and!.
  - done.
  - apply forM_Ok_Forall2 in Hips.
    eapply Forall2_Forall_r_impl; [|exact Hips]. apply unmarshalIP_decoded.
  - by eapply ParseMAC_length.
  - apply forM_Ok_Forall2 in Hgws.
    eapply Forall2_Forall_r_impl; [|exact Hgws].
    intros s gw. unfold unmarshalGateway.
    destruct (net.ParseIP s) as [gw'|] eqn:Hp; [|done]. intros [= <-].
    by eapply ParseIP_length.
  - apply forM_Ok_Forall2 in Hrs.
    eapply Forall2_Forall_r_impl; [|exact Hrs]. apply unmarshalRoute_decoded.
Qed.

Lemma decoded_form_witness :
  IPs ex_gateway ≠ []
  ∧ Forall decoded_address (IPs ex_gateway)
  ∧ (length (MAC ex_gateway) = 6 ∨ length (MAC ex_gateway) = 8
     ∨ length (MAC ex_gateway) = 20)
  ∧ Forall (λ gw, length gw = 16) (Gateways ex_gateway)
  ∧ Forall decoded_route (Routes ex_gateway).
Proof.
  apply (decoded_form (annotated ex_plural)). vm_compute. reflexivity.
Defined.

(** ** The singular fields *)

Lemma wireIPs_plural_only a :
  ¬ ip_conflict a → wireIPs (plural_only a) = wireIPs a.
Proof.
  unfold wireIPs, plural_only, ip_conflict. cbn [ip_addresses ip_address].
  intros Hc. destruct (ip_addresses a) as [|ip0 rest] eqn:Hips.
  - destruct (decide (ip_address a = "")) as [Hip|Hip]; [done|].
    rewrite decide_False; [done|]. by intros [? _].
  - rewrite decide_False by (by intros [? _]).
    rewrite decide_False; [done|]. intros [? ?]. apply Hc. by exists ip0, rest.
Qed.

Lemma wireGateways_plural_only a :
  ¬ gateway_conflict a → wireGateways (plural_only a) = wireGateways a.
Proof.
  unfold wireGateways, plural_only, gateway_conflict.
  cbn [gateway_ips gateway_ip].
  intros Hc. destruct (gateway_ips a) as [|gw0 rest] eqn:Hgws.
  - destruct (decide (gateway_ip a = "")) as [Hgw|Hgw].
    + rewrite decide_False by (by intros ?).
      rewrite decide_False; [done|]. by intros ?.
    + rewrite decide_False by (by intros [? _]). by rewrite decide_True.
  - rewrite decide_False by (by intros [? _]).
    rewrite decide_False; [done|]. intros [? ?]. apply Hc. by exists gw0, rest.
Qed.

(** X4.  The singular fields are read as a fallback only.  A wire record
    in which they do not conflict with the plural ones is decoded exactly
    as the record with the plural fields alone, [ip_address] and
    [gateway_ip] standing for a list of one when the list is empty: the
    same PodAnnotation, or the same error. *)
Theorem singular_fields_fallback
    (annotations annotations' : gmap string json.text) (a : podAnnotation) :
  carries annotations a →
  carries annotations' (plural_only a) →
  ¬ ip_conflict a →
  ¬ gateway_conflict a →
  UnmarshalPodAnnotation annotations = UnmarshalPodAnnotation annotations'.
Proof.
  intros Hc Hc' Hip Hgw.
  rewrite (UnmarshalPodAnnotation_carries _ _ Hc),
    (UnmarshalPodAnnotation_carries _ _ Hc').
  unfold unmarshalWire.
  rewrite (wireIPs_plural_only a Hip), (wireGateways_plural_only a Hgw).
  reflexivity.
Qed.

Lemma singular_fields_fallback_witness :
  UnmarshalPodAnnotation (annotated ex_legacy)
  = UnmarshalPodAnnotation (annotated ex_plural).
Proof.
  apply (singular_fields_fallback _ _
    {| ip_addresses := []; mac_address := "0a:58:fd:98:00:01";
       gateway_ips := []; routes := []; ip_address := "192.168.0.5/24";
       gateway_ip := "192.168.0.1" |}).
  - eexists _, _. split; [reflexivity|]. split; reflexivity.
  - eexists _, _. split; [reflexivity|]. split; reflexivity.
  - intros (ip0 & rest & H & _). discriminate H.
  - intros (gw0 & rest & H & _). discriminate H.
Defined.

(** ** What the encoder writes, read by the decoder *)

Lemma MarshalPodAnnotation_Ok_inv pa m :
  MarshalPodAnnotation pa = Ok m →
  ¬ single_stack_many_gateways pa
  ∧ Forall (λ r, ¬ default_route r) (Routes pa)
  ∧ UnmarshalPodAnnotation m = unmarshalWire (wire_of pa).
Proof.
  rewrite MarshalPodAnnotation_wire.
  destruct (marshalWire pa) as [a|] eqn:Hw; [|done]. intros [= <-].
  apply marshalWire_Ok_inv in Hw as (Hgw & Hrs & ->).
  split_and!; [done|done|].
  apply UnmarshalPodAnnotation_carries, carries_marshalled.
Qed.

Lemma ip_conflict_wire_of pa : ¬ ip_conflict (wire_of pa).
Proof.
  intros (ip0 & rest & Hips & Hne & Hip). unfold wire_of in *.
  cbn [ip_addresses ip_address] in *.
  destruct (IPs pa) as [|n [|n' l]]; simplify_eq/=; done.
Qed.

Lemma gateway_conflict_wire_of pa : ¬ gateway_conflict (wire_of pa).
Proof.
  intros (gw0 & rest & Hgws & Hne & Hgw). unfold wire_of in *.
  cbn [gateway_ips gateway_ip] in *.
  destruct (IPs pa) as [|n [|n' l]]; [done| |done].
  destruct (Gateways pa) as [|g [|g' l']]; simplify_eq/=; done.
Qed.

(** X5.  The annotation that MarshalPodAnnotation writes never fails the
    decoder's checks of the singular fields against the plural ones, and
    fails the check for an IP only when the PodAnnotation has no IP: the
    singular fields are written so that they agree with the lists. *)
Theorem encoded_is_consistent (pa : PodAnnotation) (m : gmap string json.text) :
  MarshalPodAnnotation pa = Ok m →
  UnmarshalPodAnnotation m ≠ Err ErrIPConflict
  ∧ UnmarshalPodAnnotation m ≠ Err ErrGatewayConflict
  ∧ (UnmarshalPodAnnotation m = Err ErrNoIPs → IPs pa = []).
Proof.
  intros (_ & _ & ->)%MarshalPodAnnotation_Ok_inv. split_and!.
  - intros He. apply unmarshalWire_Err_inv in He
      as [[_ ?]|[[Hm He]|[[? ?]|[(_ & _ & He)|[[? ?]|(r & _ & He)]]]]];
      try done.
    + apply wireIPs_Err_inv in He as [[? _]|[_ ?]]; [done|].
      by eapply ip_conflict_wire_of.
    + by apply wireGateways_Err_inv in He as [? _].
    + by apply unmarshalRoute_Err_inv in He as [?|[[? ?]|[?|?]]].
  - intros He. apply unmarshalWire_Err_inv in He
      as [[_ ?]|[[Hm He]|[[? ?]|[(_ & _ & He)|[[? ?]|(r & _ & He)]]]]];
      try done.
    + by apply wireIPs_Err_inv in He as [[? _]|[? _]].
    + apply wireGateways_Err_inv in He as [_ ?].
      by eapply gateway_conflict_wire_of.
    + by apply unmarshalRoute_Err_inv in He as [?|[[? ?]|[?|?]]].
  - intros He. apply unmarshalWire_Err_inv in He
      as [[_ ?]|[[Hm He]|[[? ?]|[(_ & _ & He)|[[? ?]|(r & _ & He)]]]]];
      try done.
    + apply wireIPs_Err_inv in He as [(_ & Hips & _)|[? _]]; [|done].
      cbn [wire_of ip_addresses] in Hips. by apply fmap_nil_inv in Hips.
    + by apply wireGateways_Err_inv in He as [? _].
    + by apply unmarshalRoute_Err_inv in He as [?|[[? ?]|[?|?]]].
Qed.

Lemma encoded_is_consistent_witness :
  ∃ m, MarshalPodAnnotation ex_no_ip = Ok m
       ∧ UnmarshalPodAnnotation m ≠ Err ErrIPConflict
       ∧ UnmarshalPodAnnotation m ≠ Err ErrGatewayConflict
       ∧ (UnmarshalPodAnnotation m = Err ErrNoIPs → IPs ex_no_ip = []).
Proof.
  eexists. split; [reflexivity|].
  apply (encoded_is_consistent ex_no_ip). reflexivity.
Defined.

(** X6.  A PodAnnotation that was decoded can be encoded again exactly when
    it does not have several gateways for a single IP: the decoder takes
    any number of gateways, and its routes are never default routes. *)
Theorem decoded_encodes_again (annotations : gmap string json.text) (pa : PodAnnotation) :
  UnmarshalPodAnnotation annotations = Ok pa →
  (is_Ok (MarshalPodAnnotation pa) ↔ ¬ single_stack_many_gateways pa)
  ∧ (single_stack_many_gateways pa →
     MarshalPodAnnotation pa = Err ErrSingleGateway).
Proof.
  intros Hu.
  apply UnmarshalPodAnnotation_Ok_inv in Hu as (a & _ & Hw).
  apply unmarshalWire_Ok_inv in Hw as (_ & _ & _ & _ & _ & _ & _ & Hrs).
  apply forM_Ok_Forall2 in Hrs.
  assert (Forall (λ r, ¬ default_route r) (Routes pa)) as Hnd.
  { eapply Forall2_Forall_r_impl; [|exact Hrs].
    by intros r R (_ & _ & ? & _)%unmarshalRoute_Ok_inv. }
  rewrite MarshalPodAnnotation_wire. split; [split|].
  - intros [m Hm] Hgw. by rewrite (marshalWire_Err_gateways _ Hgw) in Hm.
  - intros Hgw. rewrite (marshalWire_Ok _ Hgw Hnd). by eexists.
  - intros Hgw. by rewrite (marshalWire_Err_gateways _ Hgw).
Qed.

Lemma decoded_encodes_again_witness :
  ∃ pa, UnmarshalPodAnnotation (annotated ex_wire_two_gateways) = Ok pa
        ∧ MarshalPodAnnotation pa = Err ErrSingleGateway.
Proof.
  eexists. split; [reflexivity|].
  refine (proj2 (decoded_encodes_again (annotated ex_wire_two_gateways) _ _) _).
  - reflexivity.
  - split; simpl; lia.
Defined.

(** ** GetAllPodIPs *)

Lemma utilnet_parseIPv4_go_length i s p q :
  utilnet.parseIPv4_go i s p = Some q → length q = length p + i.
Proof.
  revert s p. induction i as [|i IH]; intros s p; cbn [utilnet.parseIPv4_go].
  - case_decide; [|done]. intros [= <-]. lia.
  - case_decide; [done|].
    assert (∀ s', (net.dtoi s' ≫= λ '(n, _, rest),
                     if (255 <? n)%N then None
                     else utilnet.parseIPv4_go i rest (p ++ [byte_of_N n])) = Some q →
                  length q = length p + S i) as Hstep.
    { intros s'. destruct (net.dtoi s') as [[[n j] rest]|]; simpl; [|done].
      case_match; [done|]. intros Hq%IH.
      rewrite length_app in Hq. simpl in Hq. lia. }
    repeat case_decide; simpl; [apply Hstep|apply Hstep|done].
Qed.

Lemma utilnet_parseIPv4_length s p : utilnet.parseIPv4 s = Some p → length p = 4.
Proof. intros H%utilnet_parseIPv4_go_length. done. Qed.

Lemma ParseIP_go_length s whole ip :
  utilnet.ParseIP_go s whole = Some ip → length ip = 16.
Proof.
  induction s as [|c r IH]; simpl; [done|].
  case_decide.
  - destruct (utilnet.parseIPv4 whole) as [p|] eqn:Hp; simpl; [|done].
    intros [= <-]. apply utilnet_parseIPv4_length in Hp.
    simpl. rewrite ?length_app. simpl. lia.
  - case_decide; [|done].
    apply parseIPv6_with_length, utilnet_parseIPv4_length.
Qed.

Lemma ParseIPSloppy_length s ip : utilnet.ParseIPSloppy s = Some ip → length ip = 16.
Proof. apply ParseIP_go_length. Qed.

Lemma omap_ParseIPSloppy_length l :
  Forall (λ ip, length ip = 16) (omap utilnet.ParseIPSloppy l).
Proof.
  induction l as [|s l IH]; simpl; [constructor|].
  destruct (utilnet.ParseIPSloppy s) as [ip|] eqn:Hs; [|done].
  constructor; [by eapply ParseIPSloppy_length|done].
Qed.

Lemma GetAllPodIPs_Ok_inv pod ips :
  GetAllPodIPs pod = Ok ips →
  ips ≠ [] ∧ Forall (λ ip, length ip = 16) ips.
Proof.
  unfold GetAllPodIPs.
  case_bool_decide as Hs.
  { intros [= <-]. split; [|apply omap_ParseIPSloppy_length].
    intros Hnil. rewrite Hnil in Hs. simpl in Hs. lia. }
  assert (∀ r : res (list net.IP),
    r = match utilnet.ParseIPSloppy (PodIP (Status pod)) with
        | Some ip => Ok [ip]
        | None => Err (ErrNoPodIPFound (Namespace pod) (Name pod))
        end →
    r = Ok ips → ips ≠ [] ∧ Forall (λ ip, length ip = 16) ips) as Hlegacy.
  { intros r -> Hr.
    destruct (utilnet.ParseIPSloppy (PodIP (Status pod))) as [ip|] eqn:Hip; [|done].
    injection Hr as <-. split; [done|].
    constructor; [by eapply ParseIPSloppy_length|constructor]. }
  destruct (UnmarshalPodAnnotation (Annotations pod)) as [annotation|] eqn:Ha.
  - case_bool_decide as Hl; [|by apply Hlegacy].
    intros [= <-]. split.
    + intros Hnil. rewrite Hnil in Hl. simpl in Hl. lia.
    + apply UnmarshalPodAnnotation_Ok_inv in Ha as (a & _ & Hw).
      apply unmarshalWire_Ok_inv in Hw as (aIPs & _ & _ & _ & Hips & _).
      apply forM_Ok_Forall2 in Hips. apply Forall_fmap.
      eapply Forall2_Forall_r_impl; [|exact Hips].
      intros s n Hn. by apply unmarshalIP_decoded in Hn as [? _].
  - by apply Hlegacy.
Qed.

(** X7.  What GetAllPodIPs returns is never empty and holds 16-byte
    addresses only.  Its only error is ErrNoPodIPFound for the pod, and it
    is returned exactly when no status address parses, the annotation is
    not there or is not valid, and the legacy status address does not parse:
    an error of the annotation is never reported. *)
Theorem GetAllPodIPs_result (pod : Pod) :
  (∀ ips, GetAllPodIPs pod = Ok ips →
          ips ≠ [] ∧ Forall (λ ip, length ip = 16) ips)
  ∧ (∀ e, GetAllPodIPs pod = Err e →
          e = ErrNoPodIPFound (Namespace pod) (Name pod))
  ∧ (is_Err (GetAllPodIPs pod) ↔
       omap utilnet.ParseIPSloppy (PodIPs (Status pod)) = []
       ∧ is_Err (UnmarshalPodAnnotation (Annotations pod))
       ∧ utilnet.ParseIPSloppy (PodIP (Status pod)) = None).
Proof.
  split; [apply GetAllPodIPs_Ok_inv|].
  unfold GetAllPodIPs.
  destruct (omap utilnet.ParseIPSloppy (PodIPs (Status pod))) as [|ip0 ips0] eqn:Hs.
  - rewrite bool_decide_false by (simpl; lia).
    destruct (UnmarshalPodAnnotation (Annotations pod)) as [annotation|e0] eqn:Ha.
    + pose proof (UnmarshalPodAnnotation_IPs _ _ Ha) as Hne.
      rewrite bool_decide_true
        by (rewrite length_fmap; destruct (IPs annotation); simpl; [done|lia]).
      split; [done|]. split; [by intros [e ?]|]. by intros (_ & [e ?] & _).
    + destruct (utilnet.ParseIPSloppy (PodIP (Status pod))) as [ip|] eqn:Hip.
      * split; [done|]. split; [by intros [e ?]|]. by intros (_ & _ & ?).
      * split; [by intros e [= <-]|]. split; [|by eexists].
        intros _. split_and!; [done|by eexists|done].
  - rewrite bool_decide_true by (simpl; lia).
    split; [done|]. split; [by intros [e ?]|]. by intros (? & _).
Qed.

Lemma GetAllPodIPs_result_witness :
  ([ip4 10 0 0 5] ≠ [] ∧ Forall (λ ip, length ip = 16) [ip4 10 0 0 5])
  ∧ is_Err (GetAllPodIPs ex_bare_pod).
Proof.
  split.
  - apply (proj1 (GetAllPodIPs_result ex_pod)). reflexivity.
  - apply (proj2 (proj2 (GetAllPodIPs_result ex_bare_pod))).
    split_and!; [reflexivity| |reflexivity]. eexists. reflexivity.
Defined.

(** ** GetPodCIDRsWithFullMask *)

Lemma and_byte_xff x : net.and_byte x Byte.xff = x.
Proof. by destruct x. Qed.

Lemma zip_with_and_byte_xff ip :
  zip_with net.and_byte ip (replicate (length ip) Byte.xff) = ip.
Proof.
  induction ip as [|x ip IH]; simpl; [done|]. by rewrite and_byte_xff, IH.
Qed.

(** The text of a 16-byte address with the full mask of its family parses
    to the address and to its own network. *)
Lemma ParseCIDR_full_mask ip :
  length ip = 16 →
  net.ParseCIDR
    (net.IP_String ip +:+ (if utilnet.IsIPv6 ip then "/128" else "/32")) =
    Some (ip, full_mask_net ip).
Proof.
  intros Hlen. unfold full_mask_net, utilnet.IsIPv6.
  rewrite bool_decide_false by (intros ->; done). cbn [negb andb].
  destruct (To4_length16 ip Hlen) as [[H4 _]|(a & b & c & d & ->)].
  - rewrite H4, bool_decide_true by done.
    rewrite (IP_String_v6 ip Hlen H4).
    change "/128" with ("/" +:+ net.uitoa 128).
    rewrite (ParseCIDR_text _ 128 (net.Addr6 ip));
      [|apply all_addr_chars_string6|by apply ParseAddr_string6|done].
    cbn [net.As16 net.BitLen].
    rewrite Mask_same_length by (by rewrite Hlen).
    change (net.CIDRMask 128 128) with (replicate 16 Byte.xff) at 1.
    by rewrite <-Hlen, zip_with_and_byte_xff.
  - rewrite To4_IPv4, bool_decide_false by done.
    rewrite IP_String_IPv4.
    change "/32" with ("/" +:+ net.uitoa 32).
    rewrite (ParseCIDR_text _ 32 (net.Addr4 [a; b; c; d]));
      [|apply all_addr_chars_string4|apply ParseAddr_string4|done].
    cbn [net.As16 net.BitLen].
    change (net.v4InV6Prefix ++ [a; b; c; d]) with (net.IPv4 a b c d).
    rewrite Mask_IPv4 by done.
    rewrite Mask_same_length by done.
    change (net.CIDRMask 32 32) with (replicate (length [a; b; c; d]) Byte.xff) at 1.
    by rewrite zip_with_and_byte_xff.
Qed.

(** X8.  With a GetIPFullMask that gives /128 for the text of an IPv6
    address and /32 for the text of an IPv4 address, GetPodCIDRsWithFullMask
    returns one network for each address of GetAllPodIPs, in the same order
    and with none skipped: the address itself under the full mask of its
    family, an IPv4 address in its 4-byte form.  It fails exactly as
    GetAllPodIPs does. *)
Theorem GetPodCIDRsWithFullMask_full
    (GetIPFullMask : string → string) (pod : Pod) :
  (∀ ip, length ip = 16 →
         GetIPFullMask (net.IP_String ip) =
           if utilnet.IsIPv6 ip then "/128" else "/32") →
  GetPodCIDRsWithFullMask GetIPFullMask pod =
    match GetAllPodIPs pod with
    | Ok podIPs => Ok (full_mask_net <$> podIPs)
    | Err err => Err err
    end.
Proof.
  intros HG. unfold GetPodCIDRsWithFullMask.
  destruct (GetAllPodIPs pod) as [podIPs|err] eqn:Hips; [|done].
  apply GetAllPodIPs_Ok_inv in Hips as [_ Hlen]. f_equal.
  induction Hlen as [|ip podIPs Hip _ IH]; [done|].
  cbn [omap list_omap fmap list_fmap].
  rewrite (HG ip Hip), (ParseCIDR_full_mask ip Hip). cbn [fmap option_fmap option_map snd].
  by rewrite <-IH.
Qed.

Lemma ex_GetIPFullMask_spec ip :
  length ip = 16 →
  ex_GetIPFullMask (net.IP_String ip) =
    if utilnet.IsIPv6 ip then "/128" else "/32".
Proof.
  intros Hlen. unfold ex_GetIPFullMask. by rewrite (ParseIP_IP_String ip Hlen).
Qed.

Lemma GetPodCIDRsWithFullMask_full_witness :
  GetPodCIDRsWithFullMask ex_GetIPFullMask ex_dual_pod =
    Ok [ {| net.IP_ := [byte_of_N 10; byte_of_N 0; byte_of_N 0; byte_of_N 5];
            net.Mask_ := net.CIDRMask 32 32 |};
         {| net.IP_ := net.IP_ ex_ip6; net.Mask_ := net.CIDRMask 128 128 |} ].
Proof.
  exact (GetPodCIDRsWithFullMask_full ex_GetIPFullMask ex_dual_pod
           ex_GetIPFullMask_spec).
Defined.

(** ** The members of the encoded record *)

Lemma has_member_plural a :
  json.has_member "ip_addresses" (json.marshal_podAnnotation a) = true
  ∧ json.has_member "mac_address" (json.marshal_podAnnotation a) = true
  ∧ json.has_member "gateway_ips" (json.marshal_podAnnotation a)
    = negb (bool_decide (gateway_ips a = []))
  ∧ json.has_member "routes" (json.marshal_podAnnotation a)
    = negb (bool_decide (routes a = [])).
Proof.
  unfold json.marshal_podAnnotation, json.omitempty.
  by repeat case_bool_decide.
Qed.

(** X9.  In the JSON that MarshalPodAnnotation writes for the default
    network, [ip_addresses] and [mac_address] are always there, even when
    the PodAnnotation has no IP, while [gateway_ips] is there exactly when
    there is a gateway and [routes] exactly when there is a route.  Leaving
    the empty members out loses nothing: a reader of the annotation gets
    the wire record that the encoder built. *)
Theorem plural_fields_emitted (pa : PodAnnotation) (m : gmap string json.text) :
  MarshalPodAnnotation pa = Ok m →
  ∃ a, marshalWire pa = Ok a
    ∧ carries m a
    ∧ json.has_member "ip_addresses" (json.marshal_podAnnotation a) = true
    ∧ json.has_member "mac_address" (json.marshal_podAnnotation a) = true
    ∧ (json.has_member "gateway_ips" (json.marshal_podAnnotation a) = true
       ↔ Gateways pa ≠ [])
    ∧ (json.has_member "routes" (json.marshal_podAnnotation a) = true
       ↔ Routes pa ≠ []).
Proof.
  rewrite MarshalPodAnnotation_wire.
  destruct (marshalWire pa) as [a|e] eqn:Hw; [|done]. intros [= <-].
  exists a. split; [done|]. split; [apply carries_marshalled|].
  destruct (has_member_plural a) as (-> & -> & -> & ->).
  apply marshalWire_Ok_inv in Hw as (_ & _ & ->).
  cbn [wire_of gateway_ips routes].
  rewrite !negb_true_iff, !bool_decide_eq_false.
  split_and!; [done|done| |].
  - split; intros H; contradict H.
    + by rewrite H.
    + by apply fmap_nil_inv in H.
  - split; intros H; contradict H.
    + by rewrite H.
    + by apply fmap_nil_inv in H.
Qed.

Lemma plural_fields_emitted_witness :
  ∃ m, MarshalPodAnnotation ex_no_ip = Ok m
    ∧ ∃ a, marshalWire ex_no_ip = Ok a
        ∧ carries m a
        ∧ json.has_member "ip_addresses" (json.marshal_podAnnotation a) = true
        ∧ json.has_member "mac_address" (json.marshal_podAnnotation a) = true
        ∧ (json.has_member "gateway_ips" (json.marshal_podAnnotation a) = true
           ↔ Gateways ex_no_ip ≠ [])
        ∧ (json.has_member "routes" (json.marshal_podAnnotation a) = true
           ↔ Routes ex_no_ip ≠ []).
Proof.
  eexists. split; [reflexivity|].
  apply (plural_fields_emitted ex_no_ip). reflexivity.
Defined.

(** ** Encoding is one to one on the parsed form *)

(** X10.  MarshalPodAnnotation is one to one on the PodAnnotations in
    parsed form, those that encoding and decoding give back unchanged: two
    of them that are encoded to the same annotation are the same.  It is
    not one to one on all that the decoder returns: the PodAnnotations that
    are decoded from the IP ::ffff:1.2.3.4/120 and from the IP 1.2.3.4/24
    differ, the first having a 16-byte mask, and both are encoded with the
    IP 1.2.3.4/24. *)
Theorem MarshalPodAnnotation_injective :
  (∀ (pa1 pa2 : PodAnnotation) (m : gmap string json.text),
     parsed pa1 → parsed pa2 →
     MarshalPodAnnotation pa1 = Ok m →
     MarshalPodAnnotation pa2 = Ok m →
     pa1 = pa2)
  ∧ (∃ (pa1 pa2 : PodAnnotation) (m : gmap string json.text),
       UnmarshalPodAnnotation (annotated (ex_wire_ip "::ffff:1.2.3.4/120")) = Ok pa1
       ∧ UnmarshalPodAnnotation (annotated (ex_wire_ip "1.2.3.4/24")) = Ok pa2
       ∧ pa1 ≠ pa2
       ∧ MarshalPodAnnotation pa1 = Ok m
       ∧ MarshalPodAnnotation pa2 = Ok m
       ∧ m = annotated (ex_wire_ip_encoded "1.2.3.4/24")).
Proof.
  split.
  - intros pa1 pa2 m Hp1 Hp2 (_ & _ & H1)%MarshalPodAnnotation_Ok_inv
      (_ & _ & H2)%MarshalPodAnnotation_Ok_inv.
    rewrite (unmarshalWire_wire_of _ Hp1) in H1.
    rewrite (unmarshalWire_wire_of _ Hp2) in H2. congruence.
  - eexists _, _, _. split; [reflexivity|]. split; [reflexivity|].
    split; [discriminate|]. split; [reflexivity|]. split; reflexivity.
Qed.

Lemma MarshalPodAnnotation_injective_witness : ex_gateway = ex_gateway.
Proof.
  eapply (proj1 MarshalPodAnnotation_injective ex_gateway ex_gateway);
    [exact parsed_ex_gateway | exact parsed_ex_gateway
    | reflexivity | reflexivity].
Defined.

(** ** Decoding what was encoded *)

Lemma To4_cases ip :
  net.To4 ip = [] ∨ ∃ a b c d, net.To4 ip = [a; b; c; d].
Proof.
  unfold net.To4, net.IPv4len, net.IPv6len.
  case_decide as H4.
  - right. destruct ip as [|a [|b [|c [|d [|]]]]]; try done. by exists a, b, c, d.
  - case_decide as H16; [|by left]. right. destruct H16 as [H16 _].
    assert (length (drop 12 ip) = 4) as Hd by (rewrite length_drop; lia).
    destruct (drop 12 ip) as [|a [|b [|c [|d [|]]]]]; try done.
    by exists a, b, c, d.
Qed.

(** The text of a network is "<nil>", or the text of a 4-byte address or
    of a 16-byte address that is not an IPv4 address, a slash and a
    mask. *)
Lemma IPNet_String_cases n :
  net.IPNet_String n = "<nil>"
  ∨ ∃ nn x, net.IPNet_String n = net.IP_String nn +:+ "/" +:+ x
      ∧ ((∃ a b c d, nn = [a; b; c; d] ∧ net.To4 (net.IP_ n) = nn)
         ∨ (nn = net.IP_ n ∧ length nn = 16 ∧ net.To4 nn = [])).
Proof.
  unfold net.IPNet_String, net.networkNumberAndMask, net.IPv4len, net.IPv6len.
  destruct (To4_cases (net.IP_ n)) as [H4|(a & b & c & d & H4)]; rewrite H4.
  - rewrite decide_True by done.
    destruct (decide (length (net.IP_ n) = 16)) as [H16|H16];
      cbn [mbind option_bind]; [|by left].
    assert (length (net.IP_ n) ≠ 4) as Hn4 by lia.
    repeat case_decide; try lia; try (by left);
      case_match; right; eexists _, _; (split; [done|]); by right.
  - rewrite decide_False by done. cbn [mbind option_bind].
    repeat case_decide; simpl in *; try lia; try (by left);
      case_match; right; eexists _, _; (split; [done|]); left; by eexists _, _, _, _.
Qed.

Lemma ParseCIDR_nil : net.ParseCIDR "<nil>" = None.
Proof. reflexivity. Qed.

(** What [ParseCIDR] makes of a text with a slash after an address. *)
Lemma ParseCIDR_text_inv s x addr ip n :
  all_chars is_addr_char s = true →
  net.ParseAddr s = Some addr →
  net.ParseCIDR (s +:+ "/" +:+ x) = Some (ip, n) →
  ∃ ones, (ones ≤ net.BitLen addr)%N
    ∧ ip = net.As16 addr
    ∧ n = {| net.IP_ := net.Mask ip (net.CIDRMask ones (net.BitLen addr));
             net.Mask_ := net.CIDRMask ones (net.BitLen addr) |}.
Proof.
  intros Hs Ha. unfold net.ParseCIDR. rewrite (cut_slash s x Hs).
  cbn [mbind option_bind]. rewrite Ha. cbn [mbind option_bind].
  destruct (net.dtoi x) as [[[ones i] rest]|]; cbn [mbind option_bind]; [|done].
  destruct (negb _); [done|].
  destruct (N.ltb_spec (net.BitLen addr) ones); [done|].
  intros [= <- <-]. by exists ones.
Qed.

(** The address and the network that are read from the text of a network:
    an IPv4 address with a 4-byte mask, or a 16-byte address that is not an
    IPv4 address with a 16-byte mask. *)
Lemma ParseCIDR_IPNet_String_inv n ip net' :
  net.ParseCIDR (net.IPNet_String n) = Some (ip, net') →
  ∃ ones,
    ((∃ a b c d, ip = net.IPv4 a b c d ∧ net.To4 (net.IP_ n) = [a; b; c; d])
     ∧ (ones ≤ 32)%N
     ∧ net' = {| net.IP_ := net.Mask ip (net.CIDRMask ones 32);
                 net.Mask_ := net.CIDRMask ones 32 |})
    ∨ (ip = net.IP_ n ∧ length ip = 16 ∧ net.To4 ip = [] ∧ (ones ≤ 128)%N
       ∧ net' = {| net.IP_ := net.Mask ip (net.CIDRMask ones 128);
                   net.Mask_ := net.CIDRMask ones 128 |}).
Proof.
  destruct (IPNet_String_cases n)
    as [->|(nn & x & -> & [(a & b & c & d & -> & H4)|(-> & Hlen & H4)])].
  - by rewrite ParseCIDR_nil.
  - rewrite IP_String_length4. intros Hp.
    apply (ParseCIDR_text_inv _ _ (net.Addr4 [a; b; c; d])) in Hp
      as (ones & Hones & -> & ->);
      [|apply all_addr_chars_string4|apply ParseAddr_string4].
    exists ones. left. split_and!; [by exists a, b, c, d|done|done].
  - rewrite (IP_String_v6 _ Hlen H4). intros Hp.
    apply (ParseCIDR_text_inv _ _ (net.Addr6 (net.IP_ n))) in Hp
      as (ones & Hones & -> & ->);
      [|apply all_addr_chars_string6|by apply ParseAddr_string6].
    exists ones. right. by split_and!.
Qed.

(** An address that is decoded from the text of any network is in parsed
    form. *)
Lemma unmarshalIP_IPNet_String n n' :
  unmarshalIP (net.IPNet_String n) = Ok n' → parsed_address n'.
Proof.
  unfold unmarshalIP.
  destruct (net.ParseCIDR (net.IPNet_String n)) as [[ip net']|] eqn:Hp; [|done].
  intros [= <-].
  apply ParseCIDR_IPNet_String_inv in Hp
    as (ones & [((a & b & c & d & -> & _) & Hones & ->)
               |(_ & Hlen & H4 & Hones & ->)]);
    unfold parsed_address, bits_of; cbn [net.IP_ net.Mask_].
  - split; [done|]. rewrite To4_IPv4, decide_False by done. by exists ones.
  - split; [done|]. rewrite H4, decide_True by done. by exists ones.
Qed.

Lemma mask96_range : forallb mask96_ok (N_range 129 0) = true.
Proof. vm_compute. reflexivity. Qed.

Lemma mask96_spec ones :
  (ones ≤ 128)%N →
  net.CIDRMask ones 128 !! 11 = Some Byte.xff →
  take 12 (net.CIDRMask ones 128) = replicate 12 Byte.xff.
Proof.
  intros Hones H11.
  pose proof (proj1 (forallb_forall _ _) mask96_range ones) as Hok.
  unfold mask96_ok in Hok. rewrite bool_decide_true in Hok by done.
  assert (In ones (N_range 129 0)) as Hin
    by (apply list_elem_of_In, elem_of_N_range; lia).
  specialize (Hok Hin). by apply bool_decide_eq_true_1 in Hok.
Qed.

Lemma and_byte_xff_inv x y : net.and_byte x y = Byte.xff → y = Byte.xff.
Proof.
  unfold net.and_byte. intros H. apply (f_equal Byte.to_N) in H.
  rewrite to_N_byte_of_N in H.
  pose proof (Byte.to_N_bounded x) as Hx.
  pose proof (Byte.to_N_bounded y) as Hy.
  pose proof (N.land_le_l (Byte.to_N x) (Byte.to_N y)) as Hle.
  rewrite N.mod_small in H by lia.
  assert (N.land (Byte.to_N x) (Byte.to_N y) ≤ Byte.to_N y)%N as Hle'
    by (rewrite N.land_comm; apply N.land_le_l).
  change (Byte.to_N Byte.xff) with 255%N in H.
  assert (Byte.to_N y = Byte.to_N Byte.xff) as Hy'
    by (change (Byte.to_N Byte.xff) with 255%N; lia).
  by rewrite <-(byte_of_to_N y), Hy', byte_of_to_N.
Qed.

(** The network of an address that is not an IPv4 address is not one
    either. *)
Lemma To4_Mask_v6 ip ones :
  length ip = 16 → net.To4 ip = [] → (ones ≤ 128)%N →
  net.To4 (zip_with net.and_byte ip (net.CIDRMask ones 128)) = [].
Proof.
  intros Hlen H4 Hones.
  assert (length (net.CIDRMask ones 128) = 16) as Hm
    by (by rewrite (length_CIDRMask ones 128) by auto).
  set (m := net.CIDRMask ones 128) in *.
  assert (length (zip_with net.and_byte ip m) = 16) as Hz
    by (rewrite length_zip_with; lia).
  destruct (To4_length16 _ Hz) as [[? _]|(a & b & c & d & Hv4)]; [done|].
  exfalso.
  destruct (To4_length16 ip Hlen) as [[_ Hne]|(a' & b' & c' & d' & ->)];
    [|done].
  apply Hne.
  assert (take 12 (zip_with net.and_byte ip m) = net.v4InV6Prefix) as Hp
    by (by rewrite Hv4).
  rewrite zip_with_take in Hp.
  assert (m !! 11 = Some Byte.xff) as H11.
  { assert (zip_with net.and_byte (take 12 ip) (take 12 m) !! 11
            = Some Byte.xff) as Hl by (by rewrite Hp).
    apply lookup_zip_with_Some in Hl as (x & y & Hxy & _ & Hy).
    symmetry in Hxy. apply and_byte_xff_inv in Hxy as ->.
    by rewrite lookup_take in Hy by lia. }
  unfold m in Hp. rewrite (mask96_spec ones Hones H11) in Hp.
  assert (length (take 12 ip) = 12) as Ht by (rewrite length_take; lia).
  rewrite <-Ht in Hp at 2. by rewrite zip_with_and_byte_xff in Hp.
Qed.

(** A network that is read from the text of any network is in parsed
    form. *)
Lemma ParseCIDR_IPNet_String_network n ip net' :
  net.ParseCIDR (net.IPNet_String n) = Some (ip, net') → parsed_network net'.
Proof.
  intros Hp.
  apply ParseCIDR_IPNet_String_inv in Hp
    as (ones & [((a & b & c & d & -> & _) & Hones & ->)
               |(_ & Hlen & H4 & Hones & ->)]).
  - assert (length (net.CIDRMask ones 32) = 4) as Hm
      by (by rewrite (length_CIDRMask ones 32) by auto).
    rewrite Mask_IPv4, Mask_same_length by done.
    assert (length (zip_with net.and_byte [a; b; c; d] (net.CIDRMask ones 32)) = 4)
      as Hl by (by rewrite length_zip_with, Hm).
    unfold parsed_network, bits_of. cbn [net.IP_ net.Mask_].
    rewrite To4_length4 by done.
    rewrite decide_False by (intros H0; by rewrite H0 in Hl).
    split; [by left|]. split; [by exists ones|].
    rewrite Mask_same_length by lia. apply zip_with_and_byte_idemp.
  - assert (length (net.CIDRMask ones 128) = 16) as Hm
      by (by rewrite (length_CIDRMask ones 128) by auto).
    rewrite Mask_same_length by lia.
    assert (length (zip_with net.and_byte ip (net.CIDRMask ones 128)) = 16)
      as Hl by (rewrite length_zip_with; lia).
    pose proof (To4_Mask_v6 ip ones Hlen H4 Hones) as Hz.
    unfold parsed_network, bits_of. cbn [net.IP_ net.Mask_].
    rewrite Hz, decide_True by done.
    split; [by right|]. split; [by exists ones|].
    rewrite Mask_same_length by lia. apply zip_with_and_byte_idemp.
Qed.

Lemma unmarshalRoute_IPNet_String r R :
  unmarshalRoute {| dest := net.IPNet_String (Dest r);
                    nextHop := from_option net.IP_String "" (NextHop r) |} = Ok R →
  parsed_route R.
Proof.
  intros (ip & Hp & Hd & Hnh)%unmarshalRoute_Ok_inv. cbn [dest nextHop] in *.
  split_and!; [by eapply ParseCIDR_IPNet_String_network|done|].
  destruct Hnh as [[_ ->]|(_ & nh & Hnh & -> & Hf)]; [done|].
  split; [by eapply ParseIP_length|done].
Qed.

Lemma parsed_roundtrip pa :
  parsed pa →
  ∃ m, MarshalPodAnnotation pa = Ok m ∧ UnmarshalPodAnnotation m = Ok pa.
Proof.
  intros Hpa. pose proof Hpa as (_ & _ & _ & _ & Hrs & Hgw).
  rewrite MarshalPodAnnotation_wire, marshalWire_Ok; [|done|].
  - eexists. split; [done|].
    rewrite (UnmarshalPodAnnotation_carries _ _ (carries_marshalled _)).
    by apply unmarshalWire_wire_of.
  - eapply Forall_impl; [exact Hrs|]. by intros r (_ & ? & _).
Qed.

(** X11.  Encoding and then decoding brings any PodAnnotation to the form
    the decoder produces, whatever the form of its addresses was: when both
    succeed, the PodAnnotation that comes back is in parsed form, and
    encoding and decoding it again gives it back unchanged. *)
Theorem decode_encode_normalises
    (pa pa' : PodAnnotation) (m : gmap string json.text) :
  MarshalPodAnnotation pa = Ok m →
  UnmarshalPodAnnotation m = Ok pa' →
  parsed pa'
  ∧ ∃ m', MarshalPodAnnotation pa' = Ok m' ∧ UnmarshalPodAnnotation m' = Ok pa'.
Proof.
  intros (Hgw & _ & ->)%MarshalPodAnnotation_Ok_inv Hw.
  assert (parsed pa') as Hp; [|split; [done|by apply parsed_roundtrip]].
  pose proof (unmarshalWire_IPs _ _ Hw) as Hne.
  apply unmarshalWire_Ok_inv in Hw
    as (aIPs & aGateways & Hmac & HaIPs & Hips & HaGws & Hgws & Hrs).
  assert (IPs pa ≠ []) as Hne0.
  { intros Hnil. unfold wireIPs, wire_of in HaIPs.
    cbn [ip_addresses ip_address] in HaIPs. by rewrite Hnil in HaIPs. }
  rewrite (wireIPs_wire_of pa Hne0) in HaIPs. injection HaIPs as <-.
  rewrite wireGateways_wire_of in HaGws. injection HaGws as <-.
  pose proof (forM_Ok_length _ _ _ Hips) as Hlips.
  pose proof (forM_Ok_length _ _ _ Hgws) as Hlgws.
  rewrite length_fmap in Hlips. rewrite length_fmap in Hlgws.
  apply forM_Ok_Forall2 in Hips, Hgws, Hrs.
  cbn [wire_of routes] in Hrs.
  apply Forall2_fmap_l in Hips, Hgws, Hrs.
  unfold parsed. split_and!.
  - done.
  - eapply Forall2_Forall_r_impl; [|exact Hips].
    intros n n'. apply unmarshalIP_IPNet_String.
  - by eapply ParseMAC_length.
  - eapply Forall2_Forall_r_impl; [|exact Hgws].
    intros gw gw'. simpl. unfold unmarshalGateway.
    destruct (net.ParseIP (net.IP_String gw)) as [x|] eqn:Hx; [|done].
    intros [= <-]. by eapply ParseIP_length.
  - eapply Forall2_Forall_r_impl; [|exact Hrs].
    intros r R. apply unmarshalRoute_IPNet_String.
  - unfold single_stack_many_gateways in *. lia.
Qed.

Lemma decode_encode_normalises_witness :
  ∃ m pa', MarshalPodAnnotation ex_host_route = Ok m
    ∧ UnmarshalPodAnnotation m = Ok pa'
    ∧ pa' ≠ ex_host_route
    ∧ parsed pa'
    ∧ ∃ m', MarshalPodAnnotation pa' = Ok m' ∧ UnmarshalPodAnnotation m' = Ok pa'.
Proof.
  eexists _, _. split; [reflexivity|]. split; [reflexivity|].
  split; [discriminate|].
  eapply (decode_encode_normalises ex_host_route); reflexivity.
Defined.

(** ** What encoding and decoding keep *)

(** Only a hardware address of 6, 8 or 20 octets parses from its text,
    and it parses to itself. *)
Lemma ParseMAC_String_inv a hw :
  net.ParseMAC (net.HardwareAddr_String a) = Some hw → hw = a.
Proof.
  destruct (decide (length a = 6 ∨ length a = 8 ∨ length a = 20)) as [Hlen|Hlen].
  { rewrite (ParseMAC_String a Hlen). by intros [= <-]. }
  destruct a as [|b1 [|b2 a]]; [done|done|].
  pose proof (length_HardwareAddr_String (b1 :: b2 :: a) ltac:(done)) as Hl.
  unfold net.ParseMAC. rewrite sget_2_HardwareAddr_String.
  case_bool_decide; [done|].
  rewrite (bool_decide_true (":"%char = ":"%char)) by done.
  cbn [orb]. rewrite Hl.
  replace (3 * length (b1 :: b2 :: a)) with (length (b1 :: b2 :: a) * 3) by lia.
  rewrite Nat.Div0.mod_mul, Nat.div_mul by done.
  rewrite (bool_decide_true (0 = 0)) by done.
  by rewrite bool_decide_false by done.
Qed.

Lemma To4_quad_inv ip a b c d :
  net.To4 ip = [a; b; c; d] → ip = [a; b; c; d] ∨ ip = net.IPv4 a b c d.
Proof.
  unfold net.To4, net.IPv4len, net.IPv6len.
  case_decide; [by left|]. case_decide as H16; [|done].
  destruct H16 as [_ Hp]. intros Hd. right.
  by rewrite <-(take_drop 12 ip), Hp, Hd.
Qed.

Lemma Equal_refl ip : net.Equal ip ip = true.
Proof.
  unfold net.Equal. rewrite decide_True by done. by rewrite bool_decide_true.
Qed.

Lemma Equal_To4 ip a b c d :
  net.To4 ip = [a; b; c; d] → net.Equal ip (net.IPv4 a b c d) = true.
Proof.
  intros [-> | ->]%To4_quad_inv; [|apply Equal_refl].
  unfold net.Equal, net.IPv4len, net.IPv6len.
  rewrite decide_False by done. rewrite decide_True by done.
  by rewrite bool_decide_true.
Qed.

(** The address that is read from the text of a network equals the
    address of the network. *)
Lemma ParseCIDR_IPNet_String_Equal n ip net' :
  net.ParseCIDR (net.IPNet_String n) = Some (ip, net') →
  net.Equal (net.IP_ n) ip = true
  ∧ net.IP_ net' = net.Mask ip (net.Mask_ net').
Proof.
  intros Hp. apply ParseCIDR_IPNet_String_inv in Hp
    as (ones & [((a & b & c & d & -> & H4) & _ & ->)|(-> & _ & _ & _ & ->)]).
  - split; [by apply Equal_To4|done].
  - split; [apply Equal_refl|done].
Qed.

Lemma all_hex_hexString b : all_chars is_hex (net.hexString b) = true.
Proof.
  induction b as [|c b IH]; [done|].
  cbn [net.hexString foldr all_chars]. fold (net.hexString b).
  pose proof (Byte.to_N_bounded c) as Hc.
  rewrite !is_hex_hexDigit; [done| |].
  - apply N.mod_lt. done.
  - apply N.Div0.div_lt_upper_bound. lia.
Qed.

Lemma ParseAddr_go_no_separator s whole :
  all_chars is_hex s = true → net.ParseAddr_go s whole = None.
Proof.
  induction s as [|c s IH]; [done|]. cbn [all_chars net.ParseAddr_go].
  intros [Hc Hs]%andb_prop.
  rewrite !decide_False; [by apply IH| | |]; by intros ->.
Qed.

(** Only a 4-byte or a 16-byte address parses from its text: to its
    16-byte form. *)
Lemma ParseIP_IP_String_inv ip ip' :
  net.ParseIP (net.IP_String ip) = Some ip' →
  (∃ a b c d, ip = [a; b; c; d] ∧ ip' = net.IPv4 a b c d)
  ∨ (length ip = 16 ∧ ip' = ip).
Proof.
  unfold net.IP_String, net.IPv4len, net.IPv6len.
  case_decide as H0; [done|].
  case_decide as Hlen.
  { unfold net.ParseIP, net.ParseAddr.
    change ("?" +:+ net.hexString ip) with (String "?" (net.hexString ip)).
    cbn [net.ParseAddr_go]. rewrite !decide_False by done.
    by rewrite ParseAddr_go_no_separator by apply all_hex_hexString. }
  assert (length ip = 4 ∨ length ip = 16) as [H4|H16].
  { destruct (decide (length ip = 4)); [by left|]. right.
    destruct (decide (length ip = 16)); [done|]. by destruct Hlen. }
  - destruct ip as [|a [|b [|c [|d [|]]]]]; try done.
    change (if decide (length (net.To4 [a; b; c; d]) = 4)
            then net.string4 (net.To4 [a; b; c; d]) else net.string6 [a; b; c; d])
      with (net.string4 [a; b; c; d]).
    unfold net.ParseIP. rewrite ParseAddr_string4. intros [= <-].
    left. by exists a, b, c, d.
  - intros Hp.
    assert (net.ParseIP (net.IP_String ip) = Some ip') as Hp'.
    { unfold net.IP_String, net.IPv4len, net.IPv6len.
      rewrite decide_False by done. by rewrite decide_False by done. }
    rewrite (ParseIP_IP_String ip H16) in Hp'. injection Hp' as <-.
    by right.
Qed.

(** The address that is read from the text of an address equals it. *)
Lemma ParseIP_IP_String_Equal ip ip' :
  net.ParseIP (net.IP_String ip) = Some ip' → net.Equal ip ip' = true.
Proof.
  intros [(a & b & c & d & -> & ->)|[_ ->]]%ParseIP_IP_String_inv.
  - by apply Equal_To4.
  - apply Equal_refl.
Qed.

Lemma unmarshalRoute_kept r R :
  unmarshalRoute {| dest := net.IPNet_String (Dest r);
                    nextHop := from_option net.IP_String "" (NextHop r) |} = Ok R →
  route_kept r R.
Proof.
  intros (ip & Hp & _ & Hnh)%unmarshalRoute_Ok_inv. cbn [dest nextHop] in *.
  split.
  - exists ip. by eapply ParseCIDR_IPNet_String_Equal.
  - destruct (NextHop r) as [nh|]; cbn [from_option] in Hnh.
    + destruct Hnh as [[Hnil _]|(_ & nh' & Hnh & -> & _)].
      * by apply IP_String_nonempty in Hnil.
      * by apply ParseIP_IP_String_Equal.
    + by destruct Hnh as [[_ ->]|[? _]].
Qed.

(** X12.  Encoding and then decoding keeps the hardware address as it is,
    and every IP, gateway and next hop up to the length of its form: the
    address that comes back equals the original in the sense of [Equal],
    which takes a 4-byte address and its 16-byte form for the same.  The
    lists keep their lengths and their order.  A route destination comes
    back as the network of its address under the mask that is read. *)
Theorem roundtrip_keeps_addresses
    (pa pa' : PodAnnotation) (m : gmap string json.text) :
  MarshalPodAnnotation pa = Ok m →
  UnmarshalPodAnnotation m = Ok pa' →
  MAC pa' = MAC pa
  ∧ Forall2 (λ n n', net.Equal (net.IP_ n) (net.IP_ n') = true) (IPs pa) (IPs pa')
  ∧ Forall2 (λ gw gw', net.Equal gw gw' = true) (Gateways pa) (Gateways pa')
  ∧ Forall2 route_kept (Routes pa) (Routes pa').
Proof.
  intros (Hgw & _ & ->)%MarshalPodAnnotation_Ok_inv Hw.
  apply unmarshalWire_Ok_inv in Hw
    as (aIPs & aGateways & Hmac & HaIPs & Hips & HaGws & Hgws & Hrs).
  assert (IPs pa ≠ []) as Hne0.
  { intros Hnil. unfold wireIPs, wire_of in HaIPs.
    cbn [ip_addresses ip_address] in HaIPs. by rewrite Hnil in HaIPs. }
  rewrite (wireIPs_wire_of pa Hne0) in HaIPs. injection HaIPs as <-.
  rewrite wireGateways_wire_of in HaGws. injection HaGws as <-.
  apply forM_Ok_Forall2 in Hips, Hgws, Hrs.
  cbn [wire_of routes mac_address] in Hrs, Hmac.
  apply Forall2_fmap_l in Hips, Hgws, Hrs.
  split_and!.
  - by apply ParseMAC_String_inv in Hmac.
  - eapply Forall2_impl; [exact Hips|]. intros n n'. simpl. unfold unmarshalIP.
    destruct (net.ParseCIDR (net.IPNet_String n)) as [[ip net']|] eqn:Hp; [|done].
    intros [= <-]. cbn [net.IP_]. by eapply ParseCIDR_IPNet_String_Equal.
  - eapply Forall2_impl; [exact Hgws|]. intros gw gw'. simpl.
    unfold unmarshalGateway.
    destruct (net.ParseIP (net.IP_String gw)) as [x|] eqn:Hx; [|done].
    intros [= <-]. by apply ParseIP_IP_String_Equal.
  - eapply Forall2_impl; [exact Hrs|]. intros r R. apply unmarshalRoute_kept.
Qed.

Lemma roundtrip_keeps_addresses_witness :
  ∃ m pa', MarshalPodAnnotation ex_host_route = Ok m
    ∧ UnmarshalPodAnnotation m = Ok pa'
    ∧ MAC pa' = MAC ex_host_route
    ∧ Forall2 (λ n n', net.Equal (net.IP_ n) (net.IP_ n') = true)
        (IPs ex_host_route) (IPs pa')
    ∧ Forall2 (λ gw gw', net.Equal gw gw' = true) (Gateways ex_host_route)
        (Gateways pa')
    ∧ Forall2 route_kept (Routes ex_host_route) (Routes pa').
Proof.
  eexists _, _. split; [reflexivity|]. split; [reflexivity|].
  eapply (roundtrip_keeps_addresses ex_host_route); reflexivity.
Defined.

(** ** What the encoder lets through and the decoder refuses *)

Lemma IsIPv6_quad a b c d : utilnet.IsIPv6 [a; b; c; d] = false.
Proof. reflexivity. Qed.

Lemma IsIPv6_IPv4 a b c d : utilnet.IsIPv6 (net.IPv4 a b c d) = false.
Proof. reflexivity. Qed.

Lemma IsIPv6_To4_nil ip : length ip = 16 → net.To4 ip = [] → utilnet.IsIPv6 ip = true.
Proof.
  intros Hlen H4. unfold utilnet.IsIPv6.
  rewrite bool_decide_false by (by intros ->). by rewrite H4.
Qed.

Lemma IsIPv6_To4_quad ip a b c d :
  net.To4 ip = [a; b; c; d] → utilnet.IsIPv6 ip = false.
Proof. by intros [-> | ->]%To4_quad_inv. Qed.

(** The text of an address keeps its family. *)
Lemma ParseIP_IP_String_family ip ip' :
  net.ParseIP (net.IP_String ip) = Some ip' →
  utilnet.IsIPv6 ip' = utilnet.IsIPv6 ip.
Proof. by intros [(a & b & c & d & -> & ->)|[_ ->]]%ParseIP_IP_String_inv. Qed.

(** The text of a network keeps its family. *)
Lemma ParseCIDR_IPNet_String_family n ip net' :
  net.ParseCIDR (net.IPNet_String n) = Some (ip, net') →
  utilnet.IsIPv6CIDR net' = utilnet.IsIPv6CIDR n.
Proof.
  intros Hp. unfold utilnet.IsIPv6CIDR.
  apply ParseCIDR_IPNet_String_inv in Hp
    as (ones & [((a & b & c & d & -> & H4) & Hones & ->)
               |(-> & Hlen & H4 & Hones & ->)]); cbn [net.IP_].
  - rewrite (IsIPv6_To4_quad _ _ _ _ _ H4).
    assert (length (net.CIDRMask ones 32) = 4) as Hm
      by (by rewrite (length_CIDRMask ones 32) by auto).
    rewrite Mask_IPv4, Mask_same_length by done.
    destruct (net.CIDRMask ones 32) as [|m0 [|m1 [|m2 [|m3 [|]]]]]; try done.
  - assert (length (net.CIDRMask ones 128) = 16) as Hm
      by (by rewrite (length_CIDRMask ones 128) by auto).
    rewrite Mask_same_length by lia.
    rewrite (IsIPv6_To4_nil _ Hlen H4).
    apply IsIPv6_To4_nil; [rewrite length_zip_with; lia|].
    by apply To4_Mask_v6.
Qed.

Lemma and_byte_x00 x : net.and_byte x Byte.x00 = Byte.x00.
Proof. by destruct x. Qed.

Lemma zip_with_and_byte_x00 ip :
  zip_with net.and_byte ip (replicate (length ip) Byte.x00)
  = replicate (length ip) Byte.x00.
Proof.
  induction ip as [|x ip IH]; simpl; [done|]. by rewrite and_byte_x00, IH.
Qed.

(** A network of prefix length 0 is written as a text that is read as a
    network with the unspecified address. *)
Lemma ParseCIDR_zero_prefix n :
  zero_prefix n →
  ∃ ip net', net.ParseCIDR (net.IPNet_String n) = Some (ip, net')
             ∧ net.IsUnspecified (net.IP_ net') = true.
Proof.
  destruct n as [ip m]. unfold zero_prefix. cbn [net.IP_ net.Mask_].
  intros [[H4 ->]|(Hlen & H4 & ->)].
  - destruct (To4_cases ip) as [?|(a & b & c & d & Hq)]; [done|].
    apply To4_quad_inv in Hq.
    eexists _, _. split; [by apply (ParseCIDR_v4 ip a b c d 0)|].
    cbn [net.IP_]. rewrite Mask_IPv4, Mask_same_length by done.
    change (net.CIDRMask 0 32) with (replicate (length [a; b; c; d]) Byte.x00).
    by rewrite zip_with_and_byte_x00.
  - eexists _, _. split; [by apply (ParseCIDR_v6 ip 0)|].
    cbn [net.IP_]. rewrite Mask_same_length by (by rewrite Hlen).
    change (net.CIDRMask 0 128) with (replicate 16 Byte.x00).
    by rewrite <-Hlen, zip_with_and_byte_x00, Hlen.
Qed.

Lemma unmarshalRoute_unchecked r :
  zero_prefix (Dest r)
  ∨ (∃ nh, NextHop r = Some nh
           ∧ utilnet.IsIPv6 nh ≠ utilnet.IsIPv6CIDR (Dest r)) →
  is_Err (unmarshalRoute
            {| dest := net.IPNet_String (Dest r);
               nextHop := from_option net.IP_String "" (NextHop r) |}).
Proof.
  intros [Hz|(nh & Hnh & Hf)].
  - apply ParseCIDR_zero_prefix in Hz as (ip & net' & Hp & Hu).
    eexists. by eapply unmarshalRoute_default.
  - destruct (unmarshalRoute _) as [R|e] eqn:HR; [|by eexists].
    exfalso. apply Hf.
    apply unmarshalRoute_Ok_inv in HR as (ip & Hp & _ & Hnh').
    cbn [dest nextHop] in *. rewrite Hnh in Hnh'. cbn [from_option] in Hnh'.
    destruct Hnh' as [[Hnil _]|(_ & nh' & Hp' & _ & Hf')].
    { by apply IP_String_nonempty in Hnil. }
    by rewrite <-(ParseIP_IP_String_family _ _ Hp'), Hf',
      (ParseCIDR_IPNet_String_family _ _ _ Hp).
Qed.

(** X13.  MarshalPodAnnotation does not make every check that
    UnmarshalPodAnnotation makes.  A PodAnnotation without an IP, with a
    MAC that does not have 6, 8 or 20 octets, with a route whose
    destination has the prefix length 0, or with a next hop of another
    family than its destination, is encoded when the encoder's own two
    checks pass, and the annotation that is written is then refused by the
    decoder with an error of the InvalidConfig class. *)
Theorem encoded_but_refused (pa : PodAnnotation) (m : gmap string json.text) :
  MarshalPodAnnotation pa = Ok m →
  unchecked_on_encode pa →
  ∃ e, UnmarshalPodAnnotation m = Err e ∧ kind_of e = InvalidConfig.
Proof.
  intros (_ & _ & ->)%MarshalPodAnnotation_Ok_inv Hun.
  assert (is_Err (unmarshalWire (wire_of pa))) as [e He];
    [|exists e; split; [done|by eapply unmarshalWire_kind]].
  assert (∀ r, r ∈ Routes pa →
    is_Err (unmarshalRoute
              {| dest := net.IPNet_String (Dest r);
                 nextHop := from_option net.IP_String "" (NextHop r) |}) →
    is_Err (unmarshalWire (wire_of pa))) as Hroute.
  { intros r Hr [e He].
    apply list_elem_of_split in Hr as (pre & post & Hr).
    eapply (unmarshalWire_route_Err (wire_of pa)); [|exact He].
    cbn [wire_of routes]. rewrite Hr, fmap_app, fmap_cons. done. }
  destruct Hun as [Hips|[Hmac|[Hz|Hf]]].
  - unfold unmarshalWire.
    destruct (net.ParseMAC _); simpl; [|by eexists].
    unfold wireIPs, wire_of. cbn [ip_addresses ip_address]. rewrite Hips.
    simpl. by eexists.
  - unfold unmarshalWire. cbn [wire_of mac_address].
    destruct (net.ParseMAC _) as [hw|] eqn:Hp; simpl; [|by eexists].
    exfalso. apply Hmac.
    pose proof (ParseMAC_length _ _ Hp) as Hlen.
    by apply ParseMAC_String_inv in Hp as ->.
  - apply Exists_exists in Hz as (r & Hr & Hz).
    apply (Hroute r Hr), unmarshalRoute_unchecked. by left.
  - apply Exists_exists in Hf as (r & Hr & Hf).
    apply (Hroute r Hr), unmarshalRoute_unchecked. by right.
Qed.

Lemma encoded_but_refused_witness :
  ∃ m, MarshalPodAnnotation ex_zero_prefix_route = Ok m
    ∧ ∃ e, UnmarshalPodAnnotation m = Err e ∧ kind_of e = InvalidConfig.
Proof.
  eexists. split; [reflexivity|].
  apply (encoded_but_refused ex_zero_prefix_route); [reflexivity|].
  right. right. left. apply Exists_cons_hd. left.
  split; [discriminate|reflexivity].
Defined.

(** ** The other networks of the annotation *)

Lemma Unmarshal_Object_app members1 members2 :
  json.Unmarshal (json.Valid (json.Object (members1 ++ members2))) =
    foldl decode_member
          (json.Unmarshal (json.Valid (json.Object members1))) members2.
Proof. unfold json.Unmarshal. by rewrite foldl_app. Qed.

Lemma Unmarshal_fold_None members :
  foldl decode_member None members = None.
Proof. by induction members. Qed.

(** Two maps with the same entry for the default network keep the same
    entry when the same members are decoded into both. *)
Lemma Unmarshal_fold_default members (nets nets' : gmap string podAnnotation) :
  nets !! OvnPodDefaultNetwork = nets' !! OvnPodDefaultNetwork →
  match foldl decode_member (Some nets) members,
        foldl decode_member (Some nets') members with
  | Some r, Some r' => r !! OvnPodDefaultNetwork = r' !! OvnPodDefaultNetwork
  | None, None => True
  | _, _ => False
  end.
Proof.
  revert nets nets'. induction members as [|[k v] members IH]; intros nets nets' H.
  - done.
  - cbn [foldl mbind option_bind fst snd].
    destruct (json.unmarshal_podAnnotation v) as [a|]; cbn [mbind option_bind].
    + apply IH. destruct (decide (k = OvnPodDefaultNetwork)) as [->|Hk].
      * by rewrite !lookup_insert_eq.
      * by rewrite !lookup_insert_ne.
    + by rewrite Unmarshal_fold_None.
Qed.

(** X14.  Only the entry of the network "default" is read.  A member for
    another network, anywhere in the annotation's JSON object, does not
    change what UnmarshalPodAnnotation returns as long as its value is a
    wire record; when its value is not one, decoding fails as a whole with
    the unmarshal error, whatever the other members are. *)
Theorem other_networks
    (members1 members2 : list (string * json.value)) (k : string) (v : json.value) :
  k ≠ OvnPodDefaultNetwork →
  (is_Some (json.unmarshal_podAnnotation v) →
   UnmarshalPodAnnotation (annotated (json.Object (members1 ++ (k, v) :: members2)))
   = UnmarshalPodAnnotation (annotated (json.Object (members1 ++ members2))))
  ∧ (json.unmarshal_podAnnotation v = None →
     UnmarshalPodAnnotation (annotated (json.Object (members1 ++ (k, v) :: members2)))
     = Err ErrUnmarshal).
Proof.
  intros Hk.
  unfold UnmarshalPodAnnotation, annotated. rewrite !lookup_singleton_eq.
  rewrite !Unmarshal_Object_app.
  destruct (json.Unmarshal (json.Valid (json.Object members1))) as [nets|].
  - cbn [foldl mbind option_bind fst snd]. split.
    + intros [a ->]. cbn [mbind option_bind].
      pose proof (Unmarshal_fold_default members2 (<[k:=a]> nets) nets) as H.
      rewrite lookup_insert_ne in H by done. specialize (H eq_refl).
      destruct (foldl _ (Some (<[k:=a]> nets)) members2) as [r|],
        (foldl _ (Some nets) members2) as [r'|]; try done.
      by rewrite H.
    + intros ->. cbn [mbind option_bind]. by rewrite Unmarshal_fold_None.
  - cbn [foldl mbind option_bind fst snd].
    rewrite !Unmarshal_fold_None. by split.
Qed.

Lemma other_networks_witness :
  UnmarshalPodAnnotation
    (annotated (json.Object
       [("default",
         json.Object
           [("ip_addresses", json.Array [json.Str "192.168.0.5/24"]);
            ("mac_address", json.Str "0a:58:fd:98:00:01");
            ("gateway_ips", json.Array [json.Str "192.168.0.1"])]);
        ("other", json.Str "no wire record")]))
  = Err ErrUnmarshal.
Proof.
  apply (proj2 (other_networks
    [("default",
      json.Object
        [("ip_addresses", json.Array [json.Str "192.168.0.5/24"]);
         ("mac_address", json.Str "0a:58:fd:98:00:01");
         ("gateway_ips", json.Array [json.Str "192.168.0.1"])])]
    [] "other" (json.Str "no wire record") ltac:(discriminate))).
  reflexivity.
Defined.
